(** * sec-certs: CPE matching and CVE cross-reference

    A shallow embedding of
      - [sec_certs/model/cpe_matching.py]  (class [CPEClassifier]) and
      - [sec_certs/dataset/cve.py]         (class [CVEDataset]),
    with the properties of their specification stated and proved over it.

    Conventions of the embedding.
      - A Python [str] is the list of its code points ([N]).
      - A method that may raise returns a value of [res]: [Ret v] for a
        normal return, [Raise e] for an exception.  [NoFuel] only marks an
        exhausted recursion budget of the model; the public entry points are
        proved never to produce it.
      - A Python [set] is a duplicate-free list in insertion order, a [dict]
        an association list with unique keys in insertion order.  CPython
        does not specify the iteration order of a [set]; the theorems below
        do not depend on which order the model picks, and the
        examples that do say so.
      - The Unicode property tables of the interpreter (case mappings, the
        regex classes [\w] and [\d]) and the rapidfuzz scorers are not part
        of the repository: they are parameters of the sections that use
        them. *)

From Stdlib Require Import Ascii String List NArith ZArith QArith Bool Lia.
Import ListNotations.

Set Implicit Arguments.
Close Scope Q_scope.

(* ================================================================== *)
(** ** Python values: strings, exceptions, sets and dictionaries       *)
(* ================================================================== *)

Module Py.

Definition char := N.
Definition str := list char.

(** ASCII literals. *)
Definition lit (s : string) : str := map N_of_ascii (list_ascii_of_string s).

Definition chr_eqb : char -> char -> bool := N.eqb.

Fixpoint str_eqb (a b : str) : bool :=
  match a, b with
  | [], [] => true
  | x :: a', y :: b' => N.eqb x y && str_eqb a' b'
  | _, _ => false
  end.

Definition pair_eqb (p q : str * str) : bool :=
  str_eqb (fst p) (fst q) && str_eqb (snd p) (snd q).

(** Exceptions the modelled code can raise. *)
Inductive exn := IndexError | KeyError | TypeError.

Inductive res (A : Type) : Type :=
| Ret (a : A)
| Raise (e : exn)
| NoFuel.
Arguments Ret {A} a.
Arguments Raise {A} e.
Arguments NoFuel {A}.

Definition bind {A B} (m : res A) (k : A -> res B) : res B :=
  match m with
  | Ret a => k a
  | Raise e => Raise e
  | NoFuel => NoFuel
  end.

(** A list comprehension whose body may raise: elements are evaluated
    left to right and the first exception aborts the comprehension. *)
Fixpoint mapM {A B} (f : A -> res B) (l : list A) : res (list B) :=
  match l with
  | [] => Ret []
  | a :: l' => bind (f a) (fun b => bind (mapM f l') (fun bs => Ret (b :: bs)))
  end.

(** *** [set] *)

Section Sets.
Variable A : Type.
Variable eqb : A -> A -> bool.

Definition mem (x : A) (s : list A) : bool := existsb (eqb x) s.

(** [s.add(x)]: an element equal to one already present is not stored. *)
Definition set_add (s : list A) (x : A) : list A :=
  if mem x s then s else s ++ [x].

(** [set(iterable)]. *)
Definition set_of_list (l : list A) : list A := fold_left set_add l [].
End Sets.

(** *** [dict] *)

Section Dicts.
Variables K V : Type.
Variable eqb : K -> K -> bool.

Definition dict := list (K * V).

Fixpoint dict_get (k : K) (d : dict) : option V :=
  match d with
  | [] => None
  | (k', v) :: d' => if eqb k k' then Some v else dict_get k d'
  end.

(** [d[k] = v]: an existing key keeps its position. *)
Fixpoint dict_set (k : K) (v : V) (d : dict) : dict :=
  match d with
  | [] => [(k, v)]
  | (k', v') :: d' =>
      if eqb k k' then (k', v) :: d' else (k', v') :: dict_set k v d'
  end.

(** [del d[k]], for a key that is present. *)
Fixpoint dict_del (k : K) (d : dict) : dict :=
  match d with
  | [] => []
  | (k', v') :: d' => if eqb k k' then d' else (k', v') :: dict_del k d'
  end.

Definition dict_has (k : K) (d : dict) : bool :=
  match dict_get k d with Some _ => true | None => false end.

(** [d[k].update(f)] for a key that is present (absent: no change). *)
Fixpoint dict_adjust (f : V -> V) (k : K) (d : dict) : dict :=
  match d with
  | [] => []
  | (k', v') :: d' =>
      if eqb k k' then (k', f v') :: d' else (k', v') :: dict_adjust f k d'
  end.

Definition dict_keys (d : dict) : list K := map fst d.
Definition dict_values (d : dict) : list V := map snd d.
End Dicts.

(** *** [str] methods that do not depend on the Unicode database *)

Definition space : char := 32%N.

(** [Py_UNICODE_ISSPACE], the characters [str.split()] and [str.strip()]
    treat as whitespace. *)
Definition is_space (c : char) : bool :=
  ((9 <=? c) && (c <=? 13) || (28 <=? c) && (c <=? 32) ||
   (c =? 133) || (c =? 160) || (c =? 5760) ||
   (8192 <=? c) && (c <=? 8202) ||
   (c =? 8232) || (c =? 8233) || (c =? 8239) || (c =? 8287) ||
   (c =? 12288))%N.

Fixpoint lstrip (s : str) : str :=
  match s with
  | [] => []
  | c :: r => if is_space c then lstrip r else s
  end.

Definition rstrip (s : str) : str := rev (lstrip (rev s)).

(** [s.strip()] *)
Definition strip (s : str) : str := rstrip (lstrip s).

(** [s.split()]: maximal runs of non-whitespace characters. [cur] holds the
    current run, reversed. *)
Fixpoint split_ws_aux (cur : str) (s : str) : list str :=
  match s with
  | [] => match cur with [] => [] | _ => [rev cur] end
  | c :: r =>
      if is_space c
      then match cur with
           | [] => split_ws_aux [] r
           | _ => rev cur :: split_ws_aux [] r
           end
      else split_ws_aux (c :: cur) r
  end.

Definition split_ws (s : str) : list str := split_ws_aux [] s.

(** [s.split(sep)] for a one-character separator. *)
Fixpoint split_chr_aux (sep : char) (cur : str) (s : str) : list str :=
  match s with
  | [] => [rev cur]
  | c :: r =>
      if chr_eqb c sep
      then rev cur :: split_chr_aux sep [] r
      else split_chr_aux sep (c :: cur) r
  end.

Definition split_chr (sep : char) (s : str) : list str :=
  split_chr_aux sep [] s.

(** [sep.join(l)] *)
Fixpoint join (sep : str) (l : list str) : str :=
  match l with
  | [] => []
  | [x] => x
  | x :: l' => x ++ sep ++ join sep l'
  end.

(** The length of [l] joined and terminated by one-character separators. *)
Fixpoint total_length (l : list str) : nat :=
  match l with
  | [] => 0
  | x :: l' => S (length x) + total_length l'
  end.

(** [r] is a return or an exception, not an exhausted budget. *)
Definition terminates {A} (r : res A) : Prop := r <> NoFuel.

(** [s.startswith(p)] *)
Fixpoint startswith (s p : str) : bool :=
  match p, s with
  | [], _ => true
  | x :: p', y :: s' => chr_eqb x y && startswith s' p'
  | _ :: _, [] => false
  end.

(** [s.replace(old, new)]: occurrences of [old] are replaced from the left,
    without overlap.  [skip] counts the characters of a matched occurrence
    that remain to be dropped. *)
Fixpoint replace_aux (old new : str) (skip : nat) (s : str) : str :=
  match s with
  | [] => []
  | c :: r =>
      match skip with
      | S k => replace_aux old new k r
      | O =>
          if startswith s old
          then new ++ replace_aux old new (length old - 1) r
          else c :: replace_aux old new 0 r
      end
  end.

Definition replace (old new : str) (s : str) : str :=
  match old with
  | [] => new ++ flat_map (fun c => c :: new) s
  | _ => replace_aux old new 0 s
  end.

(** A string without a character other than whitespace. *)
Definition blank (s : str) : bool := forallb is_space s.

(** [not l] *)
Definition is_nil {A} (l : list A) : bool :=
  match l with [] => true | _ => false end.

(** [l[:n]] for a Python integer [n] (a negative [n] counts from the end). *)
Definition slice_to {A} (n : Z) (l : list A) : list A :=
  if (0 <=? n)%Z then firstn (Z.to_nat n) l
  else firstn (length l - Z.to_nat (- n)) l.

(** *** The Unicode database of the interpreter

    The case mappings and character classes are tables of CPython
    ([Objects/unicodetype_db.h]); they are taken as given. *)

Record UnicodeDB := {
  to_lower_full : char -> str;      (* _PyUnicode_ToLowerFull *)
  to_upper_full : char -> str;      (* _PyUnicode_ToUpperFull *)
  is_cased : char -> bool;          (* _PyUnicode_IsCased *)
  is_case_ignorable : char -> bool; (* _PyUnicode_IsCaseIgnorable *)
  is_word : char -> bool;           (* regex class \w: alphanumeric or '_' *)
  is_digit : char -> bool           (* regex class \d: decimal digit *)
}.

Section Unicode.
Variable U : UnicodeDB.

Definition capital_sigma : char := 931%N.      (* U+03A3 *)
Definition small_sigma : char := 963%N.        (* U+03C3 *)
Definition small_final_sigma : char := 962%N.  (* U+03C2 *)

Fixpoint skip_ignorable (s : str) : str :=
  match s with
  | [] => []
  | c :: r => if is_case_ignorable U c then skip_ignorable r else s
  end.

(** [handle_capital_sigma] of [unicodeobject.c]: [before] holds the
    characters that precede the sigma, nearest first, [after] those that
    follow it. *)
Definition handle_capital_sigma (before after : str) : char :=
  let final_sigma :=
    match skip_ignorable before with
    | [] => false
    | c :: _ => is_cased U c
    end in
  if final_sigma
  then match skip_ignorable after with
       | [] => small_final_sigma
       | c :: _ => if is_cased U c then small_sigma else small_final_sigma
       end
  else small_sigma.

Fixpoint lower_aux (before : str) (s : str) : str :=
  match s with
  | [] => []
  | c :: r =>
      (if chr_eqb c capital_sigma
       then [handle_capital_sigma before r]
       else to_lower_full U c) ++ lower_aux (c :: before) r
  end.

(** [s.lower()] *)
Definition lower (s : str) : str := lower_aux [] s.

(** [s.upper()] *)
Definition upper (s : str) : str := flat_map (to_upper_full U) s.

(** A character that [lower] leaves alone wherever it stands. *)
Definition lower_fixed (d : char) : Prop :=
  d <> capital_sigma /\ to_lower_full U d = [d].

(** The lower-case mapping of the Unicode Character Database yields
    lower-case characters: what it produces is not mapped any further.
    The space is not a cased character. *)
Definition lowercase_stable : Prop :=
  (forall c d, c <> capital_sigma -> In d (to_lower_full U c) -> lower_fixed d) /\
  lower_fixed small_sigma /\
  lower_fixed small_final_sigma /\
  lower_fixed space.
End Unicode.

End Py.

(* ================================================================== *)
(** ** [sec_certs/model/cpe_matching.py]                               *)
(* ================================================================== *)

Module CPEMatching.
Import Py.

Inductive boundary := including | excluding.

(** Modelled from the spec: the class [CPE] of [sec_certs/sample/cpe.py] is
    not among the sources; its fields are those of the specification's
    IdentifierRecord, "hashable/equal by uri". *)
Record CPE := {
  uri : str;
  title : option str;
  vendor : str;
  item_name : str;
  version : str;
  start_version : option (boundary * str);
  end_version : option (boundary * str)
}.

(** Modelled from the spec: [CPE.__eq__], equality by uri. *)
Definition cpe_eqb (a b : CPE) : bool := str_eqb (uri a) (uri b).

(** The attributes of a [CPEClassifier]: the two constructor arguments and
    the three structures [fit] assigns. *)
Record CPEClassifier := {
  match_threshold : Z;
  n_max_matches : Z;
  vendor_to_versions_ : dict str (list str);
  vendor_version_to_cpe_ : dict (str * str) (list CPE);
  vendors_ : list str
}.

(** The scorers of [rapidfuzz.fuzz] the classifier calls. *)
Record Scorers := {
  token_set_ratio : str -> str -> Q;
  partial_ratio : str -> str -> Q
}.

(** *** [fit] *)

Definition filter_short_cpes (cpes : list CPE) : list CPE :=
  filter (fun x => 3 <? length (item_name x)) cpes.

Definition add_to_lookups
    (acc : dict str (list str) * dict (str * str) (list CPE)) (cpe : CPE) :=
  let '(vtv, vvc) := acc in
  let key := (vendor cpe, version cpe) in
  (dict_adjust str_eqb (fun s => set_add str_eqb s (version cpe)) (vendor cpe) vtv,
   if dict_has pair_eqb key vvc
   then dict_adjust pair_eqb (fun s => set_add cpe_eqb s cpe) key vvc
   else dict_set pair_eqb key [cpe] vvc).

Definition build_lookup_structures (self : CPEClassifier) (X : list CPE)
  : CPEClassifier :=
  let sufficiently_long_cpes := filter_short_cpes X in
  let vtv0 :=
    fold_left (fun d x => dict_set str_eqb (vendor x) [] d)
              sufficiently_long_cpes [] in
  let vendors := set_of_list str_eqb (dict_keys vtv0) in
  let '(vtv, vvc) := fold_left add_to_lookups sufficiently_long_cpes (vtv0, []) in
  {| match_threshold := match_threshold self;
     n_max_matches := n_max_matches self;
     vendor_to_versions_ := vtv;
     vendor_version_to_cpe_ := vvc;
     vendors_ := vendors |}.

Definition fit (self : CPEClassifier) (X : list CPE) : CPEClassifier :=
  build_lookup_structures self X.

(** [CPEClassifier(match_threshold, n_max_matches)], before [fit]. *)
Definition new_classifier (threshold n_max : Z) : CPEClassifier :=
  {| match_threshold := threshold; n_max_matches := n_max;
     vendor_to_versions_ := []; vendor_version_to_cpe_ := []; vendors_ := [] |}.

(** *** Sanitizers and the matcher *)

Section Matching.
Variable U : UnicodeDB.
Variable F : Scorers.

Definition registered_sign : char := 174%N.   (* U+00AE *)
Definition trade_mark_sign : char := 8482%N.  (* U+2122 *)

Definition _discard_trademark_symbols (s : str) : str :=
  replace [trade_mark_sign] [] (replace [registered_sign] [] s).

Definition not_trademark (x : char) : Prop :=
  x <> registered_sign /\ x <> trade_mark_sign.

(** [re.compile(r"(?ui)\W").sub(' ', string)] *)
Definition _replace_special_chars_with_space (s : str) : str :=
  map (fun c => if is_word U c then c else space) s.

Definition _fully_sanitize_string (s : str) : str :=
  _replace_special_chars_with_space (_discard_trademark_symbols (lower U s)).

Definition _strip_manufacturer_and_version
    (s : str) (manufacturers versions : list str) : str :=
  fold_left
    (fun string x =>
       strip (replace (_replace_special_chars_with_space (lower U x)) []
                      (lower U string)))
    (manufacturers ++ versions) s.

Definition is_sep (c : char) : bool := chr_eqb c 44%N || chr_eqb c 47%N.

(** [re.compile(r'[,/]').findall(manufacturer)] *)
Definition find_separators (manufacturer : str) : list char :=
  filter is_sep manufacturer.

Definition add_if (b : bool) (x : str) (s : list str) : list str :=
  if b then set_add str_eqb s x else s.

Definition unions (rs : list (option (list str))) : list str :=
  set_of_list str_eqb
    (flat_map (fun x => match x with Some l => l | None => [] end) rs).

Definition none_if_empty {A} (l : list A) : option (list A) :=
  match l with [] => None | _ => Some l end.

Fixpoint get_candidate_list_of_vendors_fuel
    (fuel : nat) (self : CPEClassifier) (manufacturer : str)
  : res (option (list str)) :=
  match fuel with
  | O => NoFuel
  | S fuel' =>
      match manufacturer with
      | [] => Ret None
      | _ =>
          match find_separators manufacturer with
          | (_ :: _) as splits =>
              let vendor_tokens :=
                set_of_list str_eqb
                  (flat_map (fun s => map strip (split_chr s manufacturer))
                            splits) in
              bind (mapM (get_candidate_list_of_vendors_fuel fuel' self)
                         vendor_tokens)
                   (fun result => Ret (none_if_empty (unions result)))
          | [] =>
              let result :=
                add_if (mem str_eqb manufacturer (vendors_ self))
                       manufacturer [] in
              match split_ws manufacturer with
              | [] => Raise IndexError
              | t0 :: rest =>
                  let tokenized := t0 :: rest in
                  let has := fun w => mem str_eqb w tokenized in
                  let result :=
                    add_if (mem str_eqb t0 (vendors_ self)) t0 result in
                  let result :=
                    match rest with
                    | t1 :: _ =>
                        add_if (mem str_eqb (t0 ++ t1) (vendors_ self))
                               (t0 ++ t1) result
                    | [] => result
                    end in
                  let result :=
                    add_if (has (lit "hewlett") || has (lit "hewlett-packard") ||
                            str_eqb manufacturer (lit "hewlett packard"))
                           (lit "hp") result in
                  let result :=
                    add_if (has (lit "thales")) (lit "thalesgroup")
                      (add_if (has (lit "thales")) (lit "thalesesecurity") result) in
                  let result :=
                    add_if (has (lit "stmicroelectronics")) (lit "st") result in
                  let result :=
                    add_if (has (lit "athena") && has (lit "smartcard"))
                           (lit "athena-scs") result in
                  match str_eqb t0 (lit "the"), result with
                  | true, [] =>
                      bind (get_candidate_list_of_vendors_fuel
                              fuel' self (join [space] rest))
                           (fun r =>
                              Ret (match r with
                                   | Some ((_ :: _) as l) => Some l
                                   | _ => None
                                   end))
                  | _, _ => Ret (none_if_empty result)
                  end
              end
          end
      end
  end.

(** Every recursive call is on a strictly shorter string. *)
Definition get_candidate_list_of_vendors
    (self : CPEClassifier) (manufacturer : str) : res (option (list str)) :=
  get_candidate_list_of_vendors_fuel (S (length manufacturer)) self manufacturer.

(** [re.search(r'(\d{1,5})(\.\d{1,5})', s)]: a digit, a dot, a digit. *)
Fixpoint search_just_numbers (s : str) : bool :=
  match s with
  | [] => false
  | a :: r =>
      match r with
      | b :: c :: _ => is_digit U a && chr_eqb b 46%N && is_digit U c
      | _ => false
      end || search_just_numbers r
  end.

Definition is_cpe_version_among_cert_versions
    (cpe_version : str) (cert_versions : option (list str)) : res bool :=
  match cert_versions with
  | None => Raise TypeError
  | Some vs =>
      Ret (existsb
             (fun v => startswith v cpe_version && search_just_numbers cpe_version
                       || startswith cpe_version v) vs)
  end.

(** A list comprehension with a condition that may raise. *)
Fixpoint filterM {A} (f : A -> res bool) (l : list A) : res (list A) :=
  match l with
  | [] => Ret []
  | a :: l' =>
      bind (f a) (fun b =>
      bind (filterM f l') (fun r => Ret (if b then a :: r else r)))
  end.

Fixpoint vendor_version_pairs_loop
    (self : CPEClassifier) (vendors : list str) (versions : option (list str))
  : res (list (str * str)) :=
  match vendors with
  | [] => Ret []
  | vendor :: rest =>
      match dict_get str_eqb vendor (vendor_to_versions_ self) with
      | None => Raise KeyError
      | Some viable_cpe_versions =>
          bind (filterM (fun x => is_cpe_version_among_cert_versions x versions)
                        viable_cpe_versions)
               (fun matched_cpe_versions =>
          bind (vendor_version_pairs_loop self rest versions)
               (fun pairs =>
                  Ret (map (fun x => (vendor, x)) matched_cpe_versions ++ pairs)))
      end
  end.

Definition get_candidate_vendor_version_pairs
    (self : CPEClassifier)
    (cert_candidate_cpe_vendors : option (list str))
    (cert_candidate_versions : option (list str))
  : res (option (list (str * str))) :=
  match cert_candidate_cpe_vendors with
  | None | Some [] => Ret None
  | Some vendors =>
      bind (vendor_version_pairs_loop self vendors cert_candidate_versions)
           (fun pairs => Ret (Some pairs))
  end.

Definition get_candidate_cpe_matches
    (self : CPEClassifier)
    (candidate_vendors : option (list str))
    (candidate_versions : option (list str)) : res (list CPE) :=
  bind (get_candidate_vendor_version_pairs self candidate_vendors
                                           candidate_versions)
       (fun pairs =>
          match pairs with
          | Some ((_ :: _) as ps) =>
              bind (mapM (fun x =>
                            match dict_get pair_eqb x (vendor_version_to_cpe_ self) with
                            | Some s => Ret s
                            | None => Raise KeyError
                            end) ps)
                   (fun sets => Ret (concat sets))
          | _ => Ret []
          end).

(** [max] of a non-empty list of floats: the first maximal element. *)
Definition py_max (x : Q) (l : list Q) : Q :=
  fold_left (fun m y => if Qle_bool y m then m else y) l x.

Definition truthy (o : option str) : option str :=
  match o with Some ((_ :: _) as s) => Some s | _ => None end.

Definition compute_best_match
    (cpe : CPE) (product_name : str)
    (candidate_vendors versions : option (list str)) : res Q :=
  let sanitized_title :=
    match truthy (title cpe) with
    | Some t => _fully_sanitize_string t
    | None =>
        _fully_sanitize_string
          (vendor cpe ++ [space] ++ item_name cpe ++ [space] ++ version cpe)
    end in
  let sanitized_item_name := _fully_sanitize_string (item_name cpe) in
  match candidate_vendors, versions with
  | Some manufacturers, Some vs =>
      let cert_stripped :=
        _strip_manufacturer_and_version product_name manufacturers vs in
      let token_set_ratio_on_title := token_set_ratio F product_name sanitized_title in
      let token_set_ratio_on_item_name := token_set_ratio F cert_stripped sanitized_item_name in
      let partial_ratio_on_title := partial_ratio F product_name sanitized_title in
      let partial_ratio_on_item_name := partial_ratio F cert_stripped sanitized_item_name in
      Ret (py_max token_set_ratio_on_title
                  [partial_ratio_on_title; token_set_ratio_on_item_name;
                   partial_ratio_on_item_name])
  | _, _ => Raise TypeError
  end.

(** [filter(lambda x: x[0] >= threshold, zip(ratings, candidates))] *)
Definition filter_by_threshold
    (threshold : Z) (ratings : list Q) (candidates : list CPE)
  : list (Q * CPE) :=
  filter (fun x => Qle_bool (inject_Z threshold) (fst x))
         (combine ratings candidates).

Fixpoint predict_single_cert_fuel
    (fuel : nat) (self : CPEClassifier) (vendor product_name : str)
    (versions : option (list str)) (relax_version : bool)
  : res (option (list str)) :=
  match fuel with
  | O => NoFuel
  | S fuel' =>
      let sanitized_vendor :=
        match vendor with
        | [] => vendor
        | _ => lower U (_discard_trademark_symbols vendor)
        end in
      let sanitized_product_name :=
        match product_name with
        | [] => product_name
        | _ => _fully_sanitize_string product_name
        end in
      bind (get_candidate_list_of_vendors self sanitized_vendor)
           (fun candidate_vendors =>
      bind (get_candidate_cpe_matches self candidate_vendors versions)
           (fun candidates =>
      bind (mapM (fun cpe => compute_best_match cpe sanitized_product_name
                                                candidate_vendors versions)
                 candidates)
           (fun ratings =>
      let threshold :=
        if negb relax_version then match_threshold self else 100%Z in
      let final_matches := filter_by_threshold threshold ratings candidates in
      if relax_version && is_nil final_matches
      then predict_single_cert_fuel fuel' self vendor product_name
                                    (Some [lit "-"]) false
      else Ret (match final_matches with
                | [] => None
                | _ => Some (map (fun x => uri (snd x))
                                 (slice_to (n_max_matches self) final_matches))
                end))))
  end.

(** The call with [relax_version=True] re-enters once, with
    [relax_version=False]; that call does not re-enter. *)
Definition predict_single_cert
    (self : CPEClassifier) (vendor product_name : str)
    (versions : option (list str)) (relax_version : bool)
  : res (option (list str)) :=
  predict_single_cert_fuel 2 self vendor product_name versions relax_version.

(** *** The notions the properties of [predict_single_cert] are stated with *)

(** [zip(ratings, candidates)]: the candidates of a query paired with
    their ratings, in the order [get_candidate_cpe_matches] enumerates
    them. *)
Definition rated_candidates
    (self : CPEClassifier) (vendor product_name : str)
    (versions : option (list str)) : res (list (Q * CPE)) :=
  let sanitized_vendor :=
    match vendor with
    | [] => vendor
    | _ => lower U (_discard_trademark_symbols vendor)
    end in
  let sanitized_product_name :=
    match product_name with
    | [] => product_name
    | _ => _fully_sanitize_string product_name
    end in
  bind (get_candidate_list_of_vendors self sanitized_vendor)
       (fun candidate_vendors =>
  bind (get_candidate_cpe_matches self candidate_vendors versions)
       (fun candidates =>
  bind (mapM (fun cpe => compute_best_match cpe sanitized_product_name
                                            candidate_vendors versions)
             candidates)
       (fun ratings => Ret (combine ratings candidates)))).

(** The rated candidates cut down to those rated at least [threshold],
    in the same order: the value of [final_matches] in one pass. *)
Definition scored_matches
    (self : CPEClassifier) (vendor product_name : str)
    (versions : option (list str)) (threshold : Z) : res (list (Q * CPE)) :=
  bind (rated_candidates self vendor product_name versions)
       (fun rated =>
          Ret (filter (fun x => Qle_bool (inject_Z threshold) (fst x)) rated)).

(** What a pass returns for its [final_matches]. *)
Definition uris_or_none (n_max : Z) (final_matches : list (Q * CPE))
  : option (list str) :=
  match final_matches with
  | [] => None
  | _ => Some (map (fun x => uri (snd x)) (slice_to n_max final_matches))
  end.

(** The matcher as the specification words it: the first pass filters by
    the configured threshold, the retry (versions ["-"]) by 100. *)
Definition predict_as_specified
    (self : CPEClassifier) (vendor product_name : str)
    (versions : option (list str)) (relax_version : bool)
  : res (option (list str)) :=
  bind (scored_matches self vendor product_name versions (match_threshold self))
       (fun first =>
          if relax_version && is_nil first
          then bind (scored_matches self vendor product_name
                                    (Some [lit "-"]) 100%Z)
                    (fun second => Ret (uris_or_none (n_max_matches self) second))
          else Ret (uris_or_none (n_max_matches self) first)).

(** Sorting by descending score, equal scores staying in their order. *)
Fixpoint insert_desc (x : Q * CPE) (l : list (Q * CPE)) : list (Q * CPE) :=
  match l with
  | [] => [x]
  | y :: l' =>
      if Qle_bool (fst x) (fst y) then y :: insert_desc x l' else x :: l
  end.

Definition sort_desc (l : list (Q * CPE)) : list (Q * CPE) :=
  fold_left (fun acc x => insert_desc x acc) l [].

(** The ranking the specification words: the top [n_max] matches by
    descending score. *)
Definition ranked_as_specified (n_max : Z) (final_matches : list (Q * CPE))
  : option (list str) :=
  match final_matches with
  | [] => None
  | _ => Some (map (fun x => uri (snd x))
                   (firstn (Z.to_nat n_max) (sort_desc final_matches)))
  end.

(** The same fitted classifier, configured with another threshold. *)
Definition with_threshold (self : CPEClassifier) (t : Z) : CPEClassifier :=
  {| match_threshold := t;
     n_max_matches := n_max_matches self;
     vendor_to_versions_ := vendor_to_versions_ self;
     vendor_version_to_cpe_ := vendor_version_to_cpe_ self;
     vendors_ := vendors_ self |}.

(** *** The notions the properties of the resolver and of [predict] are
    stated with *)

(** The vendor keys the manual fixes of [get_candidate_list_of_vendors]
    add whether or not the index knows them. *)
Definition manual_fixes : list str :=
  [lit "hp"; lit "thalesesecurity"; lit "thalesgroup"; lit "st";
   lit "athena-scs"].

(** The set [vendor_tokens] of the separator branch. *)
Definition vendor_tokens (manufacturer : str) : list str :=
  set_of_list str_eqb
    (flat_map (fun s => map strip (split_chr s manufacturer))
              (find_separators manufacturer)).

(** [predict]: one call of [predict_single_cert], with the default
    [relax_version=True], for every tuple of the batch. *)
Definition predict
    (self : CPEClassifier) (X : list (str * str * option (list str)))
  : res (list (option (list str))) :=
  mapM (fun x => predict_single_cert self (fst (fst x)) (snd (fst x)) (snd x) true)
       X.

(** The set [result] of the branch without separators, before the article
    "the" is looked at: the vendor keys found directly and the manual
    fixes. *)
Definition direct_matches
    (self : CPEClassifier) (manufacturer t0 : str) (rest : list str)
  : list str :=
  let tokenized := t0 :: rest in
  let has := fun w => mem str_eqb w tokenized in
  let result :=
    add_if (mem str_eqb manufacturer (vendors_ self)) manufacturer [] in
  let result := add_if (mem str_eqb t0 (vendors_ self)) t0 result in
  let result :=
    match rest with
    | t1 :: _ =>
        add_if (mem str_eqb (t0 ++ t1) (vendors_ self)) (t0 ++ t1) result
    | [] => result
    end in
  let result :=
    add_if (has (lit "hewlett") || has (lit "hewlett-packard") ||
            str_eqb manufacturer (lit "hewlett packard"))
           (lit "hp") result in
  let result :=
    add_if (has (lit "thales")) (lit "thalesgroup")
      (add_if (has (lit "thales")) (lit "thalesesecurity") result) in
  let result := add_if (has (lit "stmicroelectronics")) (lit "st") result in
  add_if (has (lit "athena") && has (lit "smartcard")) (lit "athena-scs") result.

(** The value of [sanitized_vendor] in [predict_single_cert]. *)
Definition sanitize_vendor (vendor : str) : str :=
  match vendor with
  | [] => vendor
  | _ => lower U (_discard_trademark_symbols vendor)
  end.

(** The value of [sanitized_product_name] in [predict_single_cert]. *)
Definition sanitize_product_name (product_name : str) : str :=
  match product_name with
  | [] => product_name
  | _ => _fully_sanitize_string product_name
  end.

End Matching.

End CPEMatching.

(* ================================================================== *)
(** ** [sec_certs/dataset/cve.py]                                      *)
(* ================================================================== *)

Module CVEData.
Import Py CPEMatching.

(** Modelled from the spec: the class [CPEConfiguration] of
    [sec_certs/sample/cpe.py] is not among the sources; a compound
    configuration is a platform and an ordered sequence of components. *)
Record CPEConfiguration := {
  platform : CPE;
  cpes : list CPE
}.

(** Modelled from the spec: [CPEConfiguration.matches], absent from the
    sources: "matches(set_of_uris) holds iff platform.uri is in set_of_uris
    and at least one component.uri is in set_of_uris". *)
Definition matches (c : CPEConfiguration) (cpe_uris : list str) : bool :=
  mem str_eqb (uri (platform c)) cpe_uris &&
  existsb (fun y => mem str_eqb (uri y) cpe_uris) (cpes c).

(** Modelled from the spec: the class [CVE] of [sec_certs/sample/cve.py] is
    not among the sources; of the fields of a VulnerabilityRecord the
    dataset reads and writes these three. *)
Record CVE := {
  cve_id : str;
  vulnerable_cpes : list CPE;
  vulnerable_cpe_configurations : list CPEConfiguration
}.

Record CVEDataset := {
  cves : dict str CVE;
  cpe_to_cve_ids_lookup : dict str (list str);
  cves_with_vulnerable_configurations : list CVE
}.

(** [CVEDataset(cves)] *)
Definition new_dataset (c : dict str CVE) : CVEDataset :=
  {| cves := c; cpe_to_cve_ids_lookup := [];
     cves_with_vulnerable_configurations := [] |}.

(** The elements a caller can put into the [set] handed to
    [filter_related_cpes]: the method tests both [CPE] objects and uri
    strings for membership.  A [str] never equals a [CPE]. *)
Inductive obj :=
| OCpe (c : CPE)
| OStr (s : str).

Definition obj_eqb (a b : obj) : bool :=
  match a, b with
  | OCpe x, OCpe y => cpe_eqb x y
  | OStr x, OStr y => str_eqb x y
  | _, _ => false
  end.

Definition is_cpe_obj (o : obj) : bool :=
  match o with OCpe _ => true | OStr _ => false end.

Section Dataset.
Variable U : UnicodeDB.

(** [__iter__] *)
Definition iter (self : CVEDataset) : list CVE := dict_values (cves self).

Definition __getitem__ (self : CVEDataset) (item : str) : res CVE :=
  match dict_get str_eqb (upper U item) (cves self) with
  | Some v => Ret v
  | None => Raise KeyError
  end.

Definition __setitem__ (self : CVEDataset) (key : str) (value : CVE)
  : CVEDataset :=
  {| cves := dict_set str_eqb (lower U key) value (cves self);
     cpe_to_cve_ids_lookup := cpe_to_cve_ids_lookup self;
     cves_with_vulnerable_configurations :=
       cves_with_vulnerable_configurations self |}.

Definition __len__ (self : CVEDataset) : nat := length (cves self).

Definition filter_cves_with_cpe_configurations (l : list CVE) : list CVE :=
  filter (fun cve => negb (is_nil (vulnerable_cpe_configurations cve))) l.

(** One round of the inner loop of [build_lookup_dict]. *)
Definition add_to_lookup (cve : CVE) (lookup : dict str (list str)) (cpe : CPE)
  : dict str (list str) :=
  if dict_has str_eqb (uri cpe) lookup
  then dict_adjust str_eqb (fun s => set_add str_eqb s (cve_id cve))
                   (uri cpe) lookup
  else dict_set str_eqb (uri cpe) [cve_id cve] lookup.

(** [build_lookup_dict]; [matching_dict] is [None] for
    [use_nist_mapping=False] and otherwise the dictionary
    [get_nist_cpe_matching_dict] has read from the NIST feed. *)
Definition build_lookup_dict
    (self : CVEDataset) (matching_dict : option (dict CPE (list CPE)))
  : CVEDataset :=
  let cves' :=
    fold_left (fun d x => dict_set str_eqb (upper U (cve_id x)) x d)
              (iter self) [] in
  let vulnerable_configurations := fun cve : CVE =>
    match matching_dict with
    | Some md =>
        flat_map (fun cpe => match dict_get cpe_eqb cpe md with
                             | Some l => l
                             | None => []
                             end) (vulnerable_cpes cve)
    | None => vulnerable_cpes cve
    end in
  let lookup :=
    fold_left (fun lk cve =>
                 fold_left (add_to_lookup cve) (vulnerable_configurations cve) lk)
              (dict_values cves') [] in
  {| cves := cves';
     cpe_to_cve_ids_lookup := lookup;
     cves_with_vulnerable_configurations :=
       filter_cves_with_cpe_configurations (dict_values cves') |}.

(** [lookup.get(cpe_uri, set())] *)
Definition lookup_get (lookup : dict str (list str)) (cpe_uri : str)
  : list str :=
  match dict_get str_eqb cpe_uri lookup with
  | Some s => s
  | None => []
  end.

Definition _get_cve_ids_for_cpe_uri (self : CVEDataset) (cpe_uri : str)
  : list str :=
  lookup_get (cpe_to_cve_ids_lookup self) cpe_uri.

Definition _get_cves_from_exactly_matched_cpes
    (self : CVEDataset) (cpe_uris : list str) : list str :=
  set_of_list str_eqb (flat_map (_get_cve_ids_for_cpe_uri self) cpe_uris).

Definition _get_cves_from_cpe_configurations
    (self : CVEDataset) (cpe_uris : list str) : list str :=
  set_of_list str_eqb
    (map cve_id
         (filter (fun cve =>
                    existsb (fun configuration => matches configuration cpe_uris)
                            (vulnerable_cpe_configurations cve))
                 (cves_with_vulnerable_configurations self))).

Definition get_cves_from_matched_cpes
    (self : CVEDataset) (cpe_uris : list str) : list str :=
  set_of_list str_eqb
    (_get_cves_from_exactly_matched_cpes self cpe_uris ++
     _get_cves_from_cpe_configurations self cpe_uris).

(** The two assignments [filter_related_cpes] makes to one record. *)
Definition prune (relevant_cpes : list obj) (cve : CVE) : CVE :=
  {| cve_id := cve_id cve;
     vulnerable_cpes :=
       filter (fun x => mem obj_eqb (OCpe x) relevant_cpes)
              (vulnerable_cpes cve);
     vulnerable_cpe_configurations :=
       filter (fun x =>
                 mem obj_eqb (OStr (uri (platform x))) relevant_cpes &&
                 existsb (fun y => mem obj_eqb (OStr (uri y)) relevant_cpes)
                         (cpes x))
              (vulnerable_cpe_configurations cve) |}.

(** [for cve_id in cve_ids_to_delete: del self.cves[cve_id]]; a key that
    is not in the dictionary raises [KeyError] and ends the loop. *)
Fixpoint delete_all (ids : list str) (d : dict str CVE)
  : dict str CVE * option exn :=
  match ids with
  | [] => (d, None)
  | id :: rest =>
      if dict_has str_eqb id d
      then delete_all rest (dict_del str_eqb id d)
      else (d, Some KeyError)
  end.

(** [filter_related_cpes]: the dataset it leaves behind and the exception
    it ends with, if any.  The records are objects shared between
    [self.cves] and [self.cves_with_vulnerable_configurations], so the
    assignments are seen through both.  The list is taken to hold records
    of the corpus, as [build_lookup_dict] leaves it; a record that is in
    the list only would keep its fields. *)
Definition filter_related_cpes
    (self : CVEDataset) (relevant_cpes : list obj)
  : CVEDataset * option exn :=
  let pruned := map (fun kv => (fst kv, prune relevant_cpes (snd kv)))
                    (cves self) in
  let cve_ids_to_delete :=
    map cve_id (filter (fun cve => is_nil (vulnerable_cpes cve))
                       (dict_values pruned)) in
  let '(remaining, e) := delete_all cve_ids_to_delete pruned in
  ({| cves := remaining;
      cpe_to_cve_ids_lookup := cpe_to_cve_ids_lookup self;
      cves_with_vulnerable_configurations :=
        map (prune relevant_cpes) (cves_with_vulnerable_configurations self) |},
   e).

(** *** The notions the properties of the dataset are stated with *)

(** Every record is filed under its own id, and no key occurs twice: the
    shape [from_nist_json] gives a corpus. *)
Definition keys_are_ids (d : dict str CVE) : Prop :=
  NoDup (dict_keys d) /\ (forall k v, In (k, v) d -> k = cve_id v).

(** The corpus after the first loop of [filter_related_cpes]. *)
Definition pruned_corpus (relevant_cpes : list obj) (d : dict str CVE)
  : dict str CVE :=
  map (fun kv => (fst kv, prune relevant_cpes (snd kv))) d.

End Dataset.

End CVEData.

(* ================================================================== *)
(** ** Concrete tables and scorers, used to run the examples           *)
(* ================================================================== *)

Module Instances.
Import Py CPEMatching.

Definition in_range (lo hi c : N) : bool := ((lo <=? c) && (c <=? hi))%N.

Definition ascii_upper_letter := in_range 65 90.
Definition ascii_lower_letter := in_range 97 122.
Definition ascii_digit := in_range 48 57.
(** U+05D0 .. U+05EA, the letters of the Hebrew alphabet: alphabetic,
    without case. *)
Definition hebrew_letter := in_range 1488 1514.

(** The Unicode tables restricted to the ASCII range and the Hebrew
    letters; every other code point is treated as an uncased symbol. *)
Definition basic_db : UnicodeDB := {|
  to_lower_full := fun c => if ascii_upper_letter c then [(c + 32)%N] else [c];
  to_upper_full := fun c => if ascii_lower_letter c then [(c - 32)%N] else [c];
  is_cased := fun c => ascii_upper_letter c || ascii_lower_letter c;
  is_case_ignorable := fun c =>
    chr_eqb c 39%N || chr_eqb c 46%N || chr_eqb c 58%N ||
    chr_eqb c 94%N || chr_eqb c 96%N;
  is_word := fun c =>
    ascii_upper_letter c || ascii_lower_letter c || ascii_digit c ||
    chr_eqb c 95%N || hebrew_letter c;
  is_digit := ascii_digit
|}.

(** *** The rapidfuzz scorers, after the library's documentation:
    [ratio] is the normalized Indel similarity, [partial_ratio] the best
    [ratio] of the shorter string against the windows of the longer one,
    [token_set_ratio] compares the sorted sets of tokens. *)

Fixpoint lcs_row (x : char) (b : str) (prev : list nat) (diag left : nat)
  : list nat :=
  match b, prev with
  | y :: b', up :: prev' =>
      let v := if chr_eqb x y then S diag else Nat.max up left in
      v :: lcs_row x b' prev' up v
  | _, _ => []
  end.

(** Length of a longest common subsequence. *)
Definition lcs (a b : str) : nat :=
  last (fold_left (fun row x => 0 :: lcs_row x b (tl row) 0 0) a
                  (repeat 0 (S (length b)))) 0.

Definition indel (a b : str) : nat := length a + length b - 2 * lcs a b.

(** [100 - 100 * dist / lensum] *)
Definition norm_sim (dist lensum : nat) : Q :=
  match lensum with
  | O => 100%Q
  | _ => Qred (Z.of_nat (100 * (lensum - dist)) # Pos.of_nat lensum)
  end.

Definition ratio (a b : str) : Q := norm_sim (indel a b) (length a + length b).

Definition qmax (x y : Q) : Q := if Qle_bool y x then x else y.

Definition windows (m : nat) (l : str) : list str :=
  map (fun k => firstn k l) (seq 1 (m - 1)) ++
  map (fun i => firstn m (skipn i l)) (seq 0 (length l)).

Definition partial_ratio_impl (a b : str) : Q :=
  let '(s, l) := if length a <=? length b then (a, b) else (b, a) in
  match s with
  | [] => match l with [] => 100%Q | _ => 0%Q end
  | _ => fold_left qmax (map (ratio s) (windows (length s) l)) 0%Q
  end.

Fixpoint str_ltb (a b : str) : bool :=
  match a, b with
  | _, [] => false
  | [], _ :: _ => true
  | x :: a', y :: b' => (x <? y)%N || (x =? y)%N && str_ltb a' b'
  end.

Fixpoint insert_sorted (x : str) (l : list str) : list str :=
  match l with
  | [] => [x]
  | y :: l' =>
      if str_eqb x y then l
      else if str_ltb x y then x :: l else y :: insert_sorted x l'
  end.

(** The sorted set of the whitespace-separated tokens. *)
Definition token_set (s : str) : list str :=
  fold_left (fun acc t => insert_sorted t acc) (split_ws s) [].

Definition token_set_ratio_impl (a b : str) : Q :=
  let ta := token_set a in
  let tb := token_set b in
  match ta, tb with
  | [], _ | _, [] => 0%Q
  | _, _ =>
      let sect := filter (fun t => mem str_eqb t tb) ta in
      let diff_ab := filter (fun t => negb (mem str_eqb t tb)) ta in
      let diff_ba := filter (fun t => negb (mem str_eqb t ta)) tb in
      if negb (is_nil sect) && (is_nil diff_ab || is_nil diff_ba) then 100%Q
      else
        let ab := join [space] diff_ab in
        let ba := join [space] diff_ba in
        let sect_len := length (join [space] sect) in
        let gap := if is_nil sect then 0 else 1 in
        let sect_ab_len := sect_len + gap + length ab in
        let sect_ba_len := sect_len + gap + length ba in
        let result := norm_sim (indel ab ba) (sect_ab_len + sect_ba_len) in
        if is_nil sect then result
        else
          qmax (qmax result
                     (norm_sim (gap + length ab) (sect_len + sect_ab_len)))
               (norm_sim (gap + length ba) (sect_len + sect_ba_len))
  end.

Definition fuzz : Scorers := {|
  token_set_ratio := token_set_ratio_impl;
  partial_ratio := partial_ratio_impl
|}.

(** *** Example corpora *)

Definition mk_cpe (u t v i ver : string) : CPE :=
  {| uri := lit u; title := Some (lit t); vendor := lit v;
     item_name := lit i; version := lit ver;
     start_version := None; end_version := None |}.

(** Two products of one vendor, both with the version ["-"]. *)
Definition cpe_z : CPE :=
  mk_cpe "cpe:2.3:a:acme:abcdefghiz:-:*:*:*:*:*:*:*" "abcdefghiz"
         "acme" "abcdefghiz" "-".
Definition cpe_j : CPE :=
  mk_cpe "cpe:2.3:a:acme:abcdefghij:-:*:*:*:*:*:*:*" "abcdefghij"
         "acme" "abcdefghij" "-".

(** A product with the version ["1.0"]. *)
Definition cpe_v : CPE :=
  mk_cpe "cpe:2.3:a:acme:abcdefghiz:1.0:*:*:*:*:*:*:*" "abcdefghiz"
         "acme" "abcdefghiz" "1.0".

Definition clf_zj (threshold n_max : Z) : CPEClassifier :=
  fit (new_classifier threshold n_max) [cpe_z; cpe_j].
Definition clf_jz (threshold n_max : Z) : CPEClassifier :=
  fit (new_classifier threshold n_max) [cpe_j; cpe_z].
Definition clf_v : CPEClassifier :=
  fit (new_classifier 80 10) [cpe_v].

(** *** Example vulnerability corpora *)

Import CVEData.

Definition cve_1 : CVE :=
  {| cve_id := lit "CVE-2021-0001";
     vulnerable_cpes := [cpe_z; cpe_j];
     vulnerable_cpe_configurations := [] |}.

Definition cve_2 : CVE :=
  {| cve_id := lit "CVE-2021-0002";
     vulnerable_cpes := [cpe_v];
     vulnerable_cpe_configurations :=
       [{| platform := cpe_v; cpes := [cpe_z; cpe_j] |}] |}.

Definition corpus_12 : CVEDataset :=
  new_dataset [(lit "CVE-2021-0001", cve_1); (lit "CVE-2021-0002", cve_2)].


(** U+05D0, the Hebrew letter alef, as a one-character key. *)
Definition alef : str := [1488%N].

(** What the case mappings of the Unicode Character Database do to the
    letters of the ASCII range, and that no lower-case mapping yields an
    upper-case ASCII letter. *)
Definition ascii_case_tables (U : UnicodeDB) : Prop :=
  (forall c, ascii_lower_letter c = true -> to_upper_full U c = [(c - 32)%N]) /\
  (forall c, ascii_upper_letter c = true -> to_upper_full U c = [c]) /\
  (forall c d, In d (to_lower_full U c) -> ascii_upper_letter d = false).

End Instances.

(* ================================================================== *)
(** ** Facts about the Python values                                   *)
(* ================================================================== *)

Module PyFacts.
Import Py.

Lemma str_eqb_spec (a b : str) : str_eqb a b = true <-> a = b.
Proof.
  revert b; induction a as [|x a IH]; intros [|y b]; simpl;
    try (split; [discriminate | discriminate]); try tauto.
  rewrite andb_true_iff, N.eqb_eq, IH. split.
  - intros [-> ->]; reflexivity.
  - intros H; inversion H; auto.
Qed.

Lemma str_eqb_refl (a : str) : str_eqb a a = true.
Proof. apply str_eqb_spec; reflexivity. Qed.

Lemma str_eqb_neq (a b : str) : str_eqb a b = false <-> a <> b.
Proof.
  split.
  - intros H E. apply str_eqb_spec in E. congruence.
  - intros H. destruct (str_eqb a b) eqn:E; [|reflexivity].
    apply str_eqb_spec in E. contradiction.
Qed.

Lemma pair_eqb_spec (p q : str * str) : pair_eqb p q = true <-> p = q.
Proof.
  destruct p as [a b], q as [c d]. unfold pair_eqb; simpl.
  rewrite andb_true_iff, !str_eqb_spec. split.
  - intros [-> ->]; reflexivity.
  - intros H; inversion H; auto.
Qed.

Lemma fold_left_invariant {A B} (P : B -> Prop) (f : B -> A -> B) l :
  forall b, P b -> (forall b a, In a l -> P b -> P (f b a)) ->
  P (fold_left f l b).
Proof.
  induction l as [|a l IH]; simpl; intros b Hb Hstep; [exact Hb|].
  apply IH; [apply Hstep; auto | intros; apply Hstep; auto].
Qed.

Section SetFacts.
Variable A : Type.
Variable eqb : A -> A -> bool.

Lemma set_add_incl s x y : In y (set_add eqb s x) -> In y s \/ y = x.
Proof.
  unfold set_add. destruct (mem eqb x s); [auto|].
  rewrite in_app_iff; simpl. intuition auto.
Qed.

Lemma set_add_keeps s x y : In y s -> In y (set_add eqb s x).
Proof.
  unfold set_add. destruct (mem eqb x s); [auto|].
  rewrite in_app_iff; auto.
Qed.

Lemma fold_set_add_incl l : forall s y,
  In y (fold_left (set_add eqb) l s) -> In y s \/ In y l.
Proof.
  induction l as [|a l IH]; simpl; intros s y H; [auto|].
  apply IH in H. destruct H as [H|H]; [|auto].
  apply set_add_incl in H. destruct H; subst; auto.
Qed.

Lemma set_of_list_incl l y : In y (set_of_list eqb l) -> In y l.
Proof.
  unfold set_of_list. intros H. apply fold_set_add_incl in H.
  destruct H as [[]|H]; exact H.
Qed.

Hypothesis eqb_spec : forall a b, eqb a b = true <-> a = b.

Lemma mem_In x s : mem eqb x s = true <-> In x s.
Proof.
  unfold mem. rewrite existsb_exists. split.
  - intros [y [Hy E]]. apply eqb_spec in E. subst; exact Hy.
  - intros H. exists x. split; [exact H | apply eqb_spec; reflexivity].
Qed.

Lemma set_add_In s x y : In y (set_add eqb s x) <-> In y s \/ y = x.
Proof.
  split; [apply set_add_incl|].
  intros [H | ->]; [apply set_add_keeps; exact H|].
  unfold set_add. destruct (mem eqb x s) eqn:E.
  - apply mem_In; exact E.
  - rewrite in_app_iff; simpl; auto.
Qed.

Lemma fold_set_add_In l : forall s y,
  In y (fold_left (set_add eqb) l s) <-> In y s \/ In y l.
Proof.
  induction l as [|a l IH]; simpl; intros s y; [tauto|].
  rewrite IH, set_add_In. intuition (subst; auto).
Qed.

Lemma set_of_list_In l y : In y (set_of_list eqb l) <-> In y l.
Proof. unfold set_of_list. rewrite fold_set_add_In. simpl; tauto. Qed.
End SetFacts.

Section DictFacts.
Variables K V : Type.
Variable eqb : K -> K -> bool.
Hypothesis eqb_spec : forall a b, eqb a b = true <-> a = b.

Lemma eqb_refl k : eqb k k = true.
Proof. apply eqb_spec; reflexivity. Qed.

Lemma dict_set_In k0 v0 (d : dict K V) k v :
  In (k, v) (dict_set eqb k0 v0 d) ->
  In (k, v) d \/ (k = k0 /\ v = v0).
Proof.
  induction d as [|[k' v'] d IH]; simpl.
  - intros [H|[]]; inversion H; auto.
  - destruct (eqb k0 k') eqn:E; simpl.
    + apply eqb_spec in E; subst k'.
      intros [H|H]; [inversion H; auto | auto].
    + intros [H|H]; [auto|]. apply IH in H. tauto.
Qed.

Lemma dict_adjust_In f k0 (d : dict K V) k v :
  In (k, v) (dict_adjust eqb f k0 d) ->
  In (k, v) d \/ (k = k0 /\ exists v', In (k, v') d /\ v = f v').
Proof.
  induction d as [|[k' v'] d IH]; simpl; [tauto|].
  destruct (eqb k0 k') eqn:E; simpl.
  - apply eqb_spec in E; subst k'.
    intros [H|H]; [inversion H; subst; right; eauto | auto].
  - intros [H|H]; [auto|]. apply IH in H.
    destruct H as [H | [-> [w [Hw ->]]]]; [auto|]. right; eauto.
Qed.

Lemma dict_del_In k0 (d : dict K V) kv :
  In kv (dict_del eqb k0 d) -> In kv d.
Proof.
  induction d as [|[k' v'] d IH]; simpl; [tauto|].
  destruct (eqb k0 k'); simpl; intuition.
Qed.

Lemma dict_get_In k (d : dict K V) v :
  dict_get eqb k d = Some v -> In (k, v) d.
Proof.
  induction d as [|[k' v'] d IH]; simpl; [discriminate|].
  destruct (eqb k k') eqn:E.
  - apply eqb_spec in E; subst. intros H; inversion H; auto.
  - auto.
Qed.

Lemma dict_get_set k0 v0 (d : dict K V) k :
  dict_get eqb k (dict_set eqb k0 v0 d) =
  if eqb k k0 then Some v0 else dict_get eqb k d.
Proof.
  induction d as [|[k' v'] d IH]; simpl; [reflexivity|].
  destruct (eqb k0 k') eqn:E; simpl.
  - apply eqb_spec in E; subst k'. destruct (eqb k k0); reflexivity.
  - destruct (eqb k k') eqn:E'; [|exact IH].
    apply eqb_spec in E'; subst k'.
    destruct (eqb k k0) eqn:E''; [|reflexivity].
    apply eqb_spec in E''; subst k0. rewrite eqb_refl in E. discriminate.
Qed.

Lemma dict_get_adjust f k0 (d : dict K V) k :
  dict_get eqb k (dict_adjust eqb f k0 d) =
  if eqb k k0 then option_map f (dict_get eqb k d) else dict_get eqb k d.
Proof.
  induction d as [|[k' v'] d IH]; simpl.
  - destruct (eqb k k0); reflexivity.
  - destruct (eqb k0 k') eqn:E; simpl.
    + apply eqb_spec in E; subst k'.
      destruct (eqb k k0); reflexivity.
    + destruct (eqb k k') eqn:E'; [|exact IH].
      apply eqb_spec in E'; subst k'.
      destruct (eqb k k0) eqn:E''; [|reflexivity].
      apply eqb_spec in E''; subst k0. rewrite eqb_refl in E. discriminate.
Qed.
End DictFacts.

End PyFacts.

(* ================================================================== *)
(** ** Properties of the identifier index                              *)
(* ================================================================== *)

Module IndexProofs.
Import Py CPEMatching PyFacts.

Lemma filter_short_cpes_In cpes cpe :
  In cpe (filter_short_cpes cpes) <-> In cpe cpes /\ 3 < length (item_name cpe).
Proof.
  unfold filter_short_cpes. rewrite filter_In, Nat.ltb_lt. tauto.
Qed.

(** The first pass of [build_lookup_structures]: every vendor key comes from
    a record of the list, and every set starts empty. *)
Lemma initial_versions_In (l : list CPE) v vs :
  In (v, vs)
     (fold_left (fun d x => dict_set str_eqb (vendor x) ([] : list str) d) l []) ->
  vs = [] /\ exists cpe, In cpe l /\ vendor cpe = v.
Proof.
  revert v vs.
  apply (fold_left_invariant
           (fun d : dict str (list str) =>
              forall v vs, In (v, vs) d ->
                vs = [] /\ exists cpe, In cpe l /\ vendor cpe = v)).
  - intros v vs [].
  - intros d x Hx IH v vs H.
    apply (dict_set_In _ str_eqb_spec) in H.
    destruct H as [H | [-> ->]]; [auto|]. split; [reflexivity | eauto].
Qed.

(** The loop of [build_lookup_structures] stores nothing but the records it
    iterates over, each under its own vendor and version. *)
Lemma add_to_lookups_invariant (l : list CPE) vtv0 :
  (forall v vs ver, In (v, vs) vtv0 -> ~ In ver vs) ->
  forall vtv vvc, fold_left add_to_lookups l (vtv0, []) = (vtv, vvc) ->
  (forall key s cpe, In (key, s) vvc -> In cpe s ->
     In cpe l /\ key = (vendor cpe, version cpe)) /\
  (forall v vs ver, In (v, vs) vtv -> In ver vs ->
     exists cpe, In cpe l /\ vendor cpe = v /\ version cpe = ver).
Proof.
  intros H0.
  pose (P := fun acc : dict str (list str) * dict (str * str) (list CPE) =>
    (forall key s cpe, In (key, s) (snd acc) -> In cpe s ->
       In cpe l /\ key = (vendor cpe, version cpe)) /\
    (forall v vs ver, In (v, vs) (fst acc) -> In ver vs ->
       exists cpe, In cpe l /\ vendor cpe = v /\ version cpe = ver)).
  assert (HP : P (fold_left add_to_lookups l (vtv0, []))).
  { apply fold_left_invariant.
    - split; simpl.
      + intros key s cpe [].
      + intros v vs ver H Hin. exfalso. exact (H0 _ _ _ H Hin).
    - intros [vtv vvc] x Hx [IH1 IH2]. unfold P, add_to_lookups; simpl. split.
      + intros key s cpe H Hin.
        destruct (dict_has pair_eqb (vendor x, version x) vvc).
        * apply (dict_adjust_In _ pair_eqb_spec) in H.
          destruct H as [H | [-> [s' [Hs' ->]]]]; [eauto|].
          apply set_add_incl in Hin. destruct Hin as [Hin | ->]; [eauto|].
          auto.
        * apply (dict_set_In _ pair_eqb_spec) in H.
          destruct H as [H | [-> ->]]; [eauto|].
          destruct Hin as [<- | []]. auto.
      + intros v vs ver H Hin.
        apply (dict_adjust_In _ str_eqb_spec) in H.
        destruct H as [H | [-> [s' [Hs' ->]]]]; [eauto|].
        apply set_add_incl in Hin. destruct Hin as [Hin | ->]; [eauto|].
        eauto. }
  intros vtv vvc E. rewrite E in HP. exact HP.
Qed.

(** C6: no identifier record whose [item_name] has length <= 3 reaches the
    index that [fit] builds.  Every record stored in
    [vendor_version_to_cpe_] is a record of the corpus whose [item_name] is
    longer than 3 characters, filed under its own vendor and version; every
    version in [vendor_to_versions_] and every vendor of [vendors_] is
    contributed by such a record. *)
Theorem fit_excludes_short_item_names (self : CPEClassifier) (X : list CPE) :
  (forall key s cpe,
     In (key, s) (vendor_version_to_cpe_ (fit self X)) -> In cpe s ->
     In cpe X /\ 3 < length (item_name cpe) /\
     key = (vendor cpe, version cpe)) /\
  (forall v vs ver,
     In (v, vs) (vendor_to_versions_ (fit self X)) -> In ver vs ->
     exists cpe, In cpe X /\ 3 < length (item_name cpe) /\
                 vendor cpe = v /\ version cpe = ver) /\
  (forall v,
     In v (vendors_ (fit self X)) ->
     exists cpe, In cpe X /\ 3 < length (item_name cpe) /\ vendor cpe = v).
Proof.
  unfold fit, build_lookup_structures.
  set (long := filter_short_cpes X).
  set (vtv0 := fold_left (fun d x => dict_set str_eqb (vendor x) [] d) long []).
  destruct (fold_left add_to_lookups long (vtv0, [])) as [vtv vvc] eqn:E.
  simpl.
  assert (H0 : forall v vs ver, In (v, vs) vtv0 -> ~ In ver vs).
  { intros v vs ver H. apply initial_versions_In in H.
    destruct H as [-> _]. intros []. }
  destruct (add_to_lookups_invariant long vtv0 H0 E) as [H1 H2].
  repeat split.
  - apply (H1 _ _ _ H) in H3. apply filter_short_cpes_In. tauto.
  - apply (H1 _ _ _ H) in H3. destruct H3 as [H3 _].
    apply filter_short_cpes_In in H3. tauto.
  - apply (H1 _ _ _ H) in H3. tauto.
  - intros v vs ver H Hin. destruct (H2 _ _ _ H Hin) as [cpe [Hc [Hv Hver]]].
    apply filter_short_cpes_In in Hc. exists cpe. tauto.
  - intros v H. apply set_of_list_incl in H.
    unfold dict_keys in H. apply in_map_iff in H.
    destruct H as [[v' vs] [Hv H]]. simpl in Hv; subst v'.
    apply initial_versions_In in H. destruct H as [_ [cpe [Hc Hv]]].
    apply filter_short_cpes_In in Hc. exists cpe. tauto.
Qed.

(** A record with a short [item_name] leaves the index as it is. *)
Lemma fit_ignores_short_record self (l1 l2 : list CPE) (cpe : CPE) :
  length (item_name cpe) <= 3 ->
  fit self (l1 ++ cpe :: l2) = fit self (l1 ++ l2).
Proof.
  intros H. unfold fit, build_lookup_structures, filter_short_cpes.
  rewrite !filter_app. simpl.
  destruct (3 <? length (item_name cpe)) eqn:E; [|reflexivity].
  apply Nat.ltb_lt in E. lia.
Qed.

End IndexProofs.

(* ================================================================== *)
(** ** Properties of the sanitizers                                    *)
(* ================================================================== *)

Module SanitizeProofs.
Import Py CPEMatching PyFacts Instances.

Section Sanitize.
Variable U : UnicodeDB.

Lemma lower_aux_fixed s : forall before,
  Forall (lower_fixed U) s -> lower_aux U before s = s.
Proof.
  induction s as [|c r IH]; simpl; intros before H; [reflexivity|].
  inversion H as [|? ? [Hc Hl] Hr]; subst.
  unfold chr_eqb. destruct (N.eqb_spec c capital_sigma) as [E|_]; [contradiction|].
  rewrite Hl, IH by assumption. reflexivity.
Qed.

Lemma handle_capital_sigma_cases before after :
  handle_capital_sigma U before after = small_sigma \/
  handle_capital_sigma U before after = small_final_sigma.
Proof.
  unfold handle_capital_sigma.
  destruct (skip_ignorable U before) as [|c ?]; [auto|].
  destruct (is_cased U c); [|auto].
  destruct (skip_ignorable U after) as [|c' ?]; [auto|].
  destruct (is_cased U c'); auto.
Qed.

Lemma lower_aux_is_fixed (HU : lowercase_stable U) s : forall before,
  Forall (lower_fixed U) (lower_aux U before s).
Proof.
  destruct HU as [Htab [Hs [Hfs _]]].
  induction s as [|c r IH]; simpl; intros before; [constructor|].
  apply Forall_app. split; [|apply IH].
  unfold chr_eqb. destruct (N.eqb_spec c capital_sigma) as [E|E].
  - constructor; [|constructor].
    destruct (handle_capital_sigma_cases before r) as [-> | ->]; assumption.
  - apply Forall_forall. intros d Hd. exact (Htab c d E Hd).
Qed.

(** Replacing a one-character string by the empty string deletes that
    character. *)
Lemma replace_char_filter c s :
  replace [c] [] s = filter (fun x => negb (chr_eqb c x)) s.
Proof.
  unfold replace.
  induction s as [|x r IH]; simpl; [reflexivity|].
  replace (startswith r []) with true by (destruct r; reflexivity).
  rewrite andb_true_r. destruct (chr_eqb c x); simpl; rewrite IH; reflexivity.
Qed.

Lemma discard_filter s :
  _discard_trademark_symbols s =
  filter (fun x => negb (chr_eqb trade_mark_sign x))
         (filter (fun x => negb (chr_eqb registered_sign x)) s).
Proof. unfold _discard_trademark_symbols. rewrite !replace_char_filter. reflexivity. Qed.

Lemma discard_Forall (P : char -> Prop) s :
  Forall P s -> Forall P (_discard_trademark_symbols s).
Proof.
  intros H. rewrite discard_filter. rewrite Forall_forall in *.
  intros x Hx. apply filter_In in Hx. destruct Hx as [Hx _].
  apply filter_In in Hx. apply H, Hx.
Qed.

Lemma discard_removes s : Forall not_trademark (_discard_trademark_symbols s).
Proof.
  rewrite discard_filter. apply Forall_forall. intros x Hx.
  apply filter_In in Hx. destruct Hx as [Hx Ht].
  apply filter_In in Hx. destruct Hx as [_ Hr].
  unfold chr_eqb in *. apply negb_true_iff, N.eqb_neq in Ht, Hr.
  split; congruence.
Qed.

Lemma filter_all (f : char -> bool) s :
  Forall (fun x => f x = true) s -> filter f s = s.
Proof.
  induction 1 as [|x r Hx _ IH]; simpl; [reflexivity|].
  rewrite Hx, IH. reflexivity.
Qed.

Lemma discard_nothing s :
  Forall not_trademark s -> _discard_trademark_symbols s = s.
Proof.
  intros H. rewrite discard_filter.
  rewrite (@filter_all (fun x => negb (chr_eqb registered_sign x)) s).
  - apply filter_all. eapply Forall_impl; [|exact H].
    intros x [_ Ht]. apply negb_true_iff, N.eqb_neq. congruence.
  - eapply Forall_impl; [|exact H].
    intros x [Hr _]. apply negb_true_iff, N.eqb_neq. congruence.
Qed.

Lemma fold_Forall (P : char -> Prop) s :
  P space -> Forall P s -> Forall P (_replace_special_chars_with_space U s).
Proof.
  intros Hsp H. unfold _replace_special_chars_with_space.
  induction H as [|x r Hx _ IH]; simpl; constructor; [|exact IH].
  destruct (is_word U x); assumption.
Qed.

Lemma fold_idempotent s :
  _replace_special_chars_with_space U (_replace_special_chars_with_space U s) =
  _replace_special_chars_with_space U s.
Proof.
  unfold _replace_special_chars_with_space. rewrite map_map.
  apply map_ext. intros c. destruct (is_word U c) eqn:E.
  - rewrite E. reflexivity.
  - destruct (is_word U space); reflexivity.
Qed.

(** C7: [_fully_sanitize_string] is idempotent, given that the
    interpreter's lower-case mapping is stable (it produces lower-case
    characters only). *)
Theorem fully_sanitize_idempotent :
  lowercase_stable U ->
  forall s,
    _fully_sanitize_string U (_fully_sanitize_string U s) =
    _fully_sanitize_string U s.
Proof.
  intros HU s. unfold _fully_sanitize_string at 1 3.
  set (t := _discard_trademark_symbols (lower U s)).
  assert (Hfix : Forall (lower_fixed U) (_replace_special_chars_with_space U t)).
  { apply fold_Forall; [apply HU|].
    apply discard_Forall. apply lower_aux_is_fixed. exact HU. }
  assert (Htm : Forall not_trademark (_replace_special_chars_with_space U t)).
  { apply fold_Forall; [split; discriminate | apply discard_removes]. }
  unfold _fully_sanitize_string. fold t.
  unfold lower at 1. rewrite (lower_aux_fixed _ Hfix).
  rewrite (discard_nothing Htm). apply fold_idempotent.
Qed.
End Sanitize.

(** The tables of [basic_db] are stable in the sense of
    [lowercase_stable]. *)
Lemma basic_db_lower_fixed c d :
  In d (to_lower_full basic_db c) -> c <> capital_sigma -> lower_fixed basic_db d.
Proof.
  unfold lower_fixed, capital_sigma. simpl.
  unfold ascii_upper_letter, in_range.
  destruct ((65 <=? c)%N && (c <=? 90)%N) eqn:E; intros [<- | []] Hc.
  - apply andb_true_iff in E. destruct E as [E1 E2].
    apply N.leb_le in E1, E2. split; [lia|].
    destruct ((65 <=? c + 32)%N && (c + 32 <=? 90)%N) eqn:E'; [|reflexivity].
    apply andb_true_iff in E'. destruct E' as [_ E'].
    apply N.leb_le in E'. lia.
  - split; [exact Hc|]. rewrite E. reflexivity.
Qed.

Lemma basic_db_stable : lowercase_stable basic_db.
Proof.
  split; [intros c d Hc Hd; exact (@basic_db_lower_fixed c d Hd Hc)|].
  repeat split; discriminate.
Qed.

(** The theorem at the tables [basic_db] and the string
    ["Red Hat(R) Linux 7.1"]. *)
Lemma fully_sanitize_idempotent_witness :
  lowercase_stable basic_db /\
  _fully_sanitize_string basic_db
    (_fully_sanitize_string basic_db (lit "Red Hat(R) Linux 7.1")) =
  _fully_sanitize_string basic_db (lit "Red Hat(R) Linux 7.1").
Proof.
  split; [exact basic_db_stable|].
  apply (fully_sanitize_idempotent basic_db_stable).
Defined.

End SanitizeProofs.

(* ================================================================== *)
(** ** The vendor resolver returns                                     *)
(* ================================================================== *)

Module VendorProofs.
Import Py CPEMatching PyFacts Instances.

Lemma lstrip_length s : length (lstrip s) <= length s.
Proof.
  induction s as [|c r IH]; simpl; [lia|].
  destruct (is_space c); simpl; lia.
Qed.

Lemma strip_length s : length (strip s) <= length s.
Proof.
  unfold strip, rstrip. rewrite length_rev.
  etransitivity; [apply lstrip_length|]. rewrite length_rev.
  apply lstrip_length.
Qed.

Lemma split_chr_aux_length sep s : forall cur p,
  In p (split_chr_aux sep cur s) -> length p <= length cur + length s.
Proof.
  induction s as [|c r IH]; simpl; intros cur p H.
  - destruct H as [<- | []]. rewrite length_rev. lia.
  - destruct (chr_eqb c sep).
    + destruct H as [<- | H]; [rewrite length_rev; lia|].
      apply IH in H. simpl in H. lia.
    + apply IH in H. simpl in H. lia.
Qed.

(** A piece of [s.split(sep)] is shorter than [s] when [sep] occurs in [s]. *)
Lemma split_chr_aux_shorter sep s : forall cur p,
  In sep s -> In p (split_chr_aux sep cur s) ->
  length p < length cur + length s.
Proof.
  induction s as [|c r IH]; simpl; intros cur p Hsep H; [contradiction|].
  unfold chr_eqb in *. destruct (N.eqb_spec c sep) as [E|E].
  - destruct H as [<- | H]; [rewrite length_rev; lia|].
    apply split_chr_aux_length in H. simpl in H. lia.
  - destruct Hsep as [Hsep|Hsep]; [contradiction|].
    apply (IH _ _ Hsep) in H. simpl in H. lia.
Qed.

(** The tokens of [s.split()], with one separator each, fit into [s]. *)
Lemma split_ws_aux_total s : forall cur,
  total_length (split_ws_aux cur s) <= S (length cur + length s).
Proof.
  induction s as [|c r IH]; simpl; intros cur.
  - destruct cur; simpl; [lia|]. rewrite length_app, length_rev. simpl. lia.
  - destruct (is_space c).
    + destruct cur as [|x cur]; simpl.
      * specialize (IH []). simpl in IH. lia.
      * specialize (IH []). simpl in IH.
        rewrite length_app, length_rev. simpl. lia.
    + specialize (IH (c :: cur)). simpl in IH. lia.
Qed.

Lemma join_length sep l : length sep = 1 -> length (join sep l) <= total_length l.
Proof.
  intros Hsep. induction l as [|x l IH]; simpl; [lia|].
  destruct l as [|y l]; [simpl; lia|].
  rewrite !length_app, Hsep. simpl in *. lia.
Qed.

Lemma bind_terminates {A B} (m : res A) (k : A -> res B) :
  terminates m -> (forall a, terminates (k a)) -> terminates (bind m k).
Proof.
  unfold terminates. destruct m; simpl; intros H Hk; [apply Hk | discriminate | congruence].
Qed.

Lemma mapM_terminates {A B} (f : A -> res B) l :
  (forall a, In a l -> terminates (f a)) -> terminates (mapM f l).
Proof.
  induction l as [|a l IH]; simpl; intros H; [discriminate|].
  apply bind_terminates; [apply H; auto|]. intros b.
  apply bind_terminates; [apply IH; auto | discriminate].
Qed.

Lemma find_separators_In sep m : In sep (find_separators m) -> In sep m.
Proof. unfold find_separators. rewrite filter_In. tauto. Qed.

(** Every token the separator branch recurses on is shorter than the
    vendor string. *)
Lemma vendor_tokens_shorter m splits x :
  (forall s, In s splits -> In s m) ->
  In x (set_of_list str_eqb (flat_map (fun s => map strip (split_chr s m)) splits)) ->
  length x < length m.
Proof.
  intros Hs H. apply set_of_list_incl in H. apply in_flat_map in H.
  destruct H as [sep [Hsep H]]. apply in_map_iff in H.
  destruct H as [p [<- Hp]]. unfold split_chr in Hp.
  apply (@split_chr_aux_shorter sep m [] p (Hs _ Hsep)) in Hp. simpl in Hp.
  pose proof (strip_length p). lia.
Qed.

Lemma rest_after_the_shorter m t0 rest :
  split_ws m = t0 :: rest -> str_eqb t0 (lit "the") = true ->
  length (join [space] rest) < length m.
Proof.
  intros E Ht. apply str_eqb_spec in Ht. subst t0.
  pose proof (split_ws_aux_total m []) as H. fold (split_ws m) in H.
  rewrite E in H. simpl in H.
  pose proof (@join_length [space] rest eq_refl). lia.
Qed.

(** With a budget above the length of the string the resolver never runs
    out of it. *)
Lemma get_candidate_list_of_vendors_fuel_terminates self : forall fuel m,
  length m < fuel ->
  terminates (get_candidate_list_of_vendors_fuel fuel self m).
Proof.
  induction fuel as [|fuel IH]; intros m Hlen; [lia|].
  simpl. destruct m as [|c m']; [discriminate|].
  set (m := c :: m') in *.
  destruct (find_separators m) as [|s0 ss] eqn:Es.
  - destruct (split_ws m) as [|t0 rest] eqn:Et; [discriminate|].
    destruct (str_eqb t0 (lit "the")) eqn:Ethe; [|discriminate].
    match goal with
    | |- terminates (match ?r with [] => _ | _ :: _ => _ end) => destruct r
    end; [|discriminate].
    apply bind_terminates; [|discriminate].
    apply IH. pose proof (rest_after_the_shorter m Et Ethe). lia.
  - apply bind_terminates; [|discriminate].
    apply mapM_terminates. intros x Hx. apply IH.
    assert (length x < length m); [|lia].
    apply (@vendor_tokens_shorter m (s0 :: ss) x); [|exact Hx].
    intros s Hs. apply find_separators_In. rewrite Es. exact Hs.
Qed.

(** [get_candidate_list_of_vendors] returns or raises for every classifier
    and every string. *)
Lemma get_candidate_list_of_vendors_terminates self m :
  terminates (get_candidate_list_of_vendors self m).
Proof.
  apply get_candidate_list_of_vendors_fuel_terminates. lia.
Qed.

Lemma whitespace_is_no_separator c : is_space c = true -> is_sep c = false.
Proof.
  unfold is_sep, chr_eqb. intros H.
  destruct (N.eqb_spec c 44) as [-> | _]; [discriminate H|].
  destruct (N.eqb_spec c 47) as [-> | _]; [discriminate H|].
  reflexivity.
Qed.

Lemma whitespace_has_no_tokens m :
  forallb is_space m = true -> split_ws m = [].
Proof.
  unfold split_ws. induction m as [|c r IH]; simpl; [reflexivity|].
  intros H. apply andb_true_iff in H. destruct H as [Hc Hr].
  rewrite Hc. apply IH, Hr.
Qed.

Lemma whitespace_has_no_separators m :
  forallb is_space m = true -> find_separators m = [].
Proof.
  unfold find_separators. induction m as [|c r IH]; simpl; [reflexivity|].
  intros H. apply andb_true_iff in H. destruct H as [Hc Hr].
  rewrite (whitespace_is_no_separator c Hc). apply IH, Hr.
Qed.

(** C8 (the code departs from it): a non-empty vendor string made of
    whitespace passes the guard [if not manufacturer], has no tokens, and
    [tokenized[0]] raises [IndexError]. *)
Theorem whitespace_only_vendor_raises (self : CPEClassifier) (m : str) :
  m <> [] -> forallb is_space m = true ->
  get_candidate_list_of_vendors self m = Raise IndexError.
Proof.
  intros Hne Hws. unfold get_candidate_list_of_vendors. simpl.
  destruct m as [|c r]; [contradiction|].
  rewrite (whitespace_has_no_separators _ Hws).
  rewrite (whitespace_has_no_tokens _ Hws). reflexivity.
Qed.

(** The theorem at the vendor string [" "]. *)
Lemma whitespace_only_vendor_raises_witness :
  get_candidate_list_of_vendors (clf_zj 80 10) (lit " ") = Raise IndexError.
Proof.
  apply whitespace_only_vendor_raises; [discriminate | reflexivity].
Defined.

(** The exception reaches the caller of [predict_single_cert]. *)
Lemma predict_single_cert_whitespace_vendor F self product_name versions relax :
  predict_single_cert basic_db F self (lit " ") product_name versions relax =
  Raise IndexError.
Proof. destruct relax; reflexivity. Qed.

End VendorProofs.

(* ================================================================== *)
(** ** Properties of the matcher                                       *)
(* ================================================================== *)

Module MatcherProofs.
Import Py CPEMatching PyFacts Instances VendorProofs.

Lemma mapM_ext {A B} (f g : A -> res B) l :
  (forall a, f a = g a) -> mapM f l = mapM g l.
Proof.
  intros H. induction l as [|a l IH]; simpl; [reflexivity|].
  rewrite H, IH. reflexivity.
Qed.

Lemma filterM_terminates {A} (f : A -> res bool) l :
  (forall a, terminates (f a)) -> terminates (filterM f l).
Proof.
  intros H. induction l as [|a l IH]; simpl; [discriminate|].
  apply bind_terminates; [apply H|]. intros b.
  apply bind_terminates; [apply IH | discriminate].
Qed.

Lemma slice_to_length {A} (n : Z) (l : list A) :
  (0 <= n)%Z -> (Z.of_nat (length (slice_to n l)) <= n)%Z.
Proof.
  intros Hn. unfold slice_to.
  destruct (0 <=? n)%Z eqn:E; [|apply Z.leb_gt in E; lia].
  pose proof (firstn_le_length (Z.to_nat n) l).
  rewrite length_firstn. lia.
Qed.

Lemma slice_to_all {A} (n : Z) (l : list A) :
  (Z.of_nat (length l) <= n)%Z -> slice_to n l = l.
Proof.
  intros Hn. unfold slice_to.
  destruct (0 <=? n)%Z eqn:E; [|apply Z.leb_gt in E; lia].
  apply firstn_all2. lia.
Qed.

Lemma firstn_incl {A} (k : nat) (l : list A) : incl (firstn k l) l.
Proof.
  intros x Hx. rewrite <- (firstn_skipn k l). apply in_or_app. left. exact Hx.
Qed.

Lemma slice_to_incl {A} (n : Z) (l : list A) : incl (slice_to n l) l.
Proof. unfold slice_to. destruct (0 <=? n)%Z; apply firstn_incl. Qed.

Section Matcher.
Variable U : UnicodeDB.
Variable F : Scorers.

(** One activation of [predict_single_cert]: a pass, then the retry or
    the return. *)
Lemma predict_single_cert_fuel_eq fuel self vendor product_name versions relax :
  predict_single_cert_fuel U F (S fuel) self vendor product_name versions relax =
  bind (scored_matches U F self vendor product_name versions
          (if negb relax then match_threshold self else 100%Z))
       (fun final_matches =>
          if relax && is_nil final_matches
          then predict_single_cert_fuel U F fuel self vendor product_name
                                        (Some [lit "-"]) false
          else Ret (uris_or_none (n_max_matches self) final_matches)).
Proof.
  unfold scored_matches, rated_candidates. simpl.
  destruct (get_candidate_list_of_vendors self _) as [cv| |]; simpl; try reflexivity.
  destruct (get_candidate_cpe_matches U self cv versions) as [cands| |]; simpl;
    try reflexivity.
  destruct (mapM _ cands) as [ratings| |]; simpl; reflexivity.
Qed.

(** The call with [relax_version=False] makes one pass, at the configured
    threshold. *)
Lemma predict_single_cert_strict self vendor product_name versions :
  predict_single_cert U F self vendor product_name versions false =
  bind (scored_matches U F self vendor product_name versions (match_threshold self))
       (fun final_matches =>
          Ret (uris_or_none (n_max_matches self) final_matches)).
Proof.
  unfold predict_single_cert. rewrite predict_single_cert_fuel_eq. reflexivity.
Qed.

Lemma predict_single_cert_fuel_strict fuel self vendor product_name versions :
  predict_single_cert_fuel U F (S fuel) self vendor product_name versions false =
  predict_single_cert U F self vendor product_name versions false.
Proof.
  unfold predict_single_cert. rewrite !predict_single_cert_fuel_eq. reflexivity.
Qed.

(** The two passes of a call with [relax_version=True], as line 68 sets
    their thresholds: the pass on the given versions filters by 100, the
    retry on ["-"] by [match_threshold]. *)
Lemma predict_single_cert_relaxed self vendor product_name versions :
  predict_single_cert U F self vendor product_name versions true =
  bind (scored_matches U F self vendor product_name versions 100%Z)
       (fun first =>
          match first with
          | [] => predict_single_cert U F self vendor product_name
                                      (Some [lit "-"]) false
          | _ => Ret (uris_or_none (n_max_matches self) first)
          end) /\
  predict_single_cert U F self vendor product_name (Some [lit "-"]) false =
  bind (scored_matches U F self vendor product_name (Some [lit "-"])
                       (match_threshold self))
       (fun second => Ret (uris_or_none (n_max_matches self) second)).
Proof.
  split; [|apply predict_single_cert_strict].
  unfold predict_single_cert at 1. rewrite predict_single_cert_fuel_eq. simpl.
  destruct (scored_matches U F self vendor product_name versions 100) as [fm| |];
    simpl; try reflexivity.
  destruct fm; [|reflexivity].
  exact (predict_single_cert_fuel_strict 0 self vendor product_name
                                         (Some [lit "-"])).
Qed.

(** *** Shape and size of the result *)

(** Whatever [predict_single_cert] returns is what one pass returns for
    its [final_matches]: the pass on the given versions, or, with
    [relax_version=True] and no candidate rated 100, the pass on ["-"]. *)
Lemma predict_single_cert_inv self vendor product_name versions relax r :
  predict_single_cert U F self vendor product_name versions relax = Ret r ->
  exists versions' threshold final_matches,
    scored_matches U F self vendor product_name versions' threshold =
      Ret final_matches /\
    r = uris_or_none (n_max_matches self) final_matches /\
    ((relax = false /\ versions' = versions /\
      threshold = match_threshold self) \/
     (relax = true /\ versions' = versions /\ threshold = 100%Z /\
      final_matches <> []) \/
     (relax = true /\ versions' = Some [lit "-"] /\
      threshold = match_threshold self /\
      scored_matches U F self vendor product_name versions 100%Z = Ret [])).
Proof.
  destruct relax.
  - destruct (predict_single_cert_relaxed self vendor product_name versions) as [E1 E2].
    rewrite E1.
    destruct (scored_matches U F self vendor product_name versions 100)
      as [first| |] eqn:Ef; simpl; try discriminate.
    destruct first as [|x first].
    + rewrite E2.
      destruct (scored_matches U F self vendor product_name (Some [lit "-"]) _)
        as [second| |] eqn:Es; simpl; try discriminate.
      intros H; inversion H; subst.
      exists (Some [lit "-"]), (match_threshold self), second. auto 10.
    + intros H; inversion H; subst.
      exists versions, 100%Z, (x :: first).
      repeat split; auto. right; left. repeat split; auto. discriminate.
  - rewrite predict_single_cert_strict.
    destruct (scored_matches U F self vendor product_name versions _)
      as [fm| |] eqn:Ef; simpl; try discriminate.
    intros H; inversion H; subst.
    exists versions, (match_threshold self), fm. auto 10.
Qed.

Lemma keep_rated_none (t : Z) (rated : list (Q * CPE)) :
  (forall x, In x rated -> (fst x < inject_Z t)%Q) ->
  filter (fun x => Qle_bool (inject_Z t) (fst x)) rated = [].
Proof.
  induction rated as [|x rated IH]; simpl; intros H; [reflexivity|].
  destruct (Qle_bool (inject_Z t) (fst x)) eqn:E.
  - apply Qle_bool_iff in E. exfalso.
    exact (Qlt_not_le _ _ (H x (or_introl eq_refl)) E).
  - apply IH. intros y Hy. apply H. right. exact Hy.
Qed.

(** C1 (the defect): on the pass with the caller's versions the configured
    [match_threshold] plays no part.  When none of the candidates of those
    versions is rated 100, all of them are dropped, whatever
    [match_threshold] is and however many of them are rated at or above
    it, and the answer is that of the retry on ["-"]; it is [None] when the
    index has no candidate for ["-"]. *)
Theorem first_pass_ignores_match_threshold
    self vendor product_name versions rated :
  rated_candidates U F self vendor product_name versions = Ret rated ->
  (forall x, In x rated -> (fst x < inject_Z 100)%Q) ->
  predict_single_cert U F self vendor product_name versions true =
    predict_single_cert U F self vendor product_name (Some [lit "-"]) false /\
  (rated_candidates U F self vendor product_name (Some [lit "-"]) = Ret [] ->
   predict_single_cert U F self vendor product_name versions true = Ret None).
Proof.
  intros Hr Hlow.
  assert (E : predict_single_cert U F self vendor product_name versions true =
              predict_single_cert U F self vendor product_name
                                  (Some [lit "-"]) false).
  { destruct (predict_single_cert_relaxed self vendor product_name versions)
      as [E1 _].
    rewrite E1. unfold scored_matches. rewrite Hr. simpl.
    rewrite (@keep_rated_none 100%Z rated Hlow). reflexivity. }
  split; [exact E|]. intros H0.
  rewrite E, predict_single_cert_strict. unfold scored_matches.
  rewrite H0. reflexivity.
Qed.

(** C2 (as the code has it): the list returned holds the uris of the
    first [n_max_matches] candidates (as [final_matches[:n_max_matches]]
    cuts them) among those the deciding pass keeps, in the order the
    candidates are enumerated, not sorted by score; the result is [None]
    exactly when that pass keeps no candidate.  The deciding pass is the
    pass on the given versions when [relax_version] is [False] or when
    that pass keeps a candidate, and the retry on ["-"] otherwise; each
    pass keeps the candidates rated at least the threshold line 68 gives
    it. *)
Theorem result_in_enumeration_order self vendor product_name versions relax r :
  predict_single_cert U F self vendor product_name versions relax = Ret r ->
  exists versions' threshold rated,
    rated_candidates U F self vendor product_name versions' = Ret rated /\
    let final_matches :=
      filter (fun x => Qle_bool (inject_Z threshold) (fst x)) rated in
    (final_matches = [] -> r = None) /\
    (final_matches <> [] ->
     r = Some (map (fun x => uri (snd x))
                   (slice_to (n_max_matches self) final_matches))) /\
    ((relax = false /\ versions' = versions /\
      threshold = match_threshold self) \/
     (relax = true /\ versions' = versions /\ threshold = 100%Z /\
      final_matches <> []) \/
     (relax = true /\ versions' = Some [lit "-"] /\
      threshold = match_threshold self /\
      scored_matches U F self vendor product_name versions 100%Z = Ret [])).
Proof.
  intros H. apply predict_single_cert_inv in H.
  destruct H as [vs' [thr [fm [Hs [-> Hpass]]]]].
  unfold scored_matches in Hs.
  destruct (rated_candidates U F self vendor product_name vs')
    as [rated| |] eqn:Er; simpl in Hs; try discriminate.
  inversion Hs; subst fm. exists vs', thr, rated.
  split; [exact Er|]. simpl. split; [|split].
  - intros ->. reflexivity.
  - intros Hne. unfold uris_or_none.
    destruct (filter _ rated); [contradiction | reflexivity].
  - exact Hpass.
Qed.

(** C9: the list returned has at most [n_max_matches] entries, for a cap
    that is not negative. *)
Theorem result_length_capped self vendor product_name versions relax l :
  (0 <= n_max_matches self)%Z ->
  predict_single_cert U F self vendor product_name versions relax =
    Ret (Some l) ->
  (Z.of_nat (length l) <= n_max_matches self)%Z.
Proof.
  intros Hn H. apply predict_single_cert_inv in H.
  destruct H as [vs' [thr [fm [_ [Hr _]]]]].
  unfold uris_or_none in Hr. destruct fm as [|x fm]; [discriminate|].
  inversion Hr; subst l. rewrite length_map. apply slice_to_length, Hn.
Qed.

(** Read on the uris: with [relax_version=True] a uri that is returned
    belongs to a candidate of the given versions rated at least 100, or, no
    such candidate existing, to a candidate of the versions ["-"] rated at
    least [match_threshold]. *)
Lemma returned_uri_is_rated self vendor product_name versions l u :
predict_single_cert U F self vendor product_name versions true = Ret (Some l) ->
In u l ->
exists versions' threshold rated q cpe,
  rated_candidates U F self vendor product_name versions' = Ret rated /\
  In (q, cpe) rated /\ (inject_Z threshold <= q)%Q /\ uri cpe = u /\
  ((versions' = versions /\ threshold = 100%Z) \/
   (versions' = Some [lit "-"] /\ threshold = match_threshold self /\
    scored_matches U F self vendor product_name versions 100%Z = Ret [])).
Proof.
intros H Hu. apply predict_single_cert_inv in H.
destruct H as [vs' [thr [fm [Hs [Hr Hpass]]]]].
unfold scored_matches in Hs.
destruct (rated_candidates U F self vendor product_name vs')
  as [rated| |] eqn:Er; simpl in Hs; try discriminate.
inversion Hs; subst fm. clear Hs.
unfold uris_or_none in Hr.
destruct (filter _ rated) as [|x fm] eqn:Ef; [discriminate|].
inversion Hr; subst l. clear Hr.
apply in_map_iff in Hu. destruct Hu as [[q cpe] [Hq Hin]].
apply slice_to_incl in Hin. rewrite <- Ef in Hin.
apply filter_In in Hin. destruct Hin as [Hin Hge]. simpl in Hge, Hq.
apply Qle_bool_iff in Hge.
exists vs', thr, rated, q, cpe. repeat split; try assumption.
destruct Hpass as [[Hf _] | [[_ [-> [-> _]]] | [_ [-> [-> H100]]]]];
  [discriminate | left | right]; auto.
Qed.

(** *** The threshold does not take part in the retrieval of candidates *)

Lemma get_candidate_list_of_vendors_fuel_with_threshold self t : forall fuel m,
  get_candidate_list_of_vendors_fuel fuel (with_threshold self t) m =
  get_candidate_list_of_vendors_fuel fuel self m.
Proof.
  induction fuel as [|fuel IH]; intros m; [reflexivity|].
  simpl. destruct m as [|c m']; [reflexivity|].
  destruct (find_separators (c :: m')); [|rewrite (mapM_ext _ _ _ IH); reflexivity].
  destruct (split_ws (c :: m')) as [|t0 rest]; [reflexivity|].
  rewrite IH. reflexivity.
Qed.

Lemma vendor_version_pairs_loop_with_threshold self t versions : forall vendors,
  vendor_version_pairs_loop U (with_threshold self t) vendors versions =
  vendor_version_pairs_loop U self vendors versions.
Proof.
  induction vendors as [|v vendors IH]; simpl; [reflexivity|].
  destruct (dict_get str_eqb v (vendor_to_versions_ self)); [|reflexivity].
  rewrite IH. reflexivity.
Qed.

Lemma rated_candidates_with_threshold self t vendor product_name versions :
  rated_candidates U F (with_threshold self t) vendor product_name versions =
  rated_candidates U F self vendor product_name versions.
Proof.
  unfold rated_candidates, get_candidate_list_of_vendors.
  rewrite get_candidate_list_of_vendors_fuel_with_threshold.
  destruct (get_candidate_list_of_vendors_fuel _ self _) as [cv| |];
    simpl; try reflexivity.
  unfold get_candidate_cpe_matches, get_candidate_vendor_version_pairs.
  destruct cv as [[|v vendors]|]; try reflexivity.
  rewrite vendor_version_pairs_loop_with_threshold. reflexivity.
Qed.

(** *** Raising the threshold *)

Lemma keep_rated_incl (t1 t2 : Z) (rated : list (Q * CPE)) :
  (t1 <= t2)%Z ->
  incl (filter (fun x => Qle_bool (inject_Z t2) (fst x)) rated)
       (filter (fun x => Qle_bool (inject_Z t1) (fst x)) rated).
Proof.
  intros Ht x Hx. apply filter_In in Hx. destruct Hx as [Hx Hq].
  apply filter_In. split; [exact Hx|].
  apply Qle_bool_iff in Hq. apply Qle_bool_iff.
  eapply Qle_trans; [|exact Hq]. rewrite <- Zle_Qle. exact Ht.
Qed.

Lemma slice_to_short {A} (n : Z) (l : list A) :
  (Z.of_nat (length (slice_to n l)) < n)%Z -> slice_to n l = l.
Proof.
  unfold slice_to. destruct (0 <=? n)%Z eqn:E.
  - rewrite length_firstn. intros H. apply firstn_all2. lia.
  - apply Z.leb_gt in E. lia.
Qed.

(** The strict call: what raising the threshold does to one pass. *)
Lemma strict_call_monotone self t1 t2 vendor product_name versions :
  (t1 <= t2)%Z ->
  let r1 := predict_single_cert U F (with_threshold self t1)
                                vendor product_name versions false in
  let r2 := predict_single_cert U F (with_threshold self t2)
                                vendor product_name versions false in
  (r1 = Ret None -> r2 = Ret None) /\
  (forall l2, r2 = Ret (Some l2) ->
     exists l1, r1 = Ret (Some l1) /\
       ((Z.of_nat (length l1) < n_max_matches self)%Z -> incl l2 l1)).
Proof.
  intros Ht. simpl. rewrite !predict_single_cert_strict. unfold scored_matches.
  rewrite !rated_candidates_with_threshold. simpl.
  destruct (rated_candidates U F self vendor product_name versions)
    as [rated| |]; simpl; [|split; [discriminate | intros; discriminate] ..].
  pose proof (keep_rated_incl rated Ht) as Hincl.
  set (f1 := filter (fun x => Qle_bool (inject_Z t1) (fst x)) rated) in *.
  set (f2 := filter (fun x => Qle_bool (inject_Z t2) (fst x)) rated) in *.
  unfold uris_or_none. split.
  - destruct f1 as [|x f1]; [|discriminate]. intros _.
    destruct f2 as [|y f2]; [reflexivity|].
    exfalso. exact (Hincl y (or_introl eq_refl)).
  - intros l2 H2. destruct f2 as [|y f2]; [discriminate|].
    destruct f1 as [|x f1]; [exfalso; exact (Hincl y (or_introl eq_refl))|].
    inversion H2; subst l2. eexists. split; [reflexivity|].
    rewrite length_map. intros Hshort. rewrite (@slice_to_short _ _ _ Hshort).
    intros u Hu. apply in_map_iff in Hu. destruct Hu as [z [<- Hz]].
    apply (in_map (fun x => uri (snd x))). apply Hincl.
    apply (@slice_to_incl _ _ _ _ Hz).
Qed.

(** C3 (as the code has it): for thresholds [t1 <= t2], a query that gets
    no match at [t1] gets none at [t2]; and when the list returned at
    [t1] has fewer than [n_max_matches] entries, so that the cap has not
    cut it, every uri returned at [t2] is returned at [t1]. *)
Theorem threshold_monotone_below_cap
    self t1 t2 vendor product_name versions relax :
  (t1 <= t2)%Z ->
  let r1 := predict_single_cert U F (with_threshold self t1)
                                vendor product_name versions relax in
  let r2 := predict_single_cert U F (with_threshold self t2)
                                vendor product_name versions relax in
  (r1 = Ret None -> r2 = Ret None) /\
  (forall l2, r2 = Ret (Some l2) ->
     exists l1, r1 = Ret (Some l1) /\
       ((Z.of_nat (length l1) < n_max_matches self)%Z -> incl l2 l1)).
Proof.
  intros Ht. destruct relax; [|apply strict_call_monotone; exact Ht].
  simpl.
  destruct (predict_single_cert_relaxed (with_threshold self t1)
                                vendor product_name versions) as [E1 _].
  destruct (predict_single_cert_relaxed (with_threshold self t2)
                                vendor product_name versions) as [E2 _].
  rewrite E1, E2. unfold scored_matches.
  rewrite !rated_candidates_with_threshold. simpl.
  destruct (rated_candidates U F self vendor product_name versions)
    as [rated| |]; simpl; [|split; [discriminate | intros; discriminate] ..].
  destruct (filter _ rated) as [|x first] eqn:Ef.
  - apply (strict_call_monotone self vendor product_name (Some [lit "-"]) Ht).
  - split; [discriminate|]. intros l2 H2. exists l2. split; [exact H2|].
    intros _. apply incl_refl.
Qed.

(** *** [predict_single_cert] returns or raises *)

Lemma vendor_version_pairs_loop_terminates self versions : forall vendors,
  terminates (vendor_version_pairs_loop U self vendors versions).
Proof.
  induction vendors as [|v vendors IH]; simpl; [discriminate|].
  destruct (dict_get str_eqb v (vendor_to_versions_ self)); [|discriminate].
  apply bind_terminates.
  - apply filterM_terminates. intros x.
    unfold is_cpe_version_among_cert_versions.
    destruct versions; discriminate.
  - intros matched. apply bind_terminates; [exact IH | discriminate].
Qed.

Lemma get_candidate_cpe_matches_terminates self vendors versions :
  terminates (get_candidate_cpe_matches U self vendors versions).
Proof.
  unfold get_candidate_cpe_matches, get_candidate_vendor_version_pairs.
  apply bind_terminates.
  - destruct vendors as [[|v vendors]|]; try discriminate.
    apply bind_terminates; [|discriminate].
    apply vendor_version_pairs_loop_terminates.
  - intros [[|p ps]|]; try discriminate.
    apply bind_terminates; [|discriminate].
    apply mapM_terminates. intros x _.
    destruct (dict_get pair_eqb x (vendor_version_to_cpe_ self)); discriminate.
Qed.

Lemma rated_candidates_terminates self vendor product_name versions :
  terminates (rated_candidates U F self vendor product_name versions).
Proof.
  unfold rated_candidates.
  apply bind_terminates; [apply get_candidate_list_of_vendors_terminates|].
  intros cv.
  apply bind_terminates; [apply get_candidate_cpe_matches_terminates|].
  intros cands. apply bind_terminates; [|discriminate].
  apply mapM_terminates. intros cpe _. unfold compute_best_match.
  destruct cv, versions; discriminate.
Qed.

(** The recursion budget of the model is never exhausted: the call
    returns a value or raises an exception. *)
Lemma predict_single_cert_terminates self vendor product_name versions relax :
  terminates (predict_single_cert U F self vendor product_name versions relax).
Proof.
  assert (Hstrict : forall vs,
    terminates (predict_single_cert U F self vendor product_name vs false)).
  { intros vs. rewrite predict_single_cert_strict. unfold scored_matches.
    apply bind_terminates; [|discriminate].
    apply bind_terminates; [apply rated_candidates_terminates | discriminate]. }
  destruct relax; [|apply Hstrict].
  destruct (predict_single_cert_relaxed self vendor product_name versions) as [E _].
  rewrite E. unfold scored_matches. apply bind_terminates.
  - apply bind_terminates; [apply rated_candidates_terminates | discriminate].
  - intros [|x first]; [apply Hstrict | discriminate].
Qed.

End Matcher.

(** *** The matcher on the example corpora

    The two products of [clf_zj] and [clf_jz] are filed under the same
    vendor and version, hence in one [set]; [clf_zj] enumerates it as
    [cpe_z], [cpe_j] and [clf_jz] as [cpe_j], [cpe_z], the two orders the
    interpreter can pick.  Against the product name ["abcdefghij"] the
    record [cpe_j] is rated 100 and [cpe_z] 1800/19 (94.7); against
    ["abcdefghiz"] it is the other way round. *)

(** The two passes at concrete queries.  A candidate rated 94.7 with the
    queried version is dropped by the first pass (the code filters it by
    100, the wording of the specification by the configured 80), and the
    retry on ["-"] keeps a candidate rated 94.7 (the code filters it by the
    configured 80, the wording by 100). *)
Lemma pass_thresholds_example :
  (scored_matches basic_db fuzz clf_v (lit "Acme") (lit "abcdefghij")
                  (Some [lit "1.0"]) (match_threshold clf_v) =
     Ret [((1800 # 19)%Q, cpe_v)] /\
   predict_single_cert basic_db fuzz clf_v (lit "Acme") (lit "abcdefghij")
                       (Some [lit "1.0"]) true = Ret None /\
   predict_as_specified basic_db fuzz clf_v (lit "Acme") (lit "abcdefghij")
                        (Some [lit "1.0"]) true = Ret (Some [uri cpe_v])) /\
  (predict_single_cert basic_db fuzz (clf_zj 80 10) (lit "Acme")
                       (lit "abcdefghij") (Some [lit "1.0"]) true =
     Ret (Some [uri cpe_z; uri cpe_j]) /\
   predict_as_specified basic_db fuzz (clf_zj 80 10) (lit "Acme")
                        (lit "abcdefghij") (Some [lit "1.0"]) true =
     Ret (Some [uri cpe_j])).
Proof. vm_compute. repeat split; reflexivity. Qed.

(** C2, as worded, fails: the match rated 94.7 is returned ahead of the one
    rated 100.  In whichever order the set is enumerated, one of the two
    product names gets a list that is not sorted by descending score. *)
Lemma ranking_counterexample :
  (rated_candidates basic_db fuzz (clf_zj 80 10) (lit "Acme")
                    (lit "abcdefghij") (Some [lit "-"]) =
     Ret [((1800 # 19)%Q, cpe_z); (100%Q, cpe_j)] /\
   predict_single_cert basic_db fuzz (clf_zj 80 10) (lit "Acme")
                       (lit "abcdefghij") (Some [lit "1.0"]) true =
     Ret (Some [uri cpe_z; uri cpe_j]) /\
   ranked_as_specified 10 [((1800 # 19)%Q, cpe_z); (100%Q, cpe_j)] =
     Some [uri cpe_j; uri cpe_z]) /\
  (rated_candidates basic_db fuzz (clf_jz 80 10) (lit "Acme")
                    (lit "abcdefghiz") (Some [lit "-"]) =
     Ret [((1800 # 19)%Q, cpe_j); (100%Q, cpe_z)] /\
   predict_single_cert basic_db fuzz (clf_jz 80 10) (lit "Acme")
                       (lit "abcdefghiz") (Some [lit "1.0"]) true =
     Ret (Some [uri cpe_j; uri cpe_z]) /\
   ranked_as_specified 10 [((1800 # 19)%Q, cpe_j); (100%Q, cpe_z)] =
     Some [uri cpe_z; uri cpe_j]).
Proof. vm_compute. repeat split; reflexivity. Qed.

(** C3, as worded, fails: with [n_max_matches = 1], raising the threshold
    from 80 to 100 replaces the uri returned by another one. *)
Lemma threshold_monotonicity_counterexample :
  (80 <= 100)%Z /\
  predict_single_cert basic_db fuzz (with_threshold (clf_zj 80 1) 80)
                      (lit "Acme") (lit "abcdefghij") (Some [lit "1.0"]) true =
    Ret (Some [uri cpe_z]) /\
  predict_single_cert basic_db fuzz (with_threshold (clf_zj 80 1) 100)
                      (lit "Acme") (lit "abcdefghij") (Some [lit "1.0"]) true =
    Ret (Some [uri cpe_j]) /\
  ~ incl [uri cpe_j] [uri cpe_z].
Proof.
  split; [lia|]. split; [vm_compute; reflexivity|].
  split; [vm_compute; reflexivity|].
  intros H. specialize (H (uri cpe_j) (or_introl eq_refl)).
  destruct H as [H | []]. vm_compute in H. discriminate H.
Qed.

(** The same classifier fitted with another threshold is [with_threshold]
    of it. *)
Lemma fit_with_threshold t t' n X :
  fit (new_classifier t' n) X = with_threshold (fit (new_classifier t n) X) t'.
Proof.
  unfold fit, build_lookup_structures, with_threshold. simpl.
  destruct (fold_left add_to_lookups _ _). reflexivity.
Qed.

(** [first_pass_ignores_match_threshold] at a classifier configured with
    the threshold 80 and a query whose only candidate is rated 94.7. *)
Lemma first_pass_ignores_match_threshold_witness :
  predict_single_cert basic_db fuzz clf_v (lit "Acme") (lit "abcdefghij")
                      (Some [lit "1.0"]) true =
    predict_single_cert basic_db fuzz clf_v (lit "Acme") (lit "abcdefghij")
                        (Some [lit "-"]) false /\
  (rated_candidates basic_db fuzz clf_v (lit "Acme") (lit "abcdefghij")
                    (Some [lit "-"]) = Ret [] ->
   predict_single_cert basic_db fuzz clf_v (lit "Acme") (lit "abcdefghij")
                       (Some [lit "1.0"]) true = Ret None).
Proof.
  apply (@first_pass_ignores_match_threshold basic_db fuzz clf_v
           (lit "Acme") (lit "abcdefghij") (Some [lit "1.0"])
           [((1800 # 19)%Q, cpe_v)]).
  - vm_compute. reflexivity.
  - intros x [<- | []]. vm_compute. reflexivity.
Defined.

(** [result_in_enumeration_order] at the second query of the examples. *)
Lemma result_in_enumeration_order_witness :
  exists versions' threshold rated,
    rated_candidates basic_db fuzz (clf_zj 80 10) (lit "Acme")
                     (lit "abcdefghij") versions' = Ret rated /\
    let final_matches :=
      filter (fun x => Qle_bool (inject_Z threshold) (fst x)) rated in
    (final_matches = [] -> Some [uri cpe_z; uri cpe_j] = None) /\
    (final_matches <> [] ->
     Some [uri cpe_z; uri cpe_j] =
     Some (map (fun x => uri (snd x))
               (slice_to (n_max_matches (clf_zj 80 10)) final_matches))) /\
    ((true = false /\ versions' = Some [lit "1.0"] /\
      threshold = match_threshold (clf_zj 80 10)) \/
     (true = true /\ versions' = Some [lit "1.0"] /\ threshold = 100%Z /\
      final_matches <> []) \/
     (true = true /\ versions' = Some [lit "-"] /\
      threshold = match_threshold (clf_zj 80 10) /\
      scored_matches basic_db fuzz (clf_zj 80 10) (lit "Acme")
                     (lit "abcdefghij") (Some [lit "1.0"]) 100%Z = Ret [])).
Proof.
  apply (@result_in_enumeration_order basic_db fuzz (clf_zj 80 10)
           (lit "Acme") (lit "abcdefghij") (Some [lit "1.0"]) true).
  vm_compute. reflexivity.
Defined.

(** [result_length_capped] at a cap of one. *)
Lemma result_length_capped_witness :
  (Z.of_nat (length [uri cpe_z]) <= n_max_matches (clf_zj 80 1))%Z.
Proof.
  apply (@result_length_capped basic_db fuzz (clf_zj 80 1)
           (lit "Acme") (lit "abcdefghij") (Some [lit "1.0"]) true).
  - vm_compute. discriminate.
  - vm_compute. reflexivity.
Defined.

(** [threshold_monotone_below_cap] at the thresholds 80 and 100 and a cap
    of ten. *)
Lemma threshold_monotone_below_cap_witness :
  let r1 := predict_single_cert basic_db fuzz (with_threshold (clf_zj 80 10) 80)
              (lit "Acme") (lit "abcdefghij") (Some [lit "1.0"]) true in
  let r2 := predict_single_cert basic_db fuzz (with_threshold (clf_zj 80 10) 100)
              (lit "Acme") (lit "abcdefghij") (Some [lit "1.0"]) true in
  (r1 = Ret None -> r2 = Ret None) /\
  (forall l2, r2 = Ret (Some l2) ->
     exists l1, r1 = Ret (Some l1) /\
       ((Z.of_nat (length l1) < n_max_matches (clf_zj 80 10))%Z -> incl l2 l1)).
Proof.
  apply (@threshold_monotone_below_cap basic_db fuzz (clf_zj 80 10) 80 100
           (lit "Acme") (lit "abcdefghij") (Some [lit "1.0"]) true).
  lia.
Defined.

End MatcherProofs.

(* ================================================================== *)
(** ** Properties of the vulnerability dataset                         *)
(* ================================================================== *)

Module DatasetProofs.
Import Py CPEMatching CVEData PyFacts Instances.

Section Indexing.
Variable U : UnicodeDB.

(** C10 (as the code has it): [__setitem__] files the value under
    [key.lower()], [__getitem__] looks for [item.upper()]; when the two
    differ and the upper-cased key is not in the corpus, reading back what
    was just written raises [KeyError]. *)
Theorem set_then_get_raises (d : CVEDataset) (k : str) (v : CVE) :
  upper U k <> lower U k ->
  dict_has str_eqb (upper U k) (cves d) = false ->
  __getitem__ U (__setitem__ U d k v) k = Raise KeyError.
Proof.
  intros Hne Hnew. unfold __getitem__, __setitem__. simpl.
  rewrite (dict_get_set _ str_eqb_spec).
  apply str_eqb_neq in Hne. rewrite Hne.
  unfold dict_has in Hnew.
  destruct (dict_get str_eqb (upper U k) (cves d)); [discriminate | reflexivity].
Qed.

(** A key without cased characters is read back. *)
Lemma set_then_get_same_case (d : CVEDataset) (k : str) (v : CVE) :
  upper U k = lower U k ->
  __getitem__ U (__setitem__ U d k v) k = Ret v.
Proof.
  intros He. unfold __getitem__, __setitem__. simpl.
  rewrite (dict_get_set _ str_eqb_spec), He, str_eqb_refl. reflexivity.
Qed.

Lemma lower_aux_no_ascii_upper (HU : ascii_case_tables U) s : forall before,
  Forall (fun d => ascii_upper_letter d = false) (lower_aux U before s).
Proof.
  destruct HU as [_ [_ Hlow]].
  induction s as [|c r IH]; simpl; intros before; [constructor|].
  apply Forall_app. split; [|apply IH].
  destruct (chr_eqb c capital_sigma).
  - constructor; [|constructor].
    unfold handle_capital_sigma.
    destruct (match skip_ignorable U before with [] => false | c0 :: _ => is_cased U c0 end);
      [|reflexivity].
    destruct (skip_ignorable U r) as [|c' ?]; [reflexivity|].
    destruct (is_cased U c'); reflexivity.
  - apply Forall_forall. intros d Hd. exact (Hlow c d Hd).
Qed.

(** A key with a letter of the ASCII range has different upper-case and
    lower-case forms: identifiers such as ["CVE-2021-0001"] are never read
    back through the indexing interface. *)
Lemma ascii_letter_key_cases_differ (k : str) (c : char) :
  ascii_case_tables U -> In c k ->
  ascii_upper_letter c || ascii_lower_letter c = true ->
  upper U k <> lower U k.
Proof.
  intros HU Hc Hl E.
  pose proof (lower_aux_no_ascii_upper HU k []) as Hlow.
  fold (lower U k) in Hlow. rewrite <- E in Hlow.
  rewrite Forall_forall in Hlow.
  destruct HU as [Hup1 [Hup2 _]].
  destruct (ascii_upper_letter c) eqn:Eu.
  - assert (Hin : In c (upper U k)).
    { unfold upper. apply in_flat_map. exists c. split; [exact Hc|].
      rewrite (Hup2 c Eu). left; reflexivity. }
    apply Hlow in Hin. congruence.
  - simpl in Hl.
    assert (Hin : In (c - 32)%N (upper U k)).
    { unfold upper. apply in_flat_map. exists c. split; [exact Hc|].
      rewrite (Hup1 c Hl). left; reflexivity. }
    apply Hlow in Hin.
    unfold ascii_lower_letter, ascii_upper_letter, in_range in *.
    apply andb_true_iff in Hl. destruct Hl as [H1 H2].
    apply N.leb_le in H1, H2.
    apply andb_false_iff in Hin. destruct Hin as [Hin|Hin];
      apply N.leb_gt in Hin; lia.
Qed.
End Indexing.

(** C10, as worded, fails for a key whose letters have no case: the Hebrew
    letter alef is a letter, its upper-case and lower-case forms are the
    letter itself, and the value written is read back. *)
Lemma caseless_letter_key_counterexample :
  hebrew_letter 1488 = true /\
  upper basic_db alef = alef /\ lower basic_db alef = alef /\
  dict_has str_eqb (upper basic_db alef) (cves (new_dataset [])) = false /\
  __getitem__ basic_db (__setitem__ basic_db (new_dataset []) alef cve_1) alef =
    Ret cve_1.
Proof. vm_compute. repeat split; reflexivity. Qed.

(** [set_then_get_raises] at the key ["cve-2021-0001"] and an empty
    corpus. *)
Lemma set_then_get_raises_witness :
  __getitem__ basic_db
    (__setitem__ basic_db (new_dataset []) (lit "cve-2021-0001") cve_1)
    (lit "cve-2021-0001") = Raise KeyError.
Proof.
  apply set_then_get_raises.
  - vm_compute. discriminate.
  - vm_compute. reflexivity.
Defined.

(** *** Pruning *)

Lemma typed_set_has_no_uri (S : list obj) (u : str) :
  forallb is_cpe_obj S = true -> mem obj_eqb (OStr u) S = false.
Proof.
  unfold mem. induction S as [|o S IH]; simpl; [reflexivity|].
  intros H. apply andb_true_iff in H. destruct H as [Ho HS].
  destruct o; [|discriminate]. simpl. apply IH, HS.
Qed.

(** A uri is never a member of a set of [CPE] objects, so with such a set
    no compound configuration passes the test of [filter_related_cpes]. *)
Lemma prune_typed_configurations (S : list obj) (cve : CVE) :
  forallb is_cpe_obj S = true ->
  vulnerable_cpe_configurations (prune S cve) = [].
Proof.
  intros HS. unfold prune. simpl.
  induction (vulnerable_cpe_configurations cve) as [|x l IH]; simpl; [reflexivity|].
  rewrite (@typed_set_has_no_uri S _ HS). simpl. exact IH.
Qed.






(** *** The lookup dictionary *)

Lemma dict_set_keys {V} k (v : V) (d : dict str V) :
  dict_keys (dict_set str_eqb k v d) =
  if dict_has str_eqb k d then dict_keys d else dict_keys d ++ [k].
Proof.
  unfold dict_has, dict_keys.
  induction d as [|[k' v'] d IH]; simpl; [reflexivity|].
  destruct (str_eqb k k') eqn:E; simpl; [reflexivity|].
  rewrite IH. destruct (dict_get str_eqb k d); reflexivity.
Qed.

Lemma dict_has_key {V} k (d : dict str V) :
  dict_has str_eqb k d = false -> ~ In k (dict_keys d).
Proof.
  unfold dict_has, dict_keys.
  induction d as [|[k' v'] d IH]; simpl; [tauto|].
  destruct (str_eqb k k') eqn:E; [discriminate|].
  intros H [Hk | Hk]; [|exact (IH H Hk)].
  subst k'. rewrite str_eqb_refl in E. discriminate.
Qed.

Lemma dict_set_NoDup {V} k (v : V) (d : dict str V) :
  NoDup (dict_keys d) -> NoDup (dict_keys (dict_set str_eqb k v d)).
Proof.
  intros H. rewrite dict_set_keys.
  destruct (dict_has str_eqb k d) eqn:E; [exact H|].
  apply NoDup_app; [exact H | constructor; [intros [] | constructor] |].
  intros x Hx [<- | []]. exact (dict_has_key _ _ E Hx).
Qed.

Lemma NoDup_keys_functional {V} (d : dict str V) k v v' :
  NoDup (dict_keys d) -> In (k, v) d -> In (k, v') d -> v = v'.
Proof.
  unfold dict_keys. induction d as [|[k0 v0] d IH]; simpl; [tauto|].
  intros Hnd H H'. inversion Hnd as [|? ? Hnotin Hnd']; subst.
  destruct H as [H | H], H' as [H' | H'].
  - congruence.
  - inversion H; subst. exfalso. apply Hnotin.
    apply (in_map fst) in H'. exact H'.
  - inversion H'; subst. exfalso. apply Hnotin.
    apply (in_map fst) in H. exact H.
  - exact (IH Hnd' H H').
Qed.

Section Lookup.
Variable U : UnicodeDB.

(** The corpus as [build_lookup_dict] files it again: every record under
    its upper-cased id, and no key twice. *)
Lemma rekeyed_corpus (l : list CVE) :
  let cves' := fold_left (fun d x => dict_set str_eqb (upper U (cve_id x)) x d)
                         l [] in
  NoDup (dict_keys cves') /\
  (forall k v, In (k, v) cves' -> k = upper U (cve_id v)).
Proof.
  simpl.
  apply (fold_left_invariant
           (fun d : dict str CVE =>
              NoDup (dict_keys d) /\
              (forall k v, In (k, v) d -> k = upper U (cve_id v)))).
  - split; [constructor | intros k v []].
  - intros d x _ [Hnd Hk]. split; [apply dict_set_NoDup, Hnd|].
    intros k v H. apply (dict_set_In _ str_eqb_spec) in H.
    destruct H as [H | [-> ->]]; [eauto | reflexivity].
Qed.

(** In the corpus [build_lookup_dict] leaves, the id determines the
    record. *)
Lemma built_ids_unique (d : CVEDataset) md (r r' : CVE) :
  In r (iter (build_lookup_dict U d md)) ->
  In r' (iter (build_lookup_dict U d md)) ->
  cve_id r = cve_id r' -> r = r'.
Proof.
  unfold iter, build_lookup_dict, dict_values. simpl.
  destruct (rekeyed_corpus (map snd (cves d))) as [Hnd Hk]. simpl in Hnd, Hk.
  intros H H' E.
  apply in_map_iff in H. destruct H as [[k v] [<- H]].
  apply in_map_iff in H'. destruct H' as [[k' v'] [<- H']].
  simpl in *. pose proof (Hk _ _ H). pose proof (Hk _ _ H'). subst k k'.
  rewrite E in H. exact (NoDup_keys_functional _ _ _ _ Hnd H H').
Qed.

End Lookup.

Section Resolution.
Variable U : UnicodeDB.

Lemma add_to_lookup_In (cve : CVE) lookup (cpe : CPE) u id :
  In id (lookup_get (add_to_lookup cve lookup cpe) u) <->
  In id (lookup_get lookup u) \/ (u = uri cpe /\ id = cve_id cve).
Proof.
  unfold add_to_lookup, lookup_get, dict_has.
  destruct (dict_get str_eqb (uri cpe) lookup) as [s|] eqn:E.
  - rewrite (dict_get_adjust _ str_eqb_spec).
    destruct (str_eqb u (uri cpe)) eqn:Eu.
    + apply str_eqb_spec in Eu. subst u. rewrite E. simpl.
      rewrite (@set_add_In _ _ str_eqb_spec). intuition.
    + apply str_eqb_neq in Eu. intuition.
  - rewrite (dict_get_set _ str_eqb_spec).
    destruct (str_eqb u (uri cpe)) eqn:Eu.
    + apply str_eqb_spec in Eu. subst u. rewrite E. simpl. intuition.
    + apply str_eqb_neq in Eu. intuition.
Qed.

Lemma add_all_to_lookup_In (cve : CVE) (l : list CPE) u id : forall lookup,
  In id (lookup_get (fold_left (add_to_lookup cve) l lookup) u) <->
  In id (lookup_get lookup u) \/
  (id = cve_id cve /\ exists cpe, In cpe l /\ uri cpe = u).
Proof.
  induction l as [|cpe l IH]; simpl; intros lookup.
  - split; [auto | intros [H | [_ [c [[] _]]]]; exact H].
  - rewrite IH, add_to_lookup_In. split.
    + intros [[H | [-> ->]] | [-> [c [Hc Hu]]]]; eauto 6.
    + intros [H | [-> [c [[<- | Hc] Hu]]]]; eauto 8.
Qed.

Lemma lookup_In (vc : CVE -> list CPE) (recs : list CVE) u id : forall lookup,
  In id (lookup_get
           (fold_left (fun lk cve => fold_left (add_to_lookup cve) (vc cve) lk)
                      recs lookup) u) <->
  In id (lookup_get lookup u) \/
  (exists r, In r recs /\ id = cve_id r /\ exists cpe, In cpe (vc r) /\ uri cpe = u).
Proof.
  induction recs as [|r recs IH]; simpl; intros lookup.
  - split; [auto | intros [H | [r [[] _]]]; exact H].
  - rewrite IH, add_all_to_lookup_In. split.
    + intros [[H | [-> Hc]] | [r' [Hr' H]]]; eauto 8.
    + intros [H | [r' [[<- | Hr'] [-> Hc]]]]; eauto 8.
Qed.

(** C5: after [build_lookup_dict(use_nist_mapping=False)], for a record
    of the corpus without compound configurations,
    [get_cves_from_matched_cpes({uri})] holds the id of the record exactly
    when its [vulnerable_cpes] hold an identifier with that uri. *)
Theorem exact_resolution (d : CVEDataset) (r : CVE) (u : str) :
  In r (iter (build_lookup_dict U d None)) ->
  vulnerable_cpe_configurations r = [] ->
  (In (cve_id r) (get_cves_from_matched_cpes (build_lookup_dict U d None) [u])
   <-> exists cpe, In cpe (vulnerable_cpes r) /\ uri cpe = u).
Proof.
  intros Hr Hnone.
  unfold get_cves_from_matched_cpes, _get_cves_from_exactly_matched_cpes,
    _get_cves_from_cpe_configurations, _get_cve_ids_for_cpe_uri.
  rewrite !(@set_of_list_In _ _ str_eqb_spec), in_app_iff,
    !(@set_of_list_In _ _ str_eqb_spec).
  simpl flat_map. rewrite app_nil_r.
  split.
  - intros [H | H].
    + unfold build_lookup_dict in H. simpl in H.
      apply lookup_In in H. destruct H as [[] | [r' [Hr' [E Hc]]]].
      assert (r = r') by (apply (@built_ids_unique U d None); assumption).
      subst r'. exact Hc.
    + apply in_map_iff in H. destruct H as [r' [E H]].
      apply filter_In in H. destruct H as [H _].
      unfold build_lookup_dict in H. simpl in H.
      unfold filter_cves_with_cpe_configurations in H.
      apply filter_In in H. destruct H as [Hr' Hcfg].
      assert (r = r') by (apply (@built_ids_unique U d None); auto).
      subst r'. rewrite Hnone in Hcfg. discriminate.
  - intros Hc. left. unfold build_lookup_dict. simpl.
    apply lookup_In. right. exists r. repeat split; assumption.
Qed.
End Resolution.

(** [exact_resolution] at the example corpus, the record [cve_1] and the
    uri of [cpe_z]. *)
Lemma exact_resolution_witness :
  In (cve_id cve_1)
     (get_cves_from_matched_cpes (build_lookup_dict basic_db corpus_12 None)
                                 [uri cpe_z])
  <-> exists cpe, In cpe (vulnerable_cpes cve_1) /\ uri cpe = uri cpe_z.
Proof.
  apply (@exact_resolution basic_db corpus_12 cve_1 (uri cpe_z)).
  - vm_compute. left. reflexivity.
  - reflexivity.
Defined.

End DatasetProofs.

(* ================================================================== *)
(** ** The vendor resolver, branch by branch                           *)
(* ================================================================== *)

Module ResolverProofs.
Import Py CPEMatching PyFacts Instances VendorProofs.

Lemma resolver_fuel_empty fuel self :
  get_candidate_list_of_vendors_fuel (S fuel) self [] = Ret None.
Proof. reflexivity. Qed.

(** The branch with separators. *)
Lemma resolver_fuel_separators fuel self m :
  find_separators m <> [] ->
  get_candidate_list_of_vendors_fuel (S fuel) self m =
  bind (mapM (get_candidate_list_of_vendors_fuel fuel self) (vendor_tokens m))
       (fun result => Ret (none_if_empty (unions result))).
Proof.
  intros H. unfold vendor_tokens. simpl.
  destruct m as [|c m']; [exfalso; apply H; reflexivity|].
  destruct (find_separators (c :: m')); [contradiction | reflexivity].
Qed.

(** The branch without separators, for a string that has tokens. *)
Lemma resolver_fuel_tokens fuel self m t0 rest :
  find_separators m = [] -> split_ws m = t0 :: rest ->
  get_candidate_list_of_vendors_fuel (S fuel) self m =
  match str_eqb t0 (lit "the"), direct_matches self m t0 rest with
  | true, [] =>
      bind (get_candidate_list_of_vendors_fuel fuel self (join [space] rest))
           (fun r => Ret (match r with
                          | Some ((_ :: _) as l) => Some l
                          | _ => None
                          end))
  | _, _ => Ret (none_if_empty (direct_matches self m t0 rest))
  end.
Proof.
  intros Hs Ht. simpl.
  destruct m as [|c m']; [discriminate Ht|].
  rewrite Hs, Ht. reflexivity.
Qed.

(** The branch without separators, for a string that has no token. *)
Lemma resolver_fuel_no_tokens fuel self m :
  m <> [] -> find_separators m = [] -> split_ws m = [] ->
  get_candidate_list_of_vendors_fuel (S fuel) self m = Raise IndexError.
Proof.
  intros Hm Hs Ht. simpl.
  destruct m as [|c m']; [contradiction|].
  rewrite Hs, Ht. reflexivity.
Qed.

Lemma mapM_ext_in {A B} (f g : A -> res B) l :
  (forall a, In a l -> f a = g a) -> mapM f l = mapM g l.
Proof.
  induction l as [|a l IH]; simpl; intros H; [reflexivity|].
  rewrite (H a (or_introl eq_refl)), IH; [reflexivity|].
  intros b Hb. apply H. right. exact Hb.
Qed.

Lemma mapM_In {A B} (f : A -> res B) l : forall bs b,
  mapM f l = Ret bs -> In b bs -> exists a, In a l /\ f a = Ret b.
Proof.
  induction l as [|a l IH]; simpl; intros bs b H Hb.
  - inversion H; subst. contradiction.
  - destruct (f a) as [b0| |] eqn:Ea; simpl in H; try discriminate.
    destruct (mapM f l) as [bs0| |] eqn:El; simpl in H; try discriminate.
    inversion H; subst. destruct Hb as [<- | Hb]; [eauto|].
    destruct (IH _ _ eq_refl Hb) as [a' [Ha' Hf]]. eauto.
Qed.

Lemma mapM_In_back {A B} (f : A -> res B) l : forall bs a,
  mapM f l = Ret bs -> In a l -> exists b, In b bs /\ f a = Ret b.
Proof.
  induction l as [|a0 l IH]; simpl; intros bs a H Ha; [contradiction|].
  destruct (f a0) as [b0| |] eqn:Ea; simpl in H; try discriminate.
  destruct (mapM f l) as [bs0| |] eqn:El; simpl in H; try discriminate.
  inversion H; subst. destruct Ha as [<- | Ha]; [eauto using in_eq|].
  destruct (IH _ _ eq_refl Ha) as [b [Hb Hf]]. eauto using in_cons.
Qed.

Lemma mapM_returns {A B} (f : A -> res B) (P : B -> Prop) l :
  (forall a, In a l -> exists b, f a = Ret b /\ P b) ->
  exists bs, mapM f l = Ret bs /\ Forall P bs.
Proof.
  induction l as [|a l IH]; simpl; intros H; [eauto|].
  destruct (H a (or_introl eq_refl)) as [b [Hb HP]]. rewrite Hb. simpl.
  destruct IH as [bs [Hbs HPs]]; [intros; apply H; auto|].
  rewrite Hbs. simpl. eauto.
Qed.

Lemma vendor_tokens_length m x :
  In x (vendor_tokens m) -> length x < length m.
Proof.
  unfold vendor_tokens. apply vendor_tokens_shorter.
  intros s. apply find_separators_In.
Qed.

(** Any budget above the length of the string gives the same outcome. *)
Lemma resolver_fuel_irrelevant self : forall fuel1 fuel2 m,
  length m < fuel1 -> length m < fuel2 ->
  get_candidate_list_of_vendors_fuel fuel1 self m =
  get_candidate_list_of_vendors_fuel fuel2 self m.
Proof.
  induction fuel1 as [|fuel1 IH]; intros [|fuel2] m H1 H2; try lia.
  destruct m as [|c m']; [reflexivity|].
  set (m := c :: m') in *.
  destruct (find_separators m) as [|s0 ss] eqn:Es.
  - destruct (split_ws m) as [|t0 rest] eqn:Et.
    + rewrite !(@resolver_fuel_no_tokens _ self m); auto; discriminate.
    + rewrite !(@resolver_fuel_tokens _ self m t0 rest Es Et).
      destruct (str_eqb t0 (lit "the")) eqn:Ethe; [|reflexivity].
      destruct (direct_matches self m t0 rest); [|reflexivity].
      pose proof (rest_after_the_shorter m Et Ethe).
      rewrite (IH fuel2); [reflexivity | lia | lia].
  - assert (Hne : find_separators m <> []) by (rewrite Es; discriminate).
    rewrite !(@resolver_fuel_separators _ self m Hne).
    rewrite (mapM_ext_in (get_candidate_list_of_vendors_fuel fuel1 self)
                         (get_candidate_list_of_vendors_fuel fuel2 self));
      [reflexivity|].
    intros x Hx. apply vendor_tokens_length in Hx. apply IH; lia.
Qed.

(** The recursion equations of [get_candidate_list_of_vendors]. *)
Lemma resolver_separators self m :
  find_separators m <> [] ->
  get_candidate_list_of_vendors self m =
  bind (mapM (get_candidate_list_of_vendors self) (vendor_tokens m))
       (fun result => Ret (none_if_empty (unions result))).
Proof.
  intros H. unfold get_candidate_list_of_vendors at 1.
  rewrite (@resolver_fuel_separators _ self m H).
  rewrite (mapM_ext_in (get_candidate_list_of_vendors_fuel (length m) self)
                       (get_candidate_list_of_vendors self)); [reflexivity|].
  intros x Hx. apply vendor_tokens_length in Hx.
  apply resolver_fuel_irrelevant; lia.
Qed.

Lemma resolver_tokens self m t0 rest :
  find_separators m = [] -> split_ws m = t0 :: rest ->
  get_candidate_list_of_vendors self m =
  match str_eqb t0 (lit "the"), direct_matches self m t0 rest with
  | true, [] =>
      bind (get_candidate_list_of_vendors self (join [space] rest))
           (fun r => Ret (match r with
                          | Some ((_ :: _) as l) => Some l
                          | _ => None
                          end))
  | _, _ => Ret (none_if_empty (direct_matches self m t0 rest))
  end.
Proof.
  intros Hs Ht. unfold get_candidate_list_of_vendors at 1.
  rewrite (@resolver_fuel_tokens _ self m t0 rest Hs Ht).
  destruct (str_eqb t0 (lit "the")) eqn:Ethe; [|reflexivity].
  destruct (direct_matches self m t0 rest); [|reflexivity].
  pose proof (rest_after_the_shorter m Ht Ethe).
  unfold get_candidate_list_of_vendors.
  rewrite (@resolver_fuel_irrelevant self (length m) (S (length (join [space] rest)))
             (join [space] rest));
    [reflexivity | lia | lia].
Qed.

(** *** Stripping and tokenizing *)

Lemma lstrip_head s :
  match lstrip s with [] => True | c :: _ => is_space c = false end.
Proof.
  induction s as [|c r IH]; simpl; [exact I|].
  destruct (is_space c) eqn:E; [exact IH | exact E].
Qed.

Lemma blank_rev s : blank (rev s) = blank s.
Proof.
  unfold blank. induction s as [|c r IH]; simpl; [reflexivity|].
  rewrite forallb_app, IH. simpl. rewrite andb_true_r. apply andb_comm.
Qed.

(** [s.strip()] is empty or has a character that is not whitespace. *)
Lemma strip_not_blank s : strip s = [] \/ blank (strip s) = false.
Proof.
  unfold strip, rstrip.
  pose proof (lstrip_head (rev (lstrip s))) as H.
  destruct (lstrip (rev (lstrip s))) as [|c t]; [left; reflexivity|].
  right. rewrite blank_rev. simpl. rewrite H. reflexivity.
Qed.

Lemma split_ws_aux_not_nil s : forall cur,
  cur <> [] \/ blank s = false -> split_ws_aux cur s <> [].
Proof.
  induction s as [|c r IH]; simpl; intros cur H.
  - destruct cur; [destruct H as [H|H]; [contradiction | discriminate] | discriminate].
  - destruct (is_space c) eqn:E.
    + destruct cur; [|discriminate]. apply IH.
      destruct H as [H|H]; [contradiction | right; exact H].
    + apply IH. left. discriminate.
Qed.

Lemma split_ws_not_nil s : blank s = false -> split_ws s <> [].
Proof. intros H. apply split_ws_aux_not_nil. right. exact H. Qed.

(** The tokens of [s.split()] are not empty and hold no whitespace. *)
Lemma split_ws_aux_tokens s : forall cur,
  forallb (fun c => negb (is_space c)) cur = true ->
  Forall (fun t => t <> [] /\ forallb (fun c => negb (is_space c)) t = true)
         (split_ws_aux cur s).
Proof.
  assert (Hrev : forall cur, cur <> [] ->
            forallb (fun c => negb (is_space c)) cur = true ->
            rev cur <> [] /\ forallb (fun c => negb (is_space c)) (rev cur) = true).
  { intros cur Hne Hc. split.
    - intros E. apply Hne. rewrite <- (rev_involutive cur), E. reflexivity.
    - apply forallb_forall. intros x Hx. apply in_rev in Hx.
      rewrite forallb_forall in Hc. apply Hc, Hx. }
  induction s as [|c r IH]; simpl; intros cur Hc.
  - destruct cur as [|x cur]; [constructor|].
    constructor; [apply Hrev; [discriminate | exact Hc] | constructor].
  - destruct (is_space c) eqn:E.
    + destruct cur as [|x cur]; [apply IH; reflexivity|].
      constructor; [apply Hrev; [discriminate | exact Hc] | apply IH; reflexivity].
    + apply IH. simpl. rewrite E. exact Hc.
Qed.

Lemma join_tokens_not_blank (rest : list str) :
  Forall (fun t => t <> [] /\ forallb (fun c => negb (is_space c)) t = true) rest ->
  join [space] rest = [] \/ blank (join [space] rest) = false.
Proof.
  intros H. destruct H as [|t rest [Hne Ht] _]; [left; reflexivity|].
  right. destruct t as [|c t]; [contradiction|].
  simpl in Ht. apply andb_true_iff in Ht. destruct Ht as [Hc _].
  apply negb_true_iff in Hc.
  destruct rest; simpl; rewrite Hc; reflexivity.
Qed.

(** *** Sets of vendor keys have no duplicates *)

Lemma set_add_NoDup (s : list str) x : NoDup s -> NoDup (set_add str_eqb s x).
Proof.
  intros H. unfold set_add. destruct (mem str_eqb x s) eqn:E; [exact H|].
  apply NoDup_app; [exact H | constructor; [intros [] | constructor] |].
  intros y Hy [<- | []].
  apply (@mem_In _ _ str_eqb_spec) in Hy. congruence.
Qed.

Lemma set_of_list_NoDup (l : list str) : NoDup (set_of_list str_eqb l).
Proof.
  unfold set_of_list.
  apply (fold_left_invariant (fun s : list str => NoDup s)); [constructor|].
  intros s x _ Hs. apply set_add_NoDup, Hs.
Qed.

Lemma add_if_NoDup b x s : NoDup s -> NoDup (add_if b x s).
Proof. unfold add_if. destruct b; [apply set_add_NoDup | auto]. Qed.

Lemma add_if_In b x s v :
  In v (add_if b x s) <-> In v s \/ (b = true /\ v = x).
Proof.
  unfold add_if. destruct b.
  - rewrite (@set_add_In _ _ str_eqb_spec). intuition.
  - intuition discriminate.
Qed.

Lemma direct_matches_NoDup self m t0 rest : NoDup (direct_matches self m t0 rest).
Proof.
  unfold direct_matches. repeat apply add_if_NoDup.
  destruct rest; repeat apply add_if_NoDup; constructor.
Qed.

(** *** What the resolver returns *)

Lemma vendor_tokens_stripped m x :
  In x (vendor_tokens m) -> exists p, x = strip p.
Proof.
  unfold vendor_tokens. intros H. apply set_of_list_incl in H.
  apply in_flat_map in H. destruct H as [sep [_ H]].
  apply in_map_iff in H. destruct H as [p [<- _]]. eauto.
Qed.

Lemma resolver_outcome self : forall n m,
  length m < n -> m = [] \/ blank m = false ->
  exists r, get_candidate_list_of_vendors self m = Ret r /\
            (forall l, r = Some l -> l <> [] /\ NoDup l).
Proof.
  induction n as [|n IH]; intros m Hlen Hm; [lia|].
  destruct m as [|c m'].
  { exists None. split; [reflexivity | discriminate]. }
  destruct Hm as [Hm|Hm]; [discriminate|].
  set (m := c :: m') in *.
  destruct (find_separators m) as [|s0 ss] eqn:Es.
  - destruct (split_ws m) as [|t0 rest] eqn:Et;
      [exfalso; exact (split_ws_not_nil m Hm Et)|].
    rewrite (@resolver_tokens self m t0 rest Es Et).
    destruct (str_eqb t0 (lit "the")) eqn:Ethe;
      [destruct (direct_matches self m t0 rest) as [|d dm] eqn:Ed|].
    + pose proof (rest_after_the_shorter m Et Ethe) as Hshort.
      pose proof (split_ws_aux_tokens m [] eq_refl) as Htok.
      fold (split_ws m) in Htok. rewrite Et in Htok.
      inversion Htok as [|? ? _ Hrest]; subst.
      destruct (IH (join [space] rest)) as [r [Hr Hl]];
        [lia | apply join_tokens_not_blank, Hrest |].
      rewrite Hr. simpl. eexists. split; [reflexivity|].
      intros l E. destruct r as [[|x r]|]; try discriminate.
      inversion E; subst. apply Hl. reflexivity.
    + eexists. split; [reflexivity|]. simpl. intros l E. inversion E; subst.
      split; [discriminate|]. rewrite <- Ed. apply direct_matches_NoDup.
    + eexists. split; [reflexivity|]. intros l E.
      pose proof (direct_matches_NoDup self m t0 rest) as Hnd.
      destruct (direct_matches self m t0 rest); [discriminate|].
      inversion E; subst. split; [discriminate | exact Hnd].
  - assert (Hne : find_separators m <> []) by (rewrite Es; discriminate).
    rewrite (@resolver_separators self m Hne).
    destruct (@mapM_returns _ _ (get_candidate_list_of_vendors self)
                (fun _ => True) (vendor_tokens m)) as [bs [Hbs _]].
    { intros x Hx. pose proof (vendor_tokens_length _ _ Hx).
      destruct (vendor_tokens_stripped _ _ Hx) as [p ->].
      destruct (IH (strip p)) as [r [Hr _]]; [lia | apply strip_not_blank |].
      eauto. }
    rewrite Hbs. simpl. eexists. split; [reflexivity|]. intros l E.
    pose proof (set_of_list_NoDup
      (flat_map (fun x => match x with Some l0 => l0 | None => [] end) bs)) as Hnd.
    unfold unions in E.
    destruct (set_of_list str_eqb _); [discriminate|].
    inversion E; subst. split; [discriminate | exact Hnd].
Qed.

(** For every string that is not made of whitespace only the resolver
    returns, and what it returns is [None] or a list that is not empty and
    names no vendor twice. *)
Theorem resolver_returns_unless_blank self m :
  m = [] \/ blank m = false ->
  exists r, get_candidate_list_of_vendors self m = Ret r /\
            (forall l, r = Some l -> l <> [] /\ NoDup l).
Proof. intros H. apply (@resolver_outcome self (S (length m))); [lia | exact H]. Qed.

(** [resolver_returns_unless_blank] at the string ["the acme, hewlett packard"]. *)
Lemma resolver_returns_unless_blank_witness :
  exists r, get_candidate_list_of_vendors (clf_zj 80 10)
              (lit "the acme, hewlett packard") = Ret r /\
            (forall l, r = Some l -> l <> [] /\ NoDup l).
Proof.
  apply resolver_returns_unless_blank. right. reflexivity.
Defined.

Lemma direct_matches_known self m t0 rest v :
  In v (direct_matches self m t0 rest) ->
  In v (vendors_ self) \/ In v manual_fixes.
Proof.
  unfold direct_matches, manual_fixes. intros H.
  repeat (apply add_if_In in H; destruct H as [H | [_ ->]];
          [|right; simpl; tauto]).
  assert (Hbase : In v (add_if (mem str_eqb t0 (vendors_ self)) t0
                     (add_if (mem str_eqb m (vendors_ self)) m [])) ->
                  In v (vendors_ self)).
  { intros H'. apply add_if_In in H'. destruct H' as [H' | [Hb ->]];
      [|apply (@mem_In _ _ str_eqb_spec); exact Hb].
    apply add_if_In in H'. destruct H' as [[] | [Hb ->]].
    apply (@mem_In _ _ str_eqb_spec); exact Hb. }
  left. destruct rest as [|t1 rest]; [exact (Hbase H)|].
  apply add_if_In in H. destruct H as [H | [Hb ->]]; [exact (Hbase H)|].
  apply (@mem_In _ _ str_eqb_spec); exact Hb.
Qed.

Lemma unions_In (bs : list (option (list str))) v :
  In v (unions bs) <-> exists l, In (Some l) bs /\ In v l.
Proof.
  unfold unions. rewrite (@set_of_list_In _ _ str_eqb_spec), in_flat_map. split.
  - intros [[l|] [Hb Hv]]; [eauto | contradiction].
  - intros [l [Hb Hv]]. exists (Some l). auto.
Qed.

Lemma resolver_known self : forall n m l v,
  length m < n ->
  get_candidate_list_of_vendors self m = Ret (Some l) -> In v l ->
  In v (vendors_ self) \/ In v manual_fixes.
Proof.
  induction n as [|n IH]; intros m l v Hlen H Hv; [lia|].
  destruct m as [|c m']; [discriminate H|].
  set (m := c :: m') in *.
  destruct (find_separators m) as [|s0 ss] eqn:Es.
  - destruct (split_ws m) as [|t0 rest] eqn:Et.
    + unfold get_candidate_list_of_vendors in H.
      rewrite (@resolver_fuel_no_tokens _ self m) in H; auto; discriminate.
    + rewrite (@resolver_tokens self m t0 rest Es Et) in H.
      assert (Hdirect : Ret (none_if_empty (direct_matches self m t0 rest)) =
                        Ret (Some l) -> In v (vendors_ self) \/ In v manual_fixes).
      { intros E. apply (@direct_matches_known self m t0 rest).
        destruct (direct_matches self m t0 rest); [discriminate|].
        inversion E; subst. exact Hv. }
      destruct (str_eqb t0 (lit "the")) eqn:Ethe; [|exact (Hdirect H)].
      destruct (direct_matches self m t0 rest) eqn:Ed; [|exact (Hdirect H)].
      pose proof (rest_after_the_shorter m Et Ethe) as Hshort.
      destruct (get_candidate_list_of_vendors self (join [space] rest))
        as [[[|x r]|]| |] eqn:Er; simpl in H; try discriminate.
      inversion H; subst. apply (IH (join [space] rest) (x :: r)); auto. lia.
  - assert (Hne : find_separators m <> []) by (rewrite Es; discriminate).
    rewrite (@resolver_separators self m Hne) in H.
    destruct (mapM (get_candidate_list_of_vendors self) (vendor_tokens m))
      as [bs| |] eqn:Eb; simpl in H; try discriminate.
    destruct (unions bs) eqn:Eu; [discriminate|].
    inversion H; subst. rewrite <- Eu in Hv.
    apply unions_In in Hv. destruct Hv as [l' [Hb Hv']].
    destruct (@mapM_In _ _ _ _ _ _ Eb Hb) as [x [Hx Hfx]].
    pose proof (vendor_tokens_length _ _ Hx).
    apply (IH x l'); auto. lia.
Qed.

(** Every vendor the resolver names is a vendor of the index or one of the
    five keys of the manual fixes; the latter are named whether or not the
    index has them. *)
Theorem resolver_results_known self m l v :
  get_candidate_list_of_vendors self m = Ret (Some l) -> In v l ->
  In v (vendors_ self) \/ In v manual_fixes.
Proof. apply (@resolver_known self (S (length m))). lia. Qed.

(** [resolver_results_known] at a string naming two vendors. *)
Lemma resolver_results_known_witness :
  In (lit "hp") (vendors_ (clf_zj 80 10)) \/ In (lit "hp") manual_fixes.
Proof.
  apply (@resolver_results_known (clf_zj 80 10)
           (lit "the acme, hewlett packard") [lit "acme"; lit "hp"] (lit "hp")).
  - vm_compute. reflexivity.
  - right. left. reflexivity.
Defined.

(** *** The rules of the branch without separators *)

Lemma add_if_keeps b x s v : In v s -> In v (add_if b x s).
Proof. intros H. apply add_if_In. left. exact H. Qed.

Lemma add_if_adds x s : In x (add_if true x s).
Proof. apply add_if_In. right. split; reflexivity. Qed.

Lemma direct_result self m t0 rest v :
  find_separators m = [] -> split_ws m = t0 :: rest ->
  In v (direct_matches self m t0 rest) ->
  get_candidate_list_of_vendors self m =
  Ret (Some (direct_matches self m t0 rest)).
Proof.
  intros Hs Ht Hv. rewrite (@resolver_tokens self m t0 rest Hs Ht).
  destruct (direct_matches self m t0 rest) as [|d dm]; [contradiction|].
  destruct (str_eqb t0 (lit "the")); reflexivity.
Qed.

Lemma mem_true (x : str) l : In x l -> mem str_eqb x l = true.
Proof. apply (@mem_In _ _ str_eqb_spec). Qed.

(** The manual fixes: in a string without separators the token "hewlett"
    or "hewlett-packard" brings in "hp", the token "thales" brings in
    "thalesesecurity" and "thalesgroup", "stmicroelectronics" brings in
    "st", and "athena" together with "smartcard" brings in "athena-scs",
    whatever the index holds. *)
Theorem manual_fixes_apply self m :
  find_separators m = [] ->
  (In (lit "hewlett") (split_ws m) \/ In (lit "hewlett-packard") (split_ws m) ->
   exists l, get_candidate_list_of_vendors self m = Ret (Some l) /\
             In (lit "hp") l) /\
  (In (lit "thales") (split_ws m) ->
   exists l, get_candidate_list_of_vendors self m = Ret (Some l) /\
             In (lit "thalesesecurity") l /\ In (lit "thalesgroup") l) /\
  (In (lit "stmicroelectronics") (split_ws m) ->
   exists l, get_candidate_list_of_vendors self m = Ret (Some l) /\
             In (lit "st") l) /\
  (In (lit "athena") (split_ws m) -> In (lit "smartcard") (split_ws m) ->
   exists l, get_candidate_list_of_vendors self m = Ret (Some l) /\
             In (lit "athena-scs") l).
Proof.
  intros Hs.
  destruct (split_ws m) as [|t0 rest] eqn:Et.
  { repeat split; simpl; intros; exfalso; tauto. }
  assert (Hhp : In (lit "hewlett") (t0 :: rest) \/
                In (lit "hewlett-packard") (t0 :: rest) ->
                In (lit "hp") (direct_matches self m t0 rest)).
  { intros H. unfold direct_matches. do 4 apply add_if_keeps.
    replace (_ || _ || _) with true; [apply add_if_adds|].
    destruct H as [H|H]; apply mem_true in H; rewrite H;
      rewrite ?orb_true_r; reflexivity. }
  assert (Hte : In (lit "thales") (t0 :: rest) ->
                In (lit "thalesesecurity") (direct_matches self m t0 rest)).
  { intros H. unfold direct_matches. do 3 apply add_if_keeps.
    rewrite (mem_true _ _ H). apply add_if_adds. }
  assert (Htg : In (lit "thales") (t0 :: rest) ->
                In (lit "thalesgroup") (direct_matches self m t0 rest)).
  { intros H. unfold direct_matches. do 2 apply add_if_keeps.
    rewrite (mem_true _ _ H). apply add_if_adds. }
  assert (Hst : In (lit "stmicroelectronics") (t0 :: rest) ->
                In (lit "st") (direct_matches self m t0 rest)).
  { intros H. unfold direct_matches. apply add_if_keeps.
    rewrite (mem_true _ _ H). apply add_if_adds. }
  assert (Hat : In (lit "athena") (t0 :: rest) ->
                In (lit "smartcard") (t0 :: rest) ->
                In (lit "athena-scs") (direct_matches self m t0 rest)).
  { intros H H'. unfold direct_matches.
    rewrite (mem_true _ _ H), (mem_true _ _ H'). apply add_if_adds. }
  repeat split.
  - intros H. eexists. split; [exact (@direct_result self m t0 rest _ Hs Et (Hhp H)) | auto].
  - intros H. eexists. split; [exact (@direct_result self m t0 rest _ Hs Et (Hte H)) | auto].
  - intros H. eexists. split; [exact (@direct_result self m t0 rest _ Hs Et (Hst H)) | auto].
  - intros H H'. eexists.
    split; [exact (@direct_result self m t0 rest _ Hs Et (Hat H H')) | auto].
Qed.

(** [manual_fixes_apply] at the vendor string ["hewlett-packard company"]. *)
Lemma manual_fixes_apply_witness :
  exists l, get_candidate_list_of_vendors (clf_zj 80 10)
              (lit "hewlett-packard company") = Ret (Some l) /\
            In (lit "hp") l.
Proof.
  apply (@manual_fixes_apply (clf_zj 80 10) (lit "hewlett-packard company")
           eq_refl).
  right. left. reflexivity.
Defined.

(** The vendor keys: a string without separators resolves to a list that
    holds the string itself if it is a vendor of the index, its first token
    if that is one, and its first two tokens run together if that is one. *)
Theorem vendor_keys_found self m t0 rest :
  find_separators m = [] -> split_ws m = t0 :: rest ->
  (In m (vendors_ self) ->
   exists l, get_candidate_list_of_vendors self m = Ret (Some l) /\ In m l) /\
  (In t0 (vendors_ self) ->
   exists l, get_candidate_list_of_vendors self m = Ret (Some l) /\ In t0 l) /\
  (forall t1 rest', rest = t1 :: rest' -> In (t0 ++ t1) (vendors_ self) ->
   exists l, get_candidate_list_of_vendors self m = Ret (Some l) /\
             In (t0 ++ t1) l).
Proof.
  intros Hs Ht.
  assert (Hm : In m (vendors_ self) -> In m (direct_matches self m t0 rest)).
  { intros H. unfold direct_matches. do 5 apply add_if_keeps.
    destruct rest; [|apply add_if_keeps]; apply add_if_keeps;
      rewrite (mem_true _ _ H); apply add_if_adds. }
  assert (H0 : In t0 (vendors_ self) -> In t0 (direct_matches self m t0 rest)).
  { intros H. unfold direct_matches. do 5 apply add_if_keeps.
    destruct rest; [|apply add_if_keeps];
      rewrite (mem_true _ _ H); apply add_if_adds. }
  repeat split.
  - intros H. eexists. split; [exact (@direct_result self m t0 rest _ Hs Ht (Hm H)) | auto].
  - intros H. eexists. split; [exact (@direct_result self m t0 rest _ Hs Ht (H0 H)) | auto].
  - intros t1 rest' -> H.
    assert (H1 : In (t0 ++ t1) (direct_matches self m t0 (t1 :: rest'))).
    { unfold direct_matches. do 5 apply add_if_keeps.
      rewrite (mem_true _ _ H). apply add_if_adds. }
    eexists. split; [exact (@direct_result self m t0 (t1 :: rest') _ Hs Ht H1) | auto].
Qed.

(** [vendor_keys_found] at the vendor string ["acme corporation"]. *)
Lemma vendor_keys_found_witness :
  (In (lit "acme corporation") (vendors_ (clf_zj 80 10)) ->
   exists l, get_candidate_list_of_vendors (clf_zj 80 10)
               (lit "acme corporation") = Ret (Some l) /\
             In (lit "acme corporation") l) /\
  (In (lit "acme") (vendors_ (clf_zj 80 10)) ->
   exists l, get_candidate_list_of_vendors (clf_zj 80 10)
               (lit "acme corporation") = Ret (Some l) /\
             In (lit "acme") l) /\
  (forall t1 rest', [lit "corporation"] = t1 :: rest' ->
   In (lit "acme" ++ t1) (vendors_ (clf_zj 80 10)) ->
   exists l, get_candidate_list_of_vendors (clf_zj 80 10)
               (lit "acme corporation") = Ret (Some l) /\
             In (lit "acme" ++ t1) l).
Proof.
  apply (@vendor_keys_found (clf_zj 80 10) (lit "acme corporation")
           (lit "acme") [lit "corporation"]); reflexivity.
Defined.

(** A string with a comma or a slash resolves to the union of what its
    tokens resolve to, [None] standing for the empty union; no token makes
    the resolver raise. *)
Theorem separators_union self m :
  find_separators m <> [] ->
  exists union,
    get_candidate_list_of_vendors self m = Ret (none_if_empty union) /\
    NoDup union /\
    (forall v, In v union <->
       exists t l, In t (vendor_tokens m) /\
                   get_candidate_list_of_vendors self t = Ret (Some l) /\
                   In v l).
Proof.
  intros Hne. rewrite (@resolver_separators self m Hne).
  destruct (@mapM_returns _ _ (get_candidate_list_of_vendors self)
              (fun _ => True) (vendor_tokens m)) as [bs [Hbs _]].
  { intros x Hx. destruct (vendor_tokens_stripped _ _ Hx) as [p ->].
    destruct (@resolver_outcome self (S (length (strip p))) (strip p))
      as [r [Hr _]]; [lia | apply strip_not_blank | eauto]. }
  rewrite Hbs. simpl. exists (unions bs). split; [reflexivity|].
  split; [apply set_of_list_NoDup|].
  intros v. rewrite unions_In. split.
  - intros [l [Hb Hv]].
    destruct (@mapM_In _ _ _ _ _ _ Hbs Hb) as [t [Ht Hft]]. eauto.
  - intros [t [l [Ht [Hft Hv]]]].
    destruct (@mapM_In_back _ _ _ _ _ _ Hbs Ht) as [b [Hb Hfb]].
    rewrite Hft in Hfb. inversion Hfb; subst. eauto.
Qed.

(** [separators_union] at the vendor string ["acme/hewlett packard"]. *)
Lemma separators_union_witness :
  exists union,
    get_candidate_list_of_vendors (clf_zj 80 10) (lit "acme/hewlett packard") =
      Ret (none_if_empty union) /\
    NoDup union /\
    (forall v, In v union <->
       exists t l, In t (vendor_tokens (lit "acme/hewlett packard")) /\
                   get_candidate_list_of_vendors (clf_zj 80 10) t = Ret (Some l) /\
                   In v l).
Proof.
  apply separators_union. discriminate.
Defined.

End ResolverProofs.

(* ================================================================== *)
(** ** Retrieval of candidates                                         *)
(* ================================================================== *)

Module RetrievalProofs.
Import Py CPEMatching PyFacts Instances VendorProofs ResolverProofs.

Lemma startswith_spec (s p : str) :
  startswith s p = true <-> exists w, s = p ++ w.
Proof.
  revert s. induction p as [|x p IH]; intros s; simpl.
  - destruct s; split; eauto.
  - destruct s as [|y s]; simpl.
    + split; [discriminate | intros [w H]; discriminate H].
    + unfold chr_eqb. rewrite andb_true_iff, N.eqb_eq, IH. split.
      * intros [-> [w ->]]. eauto.
      * intros [w H]. inversion H; subst. eauto.
Qed.

Section Versions.
Variable U : UnicodeDB.

(** The version predicate of [get_candidate_vendor_version_pairs], read
    in terms of prefixes: a version of the index is selected when one of
    the versions of the certificate is a prefix of it, or when it is a
    prefix of one of them and holds a digit, a dot and a digit in a row.
    In particular every version that is listed is selected, and an empty
    string among the versions of the certificate selects every version. *)
Theorem version_selected_iff (cpe_version : str) (cert_versions : list str) :
  is_cpe_version_among_cert_versions U cpe_version (Some cert_versions) = Ret true
  <-> exists v w, In v cert_versions /\
        (cpe_version = v ++ w \/
         (v = cpe_version ++ w /\ search_just_numbers U cpe_version = true)).
Proof.
  unfold is_cpe_version_among_cert_versions. split.
  - intros H. injection H as H'. apply existsb_exists in H'.
    destruct H' as [v [Hv Hb]]. apply orb_true_iff in Hb.
    destruct Hb as [Hb | Hb].
    + apply andb_true_iff in Hb. destruct Hb as [Hp Hn].
      apply startswith_spec in Hp. destruct Hp as [w Hw].
      exists v, w. split; [exact Hv | right; split; assumption].
    + apply startswith_spec in Hb. destruct Hb as [w Hw].
      exists v, w. split; [exact Hv | left; exact Hw].
  - intros [v [w [Hv H]]]. f_equal. apply existsb_exists. exists v.
    split; [exact Hv|]. apply orb_true_iff.
    destruct H as [-> | [-> Hn]].
    + right. apply startswith_spec. eauto.
    + left. rewrite Hn, andb_true_r. apply startswith_spec. eauto.
Qed.

(** The retry of [predict_single_cert], with the versions ["-"], selects
    the versions of the index that start with a hyphen and no other. *)
Theorem hyphen_selects_hyphen_versions (cpe_version : str) :
  is_cpe_version_among_cert_versions U cpe_version (Some [lit "-"]) =
  Ret (startswith cpe_version (lit "-")).
Proof.
  unfold is_cpe_version_among_cert_versions. f_equal. simpl.
  destruct cpe_version as [|a [|b r]]; simpl; rewrite ?orb_false_r;
    try reflexivity.
  - rewrite andb_false_r. reflexivity.
  - rewrite andb_false_r. reflexivity.
Qed.

End Versions.

Section Pairs.
Variable U : UnicodeDB.

Lemma filterM_pure {A} (f : A -> res bool) (g : A -> bool) l :
  (forall a, f a = Ret (g a)) -> filterM f l = Ret (filter g l).
Proof.
  intros H. induction l as [|a l IH]; simpl; [reflexivity|].
  rewrite H, IH. simpl. destruct (g a); reflexivity.
Qed.

Lemma dict_has_get {K V} (eqb : K -> K -> bool) (k : K) (d : dict K V) :
  dict_has eqb k d = true <-> exists v, dict_get eqb k d = Some v.
Proof.
  unfold dict_has. destruct (dict_get eqb k d); split; eauto;
    [discriminate | intros [v H]; discriminate H].
Qed.

(** The loop over the candidate vendors, all of them keys of
    [vendor_to_versions_]. *)
Lemma pairs_loop_found self (vs : list str) : forall vendors,
  Forall (fun v => dict_has str_eqb v (vendor_to_versions_ self) = true) vendors ->
  exists pairs,
    vendor_version_pairs_loop U self vendors (Some vs) = Ret pairs /\
    (forall v x, In (v, x) pairs <->
       In v vendors /\
       exists viable, dict_get str_eqb v (vendor_to_versions_ self) = Some viable /\
                      In x viable /\
                      is_cpe_version_among_cert_versions U x (Some vs) = Ret true).
Proof.
  induction vendors as [|v0 vendors IH]; intros H.
  - exists []. split; [reflexivity|]. intros v x. simpl. tauto.
  - inversion H as [|? ? H0 Hrest]; subst.
    apply dict_has_get in H0. destruct H0 as [viable0 E0].
    destruct (IH Hrest) as [pairs [Hp Hiff]].
    simpl. rewrite E0.
    rewrite (filterM_pure _
      (fun x => existsb (fun v => startswith v x && search_just_numbers U x
                                  || startswith x v) vs)); [|reflexivity].
    simpl. rewrite Hp. simpl. eexists. split; [reflexivity|].
    intros v x. rewrite in_app_iff, in_map_iff, Hiff. split.
    + intros [[x' [E Hx']] | [Hv Hex]].
      * inversion E; subst. apply filter_In in Hx'. destruct Hx' as [Hx' Hsel].
        split; [left; reflexivity|]. exists viable0.
        unfold is_cpe_version_among_cert_versions. rewrite Hsel. auto.
      * split; [right; exact Hv | exact Hex].
    + intros [[<- | Hv] [viable [E [Hx Hsel]]]].
      * left. exists x. split; [reflexivity|]. rewrite E0 in E.
        inversion E; subst. apply filter_In. split; [exact Hx|].
        unfold is_cpe_version_among_cert_versions in Hsel. congruence.
      * right. split; [exact Hv|]. eauto.
Qed.

(** The loop stops with [KeyError] at the first vendor that is not a key of
    [vendor_to_versions_]. *)
Lemma pairs_loop_raises self (vs : list str) : forall vendors,
  Exists (fun v => dict_has str_eqb v (vendor_to_versions_ self) = false) vendors ->
  vendor_version_pairs_loop U self vendors (Some vs) = Raise KeyError.
Proof.
  induction vendors as [|v0 vendors IH]; intros H; [inversion H|].
  simpl. unfold dict_has in H.
  destruct (dict_get str_eqb v0 (vendor_to_versions_ self)) as [viable|] eqn:E0;
    [|reflexivity].
  rewrite (filterM_pure _
    (fun x => existsb (fun v => startswith v x && search_just_numbers U x
                                || startswith x v) vs)); [|reflexivity].
  simpl. rewrite IH; [reflexivity|].
  inversion H as [? ? H0 | ? ? H0]; subst; [|exact H0].
  rewrite E0 in H0. discriminate.
Qed.

(** For candidate vendors that are all keys of [vendor_to_versions_], the
    pairs returned are the pairs of a candidate vendor and one of its
    versions that the version predicate selects. *)
Theorem pairs_of_known_vendors self v0 vendors (vs : list str) :
  Forall (fun v => dict_has str_eqb v (vendor_to_versions_ self) = true)
         (v0 :: vendors) ->
  exists pairs,
    get_candidate_vendor_version_pairs U self (Some (v0 :: vendors)) (Some vs) =
      Ret (Some pairs) /\
    (forall v x, In (v, x) pairs <->
       In v (v0 :: vendors) /\
       exists viable, dict_get str_eqb v (vendor_to_versions_ self) = Some viable /\
                      In x viable /\
                      is_cpe_version_among_cert_versions U x (Some vs) = Ret true).
Proof.
  intros H. destruct (pairs_loop_found self vs H) as [pairs [Hp Hiff]].
  exists pairs. split; [|exact Hiff].
  unfold get_candidate_vendor_version_pairs. rewrite Hp. reflexivity.
Qed.

(** A candidate vendor that is not a key of [vendor_to_versions_] makes
    [get_candidate_vendor_version_pairs] raise [KeyError]. *)
Theorem unknown_vendor_raises_key_error self vendors (vs : list str) :
  Exists (fun v => dict_has str_eqb v (vendor_to_versions_ self) = false) vendors ->
  get_candidate_vendor_version_pairs U self (Some vendors) (Some vs) =
  Raise KeyError.
Proof.
  intros H. unfold get_candidate_vendor_version_pairs.
  destruct vendors as [|v0 vendors]; [inversion H|].
  rewrite (pairs_loop_raises self vs H). reflexivity.
Qed.

End Pairs.

(** [pairs_of_known_vendors] at the vendor "acme" of the example index. *)
Lemma pairs_of_known_vendors_witness :
  exists pairs,
    get_candidate_vendor_version_pairs basic_db (clf_zj 80 10)
      (Some [lit "acme"]) (Some [lit "-"]) = Ret (Some pairs) /\
    (forall v x, In (v, x) pairs <->
       In v [lit "acme"] /\
       exists viable,
         dict_get str_eqb v (vendor_to_versions_ (clf_zj 80 10)) = Some viable /\
         In x viable /\
         is_cpe_version_among_cert_versions basic_db x (Some [lit "-"]) = Ret true).
Proof.
  apply (@pairs_of_known_vendors basic_db (clf_zj 80 10)). repeat constructor.
Defined.

(** [unknown_vendor_raises_key_error] at the vendors "acme" and "hp", the
    second of which the example index does not have. *)
Lemma unknown_vendor_raises_key_error_witness :
  get_candidate_vendor_version_pairs basic_db (clf_zj 80 10)
    (Some [lit "acme"; lit "hp"]) (Some [lit "-"]) = Raise KeyError.
Proof.
  apply (@unknown_vendor_raises_key_error basic_db (clf_zj 80 10)).
  apply Exists_cons_tl. apply Exists_cons_hd. reflexivity.
Defined.

End RetrievalProofs.

(* ================================================================== *)
(** ** The fitted index                                                *)
(* ================================================================== *)

Module FittedIndexProofs.
Import Py CPEMatching PyFacts Instances IndexProofs ResolverProofs RetrievalProofs.

Lemma dict_adjust_keys {K V} (eqb : K -> K -> bool) (f : V -> V) k (d : dict K V) :
  dict_keys (dict_adjust eqb f k d) = dict_keys d.
Proof.
  unfold dict_keys. induction d as [|[k' v'] d IH]; simpl; [reflexivity|].
  destruct (eqb k k'); simpl; [reflexivity | rewrite IH; reflexivity].
Qed.

Lemma dict_keys_has (k : str) {V} (d : dict str V) :
  In k (dict_keys d) -> dict_has str_eqb k d = true.
Proof.
  unfold dict_keys, dict_has. induction d as [|[k' v'] d IH]; simpl; [tauto|].
  intros [-> | H]; [rewrite str_eqb_refl; reflexivity|].
  destruct (str_eqb k k'); [reflexivity | exact (IH H)].
Qed.

(** What one round of the loop of [build_lookup_structures] does to the
    keys of [vendor_version_to_cpe_]. *)
Lemma add_to_lookups_has vtv vvc cpe key :
  dict_has pair_eqb key vvc = true \/ key = (vendor cpe, version cpe) ->
  dict_has pair_eqb key (snd (add_to_lookups (vtv, vvc) cpe)) = true.
Proof.
  unfold add_to_lookups. simpl. intros H.
  destruct (dict_has pair_eqb (vendor cpe, version cpe) vvc) eqn:E.
  - unfold dict_has. rewrite (dict_get_adjust _ pair_eqb_spec).
    destruct H as [H | ->].
    + unfold dict_has in H.
      destruct (dict_get pair_eqb key vvc); [|discriminate].
      destruct (pair_eqb key _); reflexivity.
    + unfold dict_has in E.
      destruct (dict_get pair_eqb (vendor cpe, version cpe) vvc); [|discriminate].
      rewrite (proj2 (pair_eqb_spec _ _) eq_refl). reflexivity.
  - unfold dict_has. rewrite (dict_get_set _ pair_eqb_spec).
    destruct (pair_eqb key (vendor cpe, version cpe)) eqn:Ek; [reflexivity|].
    destruct H as [H | ->]; [exact H|].
    rewrite (proj2 (pair_eqb_spec _ _) eq_refl) in Ek. discriminate.
Qed.

(** The two structures agree: a version filed under a vendor has an entry
    for the pair. *)
Lemma add_to_lookups_consistent (l : list CPE) vtv0 :
  (forall v viable ver, dict_get str_eqb v vtv0 = Some viable -> ~ In ver viable) ->
  forall vtv vvc, fold_left add_to_lookups l (vtv0, []) = (vtv, vvc) ->
  dict_keys vtv = dict_keys vtv0 /\
  (forall v viable ver, dict_get str_eqb v vtv = Some viable -> In ver viable ->
     dict_has pair_eqb (v, ver) vvc = true).
Proof.
  intros H0.
  pose (P := fun acc : dict str (list str) * dict (str * str) (list CPE) =>
    dict_keys (fst acc) = dict_keys vtv0 /\
    (forall v viable ver, dict_get str_eqb v (fst acc) = Some viable ->
       In ver viable -> dict_has pair_eqb (v, ver) (snd acc) = true)).
  assert (HP : P (fold_left add_to_lookups l (vtv0, []))).
  { apply fold_left_invariant.
    - split; [reflexivity|]. simpl. intros v viable ver E Hin.
      exfalso. exact (H0 _ _ _ E Hin).
    - intros [vtv vvc] x _ [IHk IHc]. split.
      + unfold add_to_lookups. simpl. rewrite dict_adjust_keys. exact IHk.
      + intros v viable ver E Hin. apply add_to_lookups_has.
        unfold add_to_lookups in E. simpl in E.
        rewrite (dict_get_adjust _ str_eqb_spec) in E.
        destruct (str_eqb v (vendor x)) eqn:Ev.
        * apply str_eqb_spec in Ev. subst v. simpl in IHc.
          destruct (dict_get str_eqb (vendor x) vtv) as [old|] eqn:Eo;
            [|discriminate]. simpl in E. inversion E; subst.
          apply set_add_incl in Hin. destruct Hin as [Hin | ->]; [|auto].
          left. exact (IHc _ _ _ Eo Hin).
        * left. exact (IHc _ _ _ E Hin). }
  intros vtv vvc E. rewrite E in HP. exact HP.
Qed.

Lemma fit_consistent self X :
  (forall v, In v (vendors_ (fit self X)) ->
     dict_has str_eqb v (vendor_to_versions_ (fit self X)) = true) /\
  (forall v viable ver,
     dict_get str_eqb v (vendor_to_versions_ (fit self X)) = Some viable ->
     In ver viable ->
     dict_has pair_eqb (v, ver) (vendor_version_to_cpe_ (fit self X)) = true).
Proof.
  unfold fit, build_lookup_structures.
  set (long := filter_short_cpes X).
  set (vtv0 := fold_left (fun d x => dict_set str_eqb (vendor x) [] d) long []).
  destruct (fold_left add_to_lookups long (vtv0, [])) as [vtv vvc] eqn:E.
  simpl.
  assert (H0 : forall v viable ver,
            dict_get str_eqb v vtv0 = Some viable -> ~ In ver viable).
  { intros v viable ver H. apply (dict_get_In _ str_eqb_spec) in H.
    apply initial_versions_In in H. destruct H as [-> _]. intros []. }
  destruct (add_to_lookups_consistent long vtv0 H0 E) as [Hk Hc].
  split; [|exact Hc].
  intros v Hv. apply set_of_list_incl in Hv. rewrite <- Hk in Hv.
  apply dict_keys_has, Hv.
Qed.

Lemma fit_stored_records self X key s cpe :
  In (key, s) (vendor_version_to_cpe_ (fit self X)) -> In cpe s ->
  In cpe X /\ 3 < length (item_name cpe) /\ key = (vendor cpe, version cpe).
Proof.
  unfold fit, build_lookup_structures.
  set (long := filter_short_cpes X).
  set (vtv0 := fold_left (fun d x => dict_set str_eqb (vendor x) [] d) long []).
  destruct (fold_left add_to_lookups long (vtv0, [])) as [vtv vvc] eqn:E.
  simpl. intros H Hin.
  assert (H0 : forall v vs ver, In (v, vs) vtv0 -> ~ In ver vs).
  { intros v vs ver H'. apply initial_versions_In in H'.
    destruct H' as [-> _]. intros []. }
  destruct (add_to_lookups_invariant long vtv0 H0 E) as [H1 _].
  destruct (H1 _ _ _ H Hin) as [Hl Hk].
  apply filter_short_cpes_In in Hl. tauto.
Qed.

Section Candidates.
Variable U : UnicodeDB.

(** Every candidate comes out of the set filed under one of the pairs. *)
Lemma candidates_in_index self cv vs cands c :
  get_candidate_cpe_matches U self cv vs = Ret cands -> In c cands ->
  exists key s pairs,
    get_candidate_vendor_version_pairs U self cv vs = Ret (Some pairs) /\
    In key pairs /\
    dict_get pair_eqb key (vendor_version_to_cpe_ self) = Some s /\ In c s.
Proof.
  unfold get_candidate_cpe_matches.
  destruct (get_candidate_vendor_version_pairs U self cv vs)
    as [[[|p ps]|]| |] eqn:Ep; unfold bind at 1; intros H Hc;
    try discriminate; try (inversion H; subst; contradiction).
  destruct (mapM _ (p :: ps)) as [sets| |] eqn:Em; simpl in H; try discriminate.
  inversion H; subst. apply in_concat in Hc. destruct Hc as [s0 [Hs Hc]].
  destruct (@mapM_In _ _ _ _ _ _ Em Hs) as [key [Hkey Hget]].
  destruct (dict_get pair_eqb key (vendor_version_to_cpe_ self)) as [s1|] eqn:Eg;
    [|discriminate].
  inversion Hget; subst. exists key, s0, (p :: ps). auto.
Qed.

(** On a fitted index, candidate vendors taken from [vendors_] never lead
    to a [KeyError]: [get_candidate_cpe_matches] returns, and each
    candidate is a record of the corpus with an [item_name] longer than 3
    characters, of one of the candidate vendors, whose version the version
    predicate selects. *)
Theorem fitted_candidates self X vendors (vs : list str) :
  (forall v, In v vendors -> In v (vendors_ (fit self X))) ->
  exists cands,
    get_candidate_cpe_matches U (fit self X) (Some vendors) (Some vs) = Ret cands /\
    (forall c, In c cands ->
       In c X /\ 3 < length (item_name c) /\ In (vendor c) vendors /\
       is_cpe_version_among_cert_versions U (version c) (Some vs) = Ret true).
Proof.
  intros Hv. destruct (fit_consistent self X) as [Ha Hb].
  assert (Hall : Forall (fun v => dict_has str_eqb v
                           (vendor_to_versions_ (fit self X)) = true) vendors).
  { apply Forall_forall. intros v H. apply Ha, Hv, H. }
  destruct (pairs_loop_found U (fit self X) vs Hall) as [pairs [Hp Hiff]].
  assert (Hret : exists cands,
            get_candidate_cpe_matches U (fit self X) (Some vendors) (Some vs) =
            Ret cands).
  { unfold get_candidate_cpe_matches, get_candidate_vendor_version_pairs.
    destruct vendors as [|v0 vendors]; [simpl; eauto|].
    rewrite Hp. simpl. destruct pairs as [|p ps]; [eauto|].
    destruct (@mapM_returns _ _
      (fun x => match dict_get pair_eqb x (vendor_version_to_cpe_ (fit self X)) with
                | Some s => Ret s
                | None => Raise KeyError
                end) (fun _ => True) (p :: ps)) as [sets [Hs _]].
    { intros [v x] Hin. apply Hiff in Hin.
      destruct Hin as [_ [viable [E [Hx _]]]].
      pose proof (Hb _ _ _ E Hx) as Hhas. apply dict_has_get in Hhas.
      destruct Hhas as [s Es]. rewrite Es. eauto. }
    rewrite Hs. simpl. eauto. }
  destruct Hret as [cands Hc]. exists cands. split; [exact Hc|].
  intros c Hin.
  destruct (@candidates_in_index _ _ _ _ _ Hc Hin)
    as [key [s [ps [Hps [Hk [Hg Hcs]]]]]].
  apply (dict_get_In _ pair_eqb_spec) in Hg.
  destruct (@fit_stored_records self X _ _ _ Hg Hcs) as [HX [Hlong ->]].
  split; [exact HX|]. split; [exact Hlong|].
  unfold get_candidate_vendor_version_pairs in Hps.
  destruct vendors as [|v0 vendors]; [discriminate|].
  rewrite Hp in Hps. simpl in Hps. inversion Hps; subst.
  apply Hiff in Hk. destruct Hk as [Hvin [viable [_ [_ Hsel]]]]. auto.
Qed.

End Candidates.

(** [fitted_candidates] at the example index and its vendor "acme". *)
Lemma fitted_candidates_witness :
  exists cands,
    get_candidate_cpe_matches basic_db (fit (new_classifier 80 10) [cpe_z; cpe_j])
      (Some [lit "acme"]) (Some [lit "-"]) = Ret cands /\
    (forall c, In c cands ->
       In c [cpe_z; cpe_j] /\ 3 < length (item_name c) /\
       In (vendor c) [lit "acme"] /\
       is_cpe_version_among_cert_versions basic_db (version c) (Some [lit "-"]) =
       Ret true).
Proof.
  apply (@fitted_candidates basic_db (new_classifier 80 10) [cpe_z; cpe_j]
           [lit "acme"] [lit "-"]).
  intros v [<- | []]. vm_compute. left. reflexivity.
Defined.

(** *** Every long record is filed *)

Lemma cpe_eqb_refl c : cpe_eqb c c = true.
Proof. apply str_eqb_refl. Qed.

Lemma mem_set_add_keeps {A} (eqb : A -> A -> bool) s x y :
  mem eqb y s = true -> mem eqb y (set_add eqb s x) = true.
Proof.
  unfold set_add, mem. intros H. destruct (existsb (eqb x) s); [exact H|].
  rewrite existsb_app, H. reflexivity.
Qed.

Lemma mem_set_add_self s x : mem cpe_eqb x (set_add cpe_eqb s x) = true.
Proof.
  unfold set_add. destruct (mem cpe_eqb x s) eqn:E; [exact E|].
  unfold mem. rewrite existsb_app. simpl. rewrite cpe_eqb_refl.
  rewrite orb_true_r. reflexivity.
Qed.

Lemma add_to_lookups_files vtv vvc x :
  In (vendor x) (dict_keys vtv) ->
  (exists viable,
     dict_get str_eqb (vendor x) (fst (add_to_lookups (vtv, vvc) x)) = Some viable /\
     In (version x) viable) /\
  (exists s,
     dict_get pair_eqb (vendor x, version x)
              (snd (add_to_lookups (vtv, vvc) x)) = Some s /\
     mem cpe_eqb x s = true).
Proof.
  intros Hk. unfold add_to_lookups. simpl. split.
  - rewrite (dict_get_adjust _ str_eqb_spec), str_eqb_refl.
    apply dict_keys_has, dict_has_get in Hk. destruct Hk as [old Eo].
    rewrite Eo. simpl. eexists. split; [reflexivity|].
    apply (@set_add_In _ _ str_eqb_spec). auto.
  - destruct (dict_has pair_eqb (vendor x, version x) vvc) eqn:E.
    + rewrite (dict_get_adjust _ pair_eqb_spec).
      rewrite (proj2 (pair_eqb_spec _ _) eq_refl).
      apply dict_has_get in E. destruct E as [s Es]. rewrite Es. simpl.
      eexists. split; [reflexivity | apply mem_set_add_self].
    + rewrite (dict_get_set _ pair_eqb_spec).
      rewrite (proj2 (pair_eqb_spec _ _) eq_refl).
      eexists. split; [reflexivity|]. simpl. rewrite cpe_eqb_refl. reflexivity.
Qed.

Lemma add_to_lookups_keeps vtv vvc x c :
  (exists viable, dict_get str_eqb (vendor c) vtv = Some viable /\
                  In (version c) viable) /\
  (exists s, dict_get pair_eqb (vendor c, version c) vvc = Some s /\
             mem cpe_eqb c s = true) ->
  (exists viable,
     dict_get str_eqb (vendor c) (fst (add_to_lookups (vtv, vvc) x)) = Some viable /\
     In (version c) viable) /\
  (exists s,
     dict_get pair_eqb (vendor c, version c)
              (snd (add_to_lookups (vtv, vvc) x)) = Some s /\
     mem cpe_eqb c s = true).
Proof.
  intros [[viable [Ev Hv]] [s [Es Hs]]]. unfold add_to_lookups. simpl. split.
  - rewrite (dict_get_adjust _ str_eqb_spec), Ev. simpl.
    destruct (str_eqb (vendor c) (vendor x)); eexists; split;
      try reflexivity; [apply set_add_keeps|]; exact Hv.
  - destruct (dict_has pair_eqb (vendor x, version x) vvc) eqn:E.
    + rewrite (dict_get_adjust _ pair_eqb_spec), Es. simpl.
      destruct (pair_eqb (vendor c, version c) (vendor x, version x));
        eexists; split; try reflexivity; [apply mem_set_add_keeps|]; exact Hs.
    + rewrite (dict_get_set _ pair_eqb_spec).
      destruct (pair_eqb (vendor c, version c) (vendor x, version x)) eqn:Ek.
      * apply pair_eqb_spec in Ek. rewrite <- Ek in E.
        unfold dict_has in E. rewrite Es in E. discriminate.
      * eauto.
Qed.

Lemma add_to_lookups_complete : forall (l : list CPE) acc c,
  (forall x, In x l -> In (vendor x) (dict_keys (fst acc))) ->
  In c l \/
  ((exists viable, dict_get str_eqb (vendor c) (fst acc) = Some viable /\
                   In (version c) viable) /\
   (exists s, dict_get pair_eqb (vendor c, version c) (snd acc) = Some s /\
              mem cpe_eqb c s = true)) ->
  (exists viable,
     dict_get str_eqb (vendor c) (fst (fold_left add_to_lookups l acc)) =
       Some viable /\ In (version c) viable) /\
  (exists s,
     dict_get pair_eqb (vendor c, version c)
              (snd (fold_left add_to_lookups l acc)) = Some s /\
     mem cpe_eqb c s = true).
Proof.
  induction l as [|x l IH]; intros [vtv vvc] c Hk H; simpl.
  - destruct H as [[] | H]. exact H.
  - apply IH.
    + intros y Hy. unfold add_to_lookups. simpl. rewrite dict_adjust_keys.
      apply Hk. right. exact Hy.
    + destruct H as [[<- | H] | H].
      * right. apply add_to_lookups_files. apply Hk. left. reflexivity.
      * left. exact H.
      * right. apply add_to_lookups_keeps. exact H.
Qed.

Lemma initial_versions_keys (l : list CPE) x :
  In x l ->
  In (vendor x)
     (dict_keys (fold_left (fun d y => dict_set str_eqb (vendor y) ([] : list str) d)
                           l [])).
Proof.
  assert (G : forall (l : list CPE) (d : dict str (list str)),
            (forall k, In k (dict_keys d) ->
               In k (dict_keys (fold_left
                  (fun d y => dict_set str_eqb (vendor y) [] d) l d))) /\
            (forall x, In x l ->
               In (vendor x) (dict_keys (fold_left
                  (fun d y => dict_set str_eqb (vendor y) [] d) l d)))).
  { clear. induction l as [|y l IH]; intros d; simpl; [split; [auto | tauto]|].
    assert (Hset : forall k, In k (dict_keys d) \/ k = vendor y ->
               In k (dict_keys (dict_set str_eqb (vendor y) ([] : list str) d))).
    { intros k Hk. unfold dict_keys. clear IH.
      induction d as [|[k' v'] d IHd]; simpl.
      - destruct Hk as [[] | ->]. left. reflexivity.
      - destruct (str_eqb (vendor y) k') eqn:E; simpl.
        + apply str_eqb_spec in E. subst k'.
          destruct Hk as [[Hk | Hk] | ->]; auto.
        + destruct Hk as [[Hk | Hk] | ->]; auto. }
    destruct (IH (dict_set str_eqb (vendor y) [] d)) as [IH1 IH2]. split.
    - intros k Hk. apply IH1, Hset. left. exact Hk.
    - intros x [<- | Hx]; [apply IH1, Hset; right; reflexivity | apply IH2, Hx]. }
  intros H. apply (proj2 (G l [])), H.
Qed.

(** [fit] files every record whose [item_name] is longer than 3
    characters: its vendor is in [vendors_], its version in the set of its
    vendor, and the set of its vendor and version holds a record with its
    uri. *)
Theorem fit_files_long_records self X c :
  In c X -> 3 < length (item_name c) ->
  In (vendor c) (vendors_ (fit self X)) /\
  (exists viable,
     dict_get str_eqb (vendor c) (vendor_to_versions_ (fit self X)) = Some viable /\
     In (version c) viable) /\
  (exists s,
     dict_get pair_eqb (vendor c, version c)
              (vendor_version_to_cpe_ (fit self X)) = Some s /\
     mem cpe_eqb c s = true).
Proof.
  intros HX Hlong.
  assert (Hc : In c (filter_short_cpes X)) by (apply filter_short_cpes_In; auto).
  unfold fit, build_lookup_structures.
  set (long := filter_short_cpes X) in *.
  set (vtv0 := fold_left (fun d x => dict_set str_eqb (vendor x) [] d) long []).
  pose proof (@add_to_lookups_complete long (vtv0, []) c
                (fun x Hx => initial_versions_keys long x Hx) (or_introl Hc)) as H.
  destruct (fold_left add_to_lookups long (vtv0, [])) as [vtv vvc] eqn:E.
  simpl in *. split; [|exact H].
  apply (@set_of_list_In _ _ str_eqb_spec). apply initial_versions_keys, Hc.
Qed.

(** [fit_files_long_records] at the record [cpe_z] of the example corpus. *)
Lemma fit_files_long_records_witness :
  In (vendor cpe_z) (vendors_ (fit (new_classifier 80 10) [cpe_z; cpe_j])) /\
  (exists viable,
     dict_get str_eqb (vendor cpe_z)
       (vendor_to_versions_ (fit (new_classifier 80 10) [cpe_z; cpe_j])) =
       Some viable /\ In (version cpe_z) viable) /\
  (exists s,
     dict_get pair_eqb (vendor cpe_z, version cpe_z)
       (vendor_version_to_cpe_ (fit (new_classifier 80 10) [cpe_z; cpe_j])) =
       Some s /\ mem cpe_eqb cpe_z s = true).
Proof.
  apply fit_files_long_records.
  - left. reflexivity.
  - vm_compute. lia.
Defined.

End FittedIndexProofs.

(* ================================================================== *)
(** ** Queries: what [predict_single_cert] and [predict] answer        *)
(* ================================================================== *)

Module QueryProofs.
Import Py CPEMatching PyFacts Instances VendorProofs MatcherProofs.
Import ResolverProofs RetrievalProofs FittedIndexProofs.

Section Queries.
Variable U : UnicodeDB.
Variable F : Scorers.

Lemma rated_candidates_eq self vendor product_name versions :
  rated_candidates U F self vendor product_name versions =
  bind (get_candidate_list_of_vendors self (sanitize_vendor U vendor))
       (fun candidate_vendors =>
  bind (get_candidate_cpe_matches U self candidate_vendors versions)
       (fun candidates =>
  bind (mapM (fun cpe => compute_best_match U F cpe
                           (sanitize_product_name U product_name)
                           candidate_vendors versions) candidates)
       (fun ratings => Ret (combine ratings candidates)))).
Proof. reflexivity. Qed.

(** A pass whose candidates cannot be rated raises for either value of
    [relax_version]; a pass without candidates returns [None]. *)
Lemma predict_when_rating_raises self vendor product_name versions relax e :
  rated_candidates U F self vendor product_name versions = Raise e ->
  predict_single_cert U F self vendor product_name versions relax = Raise e.
Proof.
  intros H. unfold predict_single_cert.
  rewrite predict_single_cert_fuel_eq. unfold scored_matches. rewrite H.
  reflexivity.
Qed.

Lemma predict_without_candidates self vendor product_name versions relax :
  (forall vs, rated_candidates U F self vendor product_name vs = Ret []) ->
  predict_single_cert U F self vendor product_name versions relax = Ret None.
Proof.
  intros H. unfold predict_single_cert.
  rewrite predict_single_cert_fuel_eq. unfold scored_matches. rewrite H.
  destruct relax; [|reflexivity].
  change (predict_single_cert_fuel U F 1 self vendor product_name
            (Some [lit "-"]) false = Ret None).
  rewrite predict_single_cert_fuel_eq. unfold scored_matches.
  rewrite H. reflexivity.
Qed.

(** A vendor the resolver cannot place ends the query with [None],
    whatever the versions are, [None] included. *)
Theorem unresolved_vendor_gives_none self vendor product_name versions relax :
  get_candidate_list_of_vendors self (sanitize_vendor U vendor) = Ret None ->
  predict_single_cert U F self vendor product_name versions relax = Ret None.
Proof.
  intros H. apply predict_without_candidates. intros vs.
  rewrite rated_candidates_eq, H. reflexivity.
Qed.

(** A vendor that resolves to a key [vendor_to_versions_] does not have,
    as the keys of the manual fixes may be, ends the query with
    [KeyError]. *)
Theorem unindexed_vendor_raises
    self vendor product_name (versions : list str) relax candidate_vendors :
  get_candidate_list_of_vendors self (sanitize_vendor U vendor) =
    Ret (Some candidate_vendors) ->
  Exists (fun v => dict_has str_eqb v (vendor_to_versions_ self) = false)
         candidate_vendors ->
  predict_single_cert U F self vendor product_name (Some versions) relax =
  Raise KeyError.
Proof.
  intros H Hex. apply predict_when_rating_raises.
  rewrite rated_candidates_eq, H. simpl.
  unfold get_candidate_cpe_matches, get_candidate_vendor_version_pairs.
  destruct candidate_vendors as [|v0 cv]; [inversion Hex|].
  rewrite (pairs_loop_raises U self versions Hex). reflexivity.
Qed.

(** Without versions ([versions=None]) the query ends with [TypeError] as
    soon as the first candidate vendor has a version in the index. *)
Theorem missing_versions_raise
    self vendor product_name relax v0 candidate_vendors x viable :
  get_candidate_list_of_vendors self (sanitize_vendor U vendor) =
    Ret (Some (v0 :: candidate_vendors)) ->
  dict_get str_eqb v0 (vendor_to_versions_ self) = Some (x :: viable) ->
  predict_single_cert U F self vendor product_name None relax = Raise TypeError.
Proof.
  intros H Hv. apply predict_when_rating_raises.
  rewrite rated_candidates_eq, H. simpl.
  unfold get_candidate_cpe_matches, get_candidate_vendor_version_pairs.
  simpl. rewrite Hv. reflexivity.
Qed.

Lemma rated_candidates_inv self vendor product_name versions rated :
  rated_candidates U F self vendor product_name versions = Ret rated ->
  exists cv cands ratings,
    get_candidate_list_of_vendors self (sanitize_vendor U vendor) = Ret cv /\
    get_candidate_cpe_matches U self cv versions = Ret cands /\
    mapM (fun cpe => compute_best_match U F cpe
                       (sanitize_product_name U product_name) cv versions)
         cands = Ret ratings /\
    rated = combine ratings cands.
Proof.
  rewrite rated_candidates_eq.
  destruct (get_candidate_list_of_vendors self _) as [cv| |] eqn:Ev;
    unfold bind at 1; try discriminate.
  destruct (get_candidate_cpe_matches U self cv versions) as [cands| |] eqn:Ec;
    unfold bind at 1; try discriminate.
  destruct (mapM _ cands) as [ratings| |] eqn:Em; unfold bind at 1;
    try discriminate.
  intros H. inversion H; subst. exists cv, cands, ratings.
  repeat split; assumption.
Qed.

(** Every uri returned belongs to a candidate the pass has rated. *)
Lemma returned_uri_candidate self vendor product_name versions relax l u :
  predict_single_cert U F self vendor product_name versions relax = Ret (Some l) ->
  In u l ->
  exists versions' rated q c,
    rated_candidates U F self vendor product_name versions' = Ret rated /\
    In (q, c) rated /\ uri c = u.
Proof.
  intros H Hu. apply predict_single_cert_inv in H.
  destruct H as [vs' [thr [fm [Hs [Hr _]]]]].
  unfold scored_matches in Hs.
  destruct (rated_candidates U F self vendor product_name vs')
    as [rated| |] eqn:Er; simpl in Hs; try discriminate.
  inversion Hs; subst fm. clear Hs. unfold uris_or_none in Hr.
  destruct (filter _ rated) as [|x fm] eqn:Ef; [discriminate|].
  inversion Hr; subst l. clear Hr.
  apply in_map_iff in Hu. destruct Hu as [[q c] [Hq Hin]].
  apply slice_to_incl in Hin. rewrite <- Ef in Hin.
  apply filter_In in Hin. destruct Hin as [Hin _].
  exists vs', rated, q, c. auto.
Qed.

(** On a fitted index every uri that is returned is the uri of a record of
    the corpus whose [item_name] is longer than 3 characters. *)
Theorem returned_uris_are_fitted
    self X vendor product_name versions relax l u :
  predict_single_cert U F (fit self X) vendor product_name versions relax =
    Ret (Some l) ->
  In u l ->
  exists c, In c X /\ 3 < length (item_name c) /\ uri c = u.
Proof.
  intros H Hu.
  destruct (@returned_uri_candidate _ _ _ _ _ _ _ H Hu)
    as [vs' [rated [q [c [Hr [Hin Huri]]]]]].
  apply rated_candidates_inv in Hr.
  destruct Hr as [cv [cands [ratings [_ [Hc [_ ->]]]]]].
  apply in_combine_r in Hin.
  destruct (@candidates_in_index U _ _ _ _ _ Hc Hin)
    as [key [s [ps [_ [_ [Hg Hcs]]]]]].
  apply (dict_get_In _ pair_eqb_spec) in Hg.
  destruct (@fit_stored_records self X _ _ _ Hg Hcs) as [HX [Hlong _]].
  exists c. auto.
Qed.

(** A list that is returned is not empty when [n_max_matches] is at least
    1, and is empty when [n_max_matches] is 0: matches that are all cut
    away give [[]], not [None]. *)
Theorem returned_list_emptiness self vendor product_name versions relax l :
  predict_single_cert U F self vendor product_name versions relax = Ret (Some l) ->
  ((1 <= n_max_matches self)%Z -> l <> []) /\
  (n_max_matches self = 0%Z -> l = []).
Proof.
  intros H. apply predict_single_cert_inv in H.
  destruct H as [vs' [thr [fm [_ [Hr _]]]]].
  unfold uris_or_none in Hr. destruct fm as [|x fm]; [discriminate|].
  inversion Hr; subst l. clear Hr. unfold slice_to. split.
  - intros Hn. destruct (0 <=? n_max_matches self)%Z eqn:E;
      [|apply Z.leb_gt in E; lia].
    destruct (Z.to_nat (n_max_matches self)) eqn:En; [lia|]. discriminate.
  - intros ->. reflexivity.
Qed.

(** [predict] answers every tuple of the batch in order, with
    [relax_version=True], and returns only if every single query does. *)
Theorem predict_answers_in_order self X results :
  predict U F self X = Ret results <->
  Forall2 (fun x r =>
             predict_single_cert U F self (fst (fst x)) (snd (fst x)) (snd x) true =
             Ret r) X results.
Proof.
  unfold predict. revert results.
  induction X as [|x X IH]; intros results; simpl.
  - split; [intros H; inversion H; constructor | intros H; inversion H; reflexivity].
  - destruct (predict_single_cert U F self (fst (fst x)) (snd (fst x)) (snd x) true)
      as [r| |] eqn:Er; simpl.
    + destruct (mapM _ X) as [rs| |] eqn:Ers; simpl.
      * split.
        -- intros H. inversion H; subst. constructor; [exact Er|].
           apply IH. reflexivity.
        -- intros H. inversion H as [|? ? ? ? Hr Hrs]; subst.
           apply IH in Hrs. inversion Hrs; subst. rewrite Er in Hr.
           inversion Hr; subst. reflexivity.
      * split; [discriminate|]. intros H. inversion H as [|? ? ? ? _ Hrs]; subst.
        apply IH in Hrs. discriminate.
      * split; [discriminate|]. intros H. inversion H as [|? ? ? ? _ Hrs]; subst.
        apply IH in Hrs. discriminate.
    + split; [discriminate|]. intros H. inversion H as [|? ? ? ? Hr _]; subst.
      rewrite Er in Hr. discriminate.
    + split; [discriminate|]. intros H. inversion H as [|? ? ? ? Hr _]; subst.
      rewrite Er in Hr. discriminate.
Qed.

Lemma py_max_spec : forall (l : list Q) (x : Q),
  In (py_max x l) (x :: l) /\
  (forall y, In y (x :: l) -> (y <= py_max x l)%Q).
Proof.
  unfold py_max. induction l as [|a l IH]; intros x; simpl.
  - split; [auto|]. intros y [<- | []]. apply Qle_refl.
  - destruct (Qle_bool a x) eqn:E.
    + destruct (IH x) as [Hin Hle]. split.
      * destruct Hin as [Hin | Hin]; simpl; auto.
      * intros y [<- | [<- | Hy]].
        -- apply Hle. left. reflexivity.
        -- apply Qle_bool_iff in E. eapply Qle_trans; [exact E|].
           apply Hle. left. reflexivity.
        -- apply Hle. right. exact Hy.
    + destruct (IH a) as [Hin Hle]. split.
      * destruct Hin as [Hin | Hin]; simpl; auto.
      * assert (Hxa : (x <= a)%Q).
        { destruct (Qlt_le_dec x a) as [Hlt | Hge];
            [apply Qlt_le_weak; exact Hlt|].
          apply Qle_bool_iff in Hge. congruence. }
        intros y [<- | [<- | Hy]].
        -- eapply Qle_trans; [exact Hxa|]. apply Hle. left. reflexivity.
        -- apply Hle. left. reflexivity.
        -- apply Hle. right. exact Hy.
Qed.

(** The rating of a candidate is one of the four scores, and none of the
    four is above it: [token_set_ratio] and [partial_ratio] of the product
    name against the sanitized title, and of the product name without
    vendors and versions against the sanitized item name. *)
Theorem rating_is_best_score
    cpe product_name (manufacturers versions : list str) :
  let sanitized_title :=
    match truthy (title cpe) with
    | Some t => _fully_sanitize_string U t
    | None => _fully_sanitize_string U
                (vendor cpe ++ [space] ++ item_name cpe ++ [space] ++ version cpe)
    end in
  let sanitized_item_name := _fully_sanitize_string U (item_name cpe) in
  let cert_stripped :=
    _strip_manufacturer_and_version U product_name manufacturers versions in
  let scores :=
    [token_set_ratio F product_name sanitized_title;
     partial_ratio F product_name sanitized_title;
     token_set_ratio F cert_stripped sanitized_item_name;
     partial_ratio F cert_stripped sanitized_item_name] in
  exists q,
    compute_best_match U F cpe product_name (Some manufacturers) (Some versions) =
      Ret q /\
    In q scores /\ (forall y, In y scores -> (y <= q)%Q).
Proof.
  intros sanitized_title sanitized_item_name cert_stripped scores.
  exists (py_max (token_set_ratio F product_name sanitized_title)
                 [partial_ratio F product_name sanitized_title;
                  token_set_ratio F cert_stripped sanitized_item_name;
                  partial_ratio F cert_stripped sanitized_item_name]).
  split; [reflexivity | apply py_max_spec].
Qed.

End Queries.

(** [unresolved_vendor_gives_none] at a vendor the example index does not
    know. *)
Lemma unresolved_vendor_gives_none_witness :
  predict_single_cert basic_db fuzz (clf_zj 80 10) (lit "Umbrella Corp")
                      (lit "abcdefghij") None true = Ret None.
Proof.
  apply unresolved_vendor_gives_none. reflexivity.
Defined.

(** [unindexed_vendor_raises] at the vendor "Hewlett Packard", which
    resolves to "hp", and the example index without "hp". *)
Lemma unindexed_vendor_raises_witness :
  predict_single_cert basic_db fuzz (clf_zj 80 10) (lit "Hewlett Packard")
                      (lit "abcdefghij") (Some [lit "1.0"]) true = Raise KeyError.
Proof.
  apply (@unindexed_vendor_raises basic_db fuzz (clf_zj 80 10)
           (lit "Hewlett Packard") (lit "abcdefghij") [lit "1.0"] true
           [lit "hp"]).
  - reflexivity.
  - apply Exists_cons_hd. reflexivity.
Defined.

(** [missing_versions_raise] at the vendor "Acme" of the example index. *)
Lemma missing_versions_raise_witness :
  predict_single_cert basic_db fuzz (clf_zj 80 10) (lit "Acme")
                      (lit "abcdefghij") None true = Raise TypeError.
Proof.
  apply (@missing_versions_raise basic_db fuzz (clf_zj 80 10) (lit "Acme")
           (lit "abcdefghij") true (lit "acme") [] (lit "-") []);
    reflexivity.
Defined.

(** [returned_uris_are_fitted] at the second query of the examples. *)
Lemma returned_uris_are_fitted_witness :
  exists c, In c [cpe_z; cpe_j] /\ 3 < length (item_name c) /\ uri c = uri cpe_j.
Proof.
  apply (@returned_uris_are_fitted basic_db fuzz (new_classifier 80 10)
           [cpe_z; cpe_j] (lit "Acme") (lit "abcdefghij") (Some [lit "1.0"]) true
           [uri cpe_z; uri cpe_j] (uri cpe_j)).
  - vm_compute. reflexivity.
  - right. left. reflexivity.
Defined.

(** [returned_list_emptiness] at a classifier with [n_max_matches = 0]. *)
Lemma returned_list_emptiness_witness :
  ((1 <= n_max_matches (clf_zj 80 0))%Z -> @nil str <> []) /\
  (n_max_matches (clf_zj 80 0) = 0%Z -> @nil str = []).
Proof.
  apply (@returned_list_emptiness basic_db fuzz (clf_zj 80 0) (lit "Acme")
           (lit "abcdefghij") (Some [lit "1.0"]) true []).
  vm_compute. reflexivity.
Defined.

End QueryProofs.

(* ================================================================== *)
(** ** The corpus and its lookup dictionary                            *)
(* ================================================================== *)

Module CorpusProofs.
Import Py CPEMatching CVEData PyFacts Instances DatasetProofs.

Lemma NoDup_dict_get {V} (d : dict str V) k v :
  NoDup (dict_keys d) -> In (k, v) d -> dict_get str_eqb k d = Some v.
Proof.
  unfold dict_keys. induction d as [|[k0 v0] d IH]; simpl; [tauto|].
  intros Hnd H. inversion Hnd as [|? ? Hnotin Hnd']; subst.
  destruct H as [H | H].
  - inversion H; subst. rewrite str_eqb_refl. reflexivity.
  - destruct (str_eqb k k0) eqn:E; [|exact (IH Hnd' H)].
    apply str_eqb_spec in E. subst k0. exfalso. apply Hnotin.
    apply (in_map fst) in H. exact H.
Qed.

Lemma dict_set_absent {V} k (v : V) (d : dict str V) :
  ~ In k (dict_keys d) -> dict_set str_eqb k v d = d ++ [(k, v)].
Proof.
  unfold dict_keys. induction d as [|[k0 v0] d IH]; simpl; intros H;
    [reflexivity|].
  destruct (str_eqb k k0) eqn:E.
  - apply str_eqb_spec in E. subst k0. exfalso. apply H. left. reflexivity.
  - rewrite IH; [reflexivity|]. intros Hk. apply H. right. exact Hk.
Qed.

(** Filing the records of a corpus again, each under the key it already
    has, gives the corpus back. *)
Lemma refile_fixed (key : CVE -> str) : forall (d acc : dict str CVE),
  NoDup (dict_keys (acc ++ d)) ->
  (forall k v, In (k, v) d -> k = key v) ->
  fold_left (fun a x => dict_set str_eqb (key x) x a) (dict_values d) acc =
  acc ++ d.
Proof.
  unfold dict_keys, dict_values.
  induction d as [|[k0 v0] d IH]; intros acc Hnd Hk; simpl.
  - rewrite app_nil_r. reflexivity.
  - assert (E : k0 = key v0) by (apply Hk; left; reflexivity).
    subst k0. rewrite dict_set_absent.
    + rewrite IH.
      * rewrite <- app_assoc. reflexivity.
      * rewrite <- app_assoc. exact Hnd.
      * intros k v H. apply Hk. right. exact H.
    + rewrite map_app in Hnd. simpl in Hnd.
      apply NoDup_remove_2 in Hnd. intros H. apply Hnd.
      apply in_or_app. left. exact H.
Qed.

Section Built.
Variable U : UnicodeDB.

(** After [build_lookup_dict] every record of the corpus is read through
    the indexing interface by its id, in whatever case the id is
    written. *)
Theorem built_corpus_indexed_by_id (d : CVEDataset) md (r : CVE) (k : str) :
  In r (iter (build_lookup_dict U d md)) ->
  upper U k = upper U (cve_id r) ->
  __getitem__ U (build_lookup_dict U d md) k = Ret r.
Proof.
  unfold iter, __getitem__, build_lookup_dict, dict_values. simpl.
  destruct (rekeyed_corpus U (map snd (cves d))) as [Hnd Hk]. simpl in Hnd, Hk.
  intros H E. apply in_map_iff in H. destruct H as [[k' v] [<- H]].
  unfold iter, dict_values in *. simpl in *. pose proof (Hk _ _ H). subst k'.
  rewrite E, (NoDup_dict_get _ _ _ Hnd H). reflexivity.
Qed.

(** After [build_lookup_dict(use_nist_mapping=False)] the exact matching
    returns the ids of the records of the corpus that list an identifier
    with one of the given uris, and nothing else; a uri the lookup
    dictionary does not have contributes nothing. *)
Theorem exact_matches_characterized (d : CVEDataset) (cpe_uris : list str) id :
  In id (_get_cves_from_exactly_matched_cpes (build_lookup_dict U d None) cpe_uris)
  <-> exists r, In r (iter (build_lookup_dict U d None)) /\ cve_id r = id /\
                exists cpe, In cpe (vulnerable_cpes r) /\ In (uri cpe) cpe_uris.
Proof.
  unfold _get_cves_from_exactly_matched_cpes, _get_cve_ids_for_cpe_uri.
  rewrite (@set_of_list_In _ _ str_eqb_spec), in_flat_map.
  unfold build_lookup_dict at 1. simpl. split.
  - intros [u [Hu H]]. apply lookup_In in H.
    destruct H as [[] | [r [Hr [-> [cpe [Hc <-]]]]]].
    exists r. split; [exact Hr|]. split; [reflexivity|]. eauto.
  - intros [r [Hr [<- [cpe [Hc Hu]]]]]. exists (uri cpe). split; [exact Hu|].
    apply lookup_In. right. exists r. split; [exact Hr|]. eauto.
Qed.

(** [build_lookup_dict] is a full rebuild: building again changes
    nothing. *)
Theorem build_lookup_dict_idempotent (d : CVEDataset) md :
  build_lookup_dict U (build_lookup_dict U d md) md = build_lookup_dict U d md.
Proof.
  destruct (rekeyed_corpus U (iter d)) as [Hnd Hk]. simpl in Hnd, Hk.
  assert (E : fold_left (fun a x => dict_set str_eqb (upper U (cve_id x)) x a)
                (iter (build_lookup_dict U d md)) [] =
              cves (build_lookup_dict U d md)).
  { unfold iter at 1. simpl cves.
    apply (@refile_fixed (fun x => upper U (cve_id x)) _ []); assumption. }
  unfold build_lookup_dict at 1. rewrite E. reflexivity.
Qed.

End Built.

(** [built_corpus_indexed_by_id] at the example corpus and the id of
    [cve_1] in lower case. *)
Lemma built_corpus_indexed_by_id_witness :
  __getitem__ basic_db (build_lookup_dict basic_db corpus_12 None)
              (lit "cve-2021-0001") = Ret cve_1.
Proof.
  apply built_corpus_indexed_by_id.
  - vm_compute. left. reflexivity.
  - reflexivity.
Defined.

(** *** Resolution grows with the set of uris *)

Lemma mem_incl (x : str) l1 l2 :
  incl l1 l2 -> mem str_eqb x l1 = true -> mem str_eqb x l2 = true.
Proof.
  intros H Hm. apply (@mem_In _ _ str_eqb_spec).
  apply (@mem_In _ _ str_eqb_spec) in Hm. apply H, Hm.
Qed.

Lemma matches_incl cfg l1 l2 :
  incl l1 l2 -> matches cfg l1 = true -> matches cfg l2 = true.
Proof.
  unfold matches. intros H Hm. apply andb_true_iff in Hm.
  destruct Hm as [Hp Hc]. apply andb_true_iff. split.
  - exact (mem_incl _ H Hp).
  - apply existsb_exists in Hc. destruct Hc as [y [Hy Hm]].
    apply existsb_exists. exists y. split; [exact Hy | exact (mem_incl _ H Hm)].
Qed.

(** For any state of the dataset, a larger set of uris is matched to at
    least the same vulnerabilities. *)
Theorem matched_cves_monotone (d : CVEDataset) (uris1 uris2 : list str) :
  incl uris1 uris2 ->
  incl (get_cves_from_matched_cpes d uris1) (get_cves_from_matched_cpes d uris2).
Proof.
  intros H id. unfold get_cves_from_matched_cpes,
    _get_cves_from_exactly_matched_cpes, _get_cves_from_cpe_configurations.
  rewrite !(@set_of_list_In _ _ str_eqb_spec), !in_app_iff,
    !(@set_of_list_In _ _ str_eqb_spec), !in_flat_map, !in_map_iff.
  intros [[u [Hu Hid]] | [r [Hr Hin]]].
  - left. exists u. split; [apply H, Hu | exact Hid].
  - right. exists r. split; [exact Hr|].
    apply filter_In in Hin. destruct Hin as [Hin Hm]. apply filter_In.
    split; [exact Hin|]. apply existsb_exists in Hm.
    destruct Hm as [cfg [Hcfg Hm]]. apply existsb_exists. exists cfg.
    split; [exact Hcfg | exact (matches_incl cfg H Hm)].
Qed.

(** [matched_cves_monotone] at the example corpus. *)
Lemma matched_cves_monotone_witness :
  incl (get_cves_from_matched_cpes
          (build_lookup_dict basic_db corpus_12 None) [uri cpe_z])
       (get_cves_from_matched_cpes
          (build_lookup_dict basic_db corpus_12 None) [uri cpe_v; uri cpe_z]).
Proof.
  apply matched_cves_monotone. intros x [<- | []]. right. left. reflexivity.
Defined.

(** *** Pruning a corpus whose records are filed under their ids *)

Lemma filter_keeps_all {A} (f : A -> bool) (l : list A) :
  (forall x, In x l -> f x = true) -> filter f l = l.
Proof.
  induction l as [|x l IH]; simpl; intros H; [reflexivity|].
  rewrite (H x (or_introl eq_refl)), IH; [reflexivity|].
  intros y Hy. apply H. right. exact Hy.
Qed.

Lemma filter_twice {A} (f g : A -> bool) (l : list A) :
  filter f (filter g l) = filter (fun x => g x && f x) l.
Proof.
  induction l as [|x l IH]; simpl; [reflexivity|].
  destruct (g x); simpl; [destruct (f x)|]; rewrite IH; reflexivity.
Qed.

Lemma filter_of_map {A B} (f : B -> bool) (g : A -> B) (l : list A) :
  filter f (map g l) = map g (filter (fun x => f (g x)) l).
Proof.
  induction l as [|x l IH]; simpl; [reflexivity|].
  destruct (f (g x)); simpl; rewrite IH; reflexivity.
Qed.

Lemma NoDup_keys_filter {V} (f : str * V -> bool) (d : dict str V) :
  NoDup (dict_keys d) -> NoDup (dict_keys (filter f d)).
Proof.
  unfold dict_keys. induction d as [|[k v] d IH]; simpl; intros H; [exact H|].
  inversion H as [|? ? Hnotin Hnd]; subst.
  destruct (f (k, v)); simpl; [|exact (IH Hnd)].
  constructor; [|exact (IH Hnd)].
  intros Hin. apply Hnotin. apply in_map_iff in Hin.
  destruct Hin as [kv [E Hkv]]. apply filter_In in Hkv.
  apply in_map_iff. exists kv. tauto.
Qed.

Lemma str_eqb_sym (a b : str) : str_eqb a b = str_eqb b a.
Proof.
  destruct (str_eqb a b) eqn:E1, (str_eqb b a) eqn:E2; try reflexivity.
  - apply str_eqb_spec in E1. subst b. rewrite str_eqb_refl in E2. discriminate.
  - apply str_eqb_spec in E2. subst b. rewrite str_eqb_refl in E1. discriminate.
Qed.

(** In a dictionary [del d[k]] leaves the other entries in place. *)
Lemma dict_del_filter {V} k (d : dict str V) :
  NoDup (dict_keys d) ->
  dict_del str_eqb k d = filter (fun kv => negb (str_eqb k (fst kv))) d.
Proof.
  unfold dict_keys. induction d as [|[k0 v0] d IH]; simpl; intros H;
    [reflexivity|].
  inversion H as [|? ? Hnotin Hnd]; subst.
  destruct (str_eqb k k0) eqn:E; simpl.
  - apply str_eqb_spec in E. subst k0. symmetry. apply filter_keeps_all.
    intros [k' v'] Hin. simpl. apply negb_true_iff, str_eqb_neq.
    intros ->. apply Hnotin. apply (in_map fst) in Hin. exact Hin.
  - rewrite (IH Hnd). reflexivity.
Qed.

(** Deleting keys that are all present, each once, raises nothing and
    leaves the entries under the other keys. *)
Lemma delete_all_keys : forall ids (d : dict str CVE),
  NoDup (dict_keys d) -> NoDup ids -> incl ids (dict_keys d) ->
  delete_all ids d =
  (filter (fun kv => negb (mem str_eqb (fst kv) ids)) d, None).
Proof.
  induction ids as [|id ids IH]; intros d Hd Hids Hin; simpl.
  - rewrite filter_keeps_all; [reflexivity | intros; reflexivity].
  - inversion Hids as [|? ? Hnotin Hids']; subst.
    assert (Hid : In id (dict_keys d)) by (apply Hin; left; reflexivity).
    assert (Hhas : dict_has str_eqb id d = true).
    { unfold dict_keys in Hid. apply in_map_iff in Hid.
      destruct Hid as [[k v] [E Hkv]]. simpl in E. subst k.
      unfold dict_has. rewrite (NoDup_dict_get _ _ _ Hd Hkv). reflexivity. }
    rewrite Hhas, (@dict_del_filter _ id d Hd), IH.
    + rewrite filter_twice. f_equal. apply filter_ext. intros [k v]. simpl.
      rewrite (str_eqb_sym k id), negb_orb. reflexivity.
    + apply NoDup_keys_filter, Hd.
    + exact Hids'.
    + intros x Hx. assert (Hxd : In x (dict_keys d)) by (apply Hin; right; exact Hx).
      unfold dict_keys in *. apply in_map_iff in Hxd.
      destruct Hxd as [[k v] [E Hkv]]. simpl in E. subst k.
      apply in_map_iff. exists (x, v). split; [reflexivity|].
      apply filter_In. split; [exact Hkv|]. simpl.
      apply negb_true_iff, str_eqb_neq. intros ->. exact (Hnotin Hx).
Qed.

(** A key that is absent stays absent under deletions, so the loop meets
    it and raises. *)
Lemma delete_all_missing : forall ids (d : dict str CVE) id,
  In id ids -> ~ In id (dict_keys d) ->
  snd (delete_all ids d) = Some KeyError.
Proof.
  induction ids as [|id0 ids IH]; intros d id Hin Hnot; simpl; [destruct Hin|].
  destruct (dict_has str_eqb id0 d) eqn:E; [|reflexivity].
  destruct Hin as [-> | Hin].
  - exfalso. unfold dict_has in E.
    destruct (dict_get str_eqb id d) as [v|] eqn:G; [|discriminate].
    apply (@dict_get_In _ _ _ str_eqb_spec) in G. apply Hnot.
    apply (in_map fst) in G. exact G.
  - apply (IH _ id Hin). intros H. apply Hnot. unfold dict_keys in *.
    apply in_map_iff in H. destruct H as [kv [E' Hkv]].
    apply dict_del_In in Hkv. apply in_map_iff. exists kv. tauto.
Qed.

Lemma pruned_corpus_filed (S : list obj) (d : dict str CVE) :
  keys_are_ids d -> keys_are_ids (pruned_corpus S d).
Proof.
  unfold keys_are_ids, pruned_corpus, dict_keys. intros [Hnd Hk]. split.
  - rewrite map_map. simpl. exact Hnd.
  - intros k v H. apply in_map_iff in H. destruct H as [[k0 v0] [E H]].
    simpl in E. inversion E; subst. simpl. exact (Hk _ _ H).
Qed.

(** The ids collected for deletion are the keys of the records left
    without an identifier. *)
Lemma ids_to_delete_are_keys (d : dict str CVE) :
  keys_are_ids d ->
  map cve_id (filter (fun cve => is_nil (vulnerable_cpes cve)) (dict_values d)) =
  dict_keys (filter (fun kv => is_nil (vulnerable_cpes (snd kv))) d).
Proof.
  intros [_ Hk]. unfold dict_values, dict_keys.
  rewrite filter_of_map, map_map. apply map_ext_in.
  intros [k v] H. apply filter_In in H. destruct H as [H _].
  simpl. symmetry. exact (Hk _ _ H).
Qed.

(** What [filter_related_cpes] leaves of a corpus whose records are filed
    under their ids. *)
Lemma filter_related_cpes_filed (self : CVEDataset) (S : list obj) :
  keys_are_ids (cves self) ->
  filter_related_cpes self S =
  ({| cves := filter (fun kv => negb (is_nil (vulnerable_cpes (snd kv))))
                     (pruned_corpus S (cves self));
      cpe_to_cve_ids_lookup := cpe_to_cve_ids_lookup self;
      cves_with_vulnerable_configurations :=
        map (prune S) (cves_with_vulnerable_configurations self) |}, None).
Proof.
  intros H. pose proof (@pruned_corpus_filed S _ H) as HP.
  unfold filter_related_cpes. fold (pruned_corpus S (cves self)).
  set (P := pruned_corpus S (cves self)) in *.
  rewrite (@ids_to_delete_are_keys _ HP). destruct HP as [Hnd Hk].
  rewrite delete_all_keys.
  - f_equal. f_equal. apply filter_ext_in. intros [k v] Hkv. simpl. f_equal.
    destruct (is_nil (vulnerable_cpes v)) eqn:E.
    + apply (@mem_In _ _ str_eqb_spec). unfold dict_keys.
      apply in_map_iff. exists (k, v). split; [reflexivity|].
      apply filter_In. split; [exact Hkv | exact E].
    + destruct (mem str_eqb k _) eqn:Em; [|reflexivity].
      apply (@mem_In _ _ str_eqb_spec) in Em. unfold dict_keys in Em.
      apply in_map_iff in Em. destruct Em as [[k' v'] [Ek Hf]].
      simpl in Ek. subst k'. apply filter_In in Hf. destruct Hf as [Hin Hn].
      simpl in Hn. rewrite (NoDup_keys_functional _ _ _ _ Hnd Hkv Hin) in E.
      congruence.
  - exact Hnd.
  - apply NoDup_keys_filter, Hnd.
  - intros x Hx. unfold dict_keys in *. apply in_map_iff in Hx.
    destruct Hx as [kv [E Hkv]]. apply filter_In in Hkv.
    apply in_map_iff. exists kv. tauto.
Qed.

Lemma prune_idempotent (S : list obj) (r : CVE) :
  prune S (prune S r) = prune S r.
Proof.
  unfold prune. simpl. f_equal; rewrite filter_twice; apply filter_ext;
    intros x; apply andb_diag.
Qed.

(** On a corpus whose records are filed under their ids,
    [filter_related_cpes] raises nothing and leaves, in their order, the
    pruned records that still list an identifier. *)
Theorem pruning_leaves_records_with_identifiers
    (self : CVEDataset) (S : list obj) :
  keys_are_ids (cves self) ->
  snd (filter_related_cpes self S) = None /\
  iter (fst (filter_related_cpes self S)) =
  filter (fun r => negb (is_nil (vulnerable_cpes r)))
         (map (prune S) (iter self)).
Proof.
  intros H. rewrite (@filter_related_cpes_filed self S H). simpl.
  split; [reflexivity|]. unfold iter, dict_values, pruned_corpus. simpl.
  rewrite filter_of_map, !map_map, filter_of_map. reflexivity.
Qed.

(** [filter_related_cpes] keeps the records filed under their ids. *)
Theorem pruning_keeps_records_filed (self : CVEDataset) (S : list obj) :
  keys_are_ids (cves self) ->
  keys_are_ids (cves (fst (filter_related_cpes self S))).
Proof.
  intros H. rewrite (@filter_related_cpes_filed self S H). simpl.
  destruct (@pruned_corpus_filed S _ H) as [Hnd Hk]. split.
  - apply NoDup_keys_filter, Hnd.
  - intros k v Hin. apply filter_In in Hin. apply Hk, Hin.
Qed.

(** Pruning a second time with the same set changes nothing. *)
Theorem pruning_idempotent (self : CVEDataset) (S : list obj) :
  keys_are_ids (cves self) ->
  filter_related_cpes (fst (filter_related_cpes self S)) S =
  (fst (filter_related_cpes self S), None).
Proof.
  intros H. rewrite (@filter_related_cpes_filed self S H). simpl.
  assert (H' : keys_are_ids
                 (filter (fun kv => negb (is_nil (vulnerable_cpes (snd kv))))
                         (pruned_corpus S (cves self)))).
  { destruct (@pruned_corpus_filed S _ H) as [Hnd Hk]. split.
    - apply NoDup_keys_filter, Hnd.
    - intros k v Hin. apply filter_In in Hin. apply Hk, Hin. }
  rewrite filter_related_cpes_filed; [|exact H']. simpl.
  f_equal. f_equal.
  - set (P := pruned_corpus S (cves self)).
    assert (E : pruned_corpus S
                  (filter (fun kv => negb (is_nil (vulnerable_cpes (snd kv)))) P) =
                filter (fun kv => negb (is_nil (vulnerable_cpes (snd kv)))) P).
    { unfold pruned_corpus at 1. rewrite <- (map_id (filter _ P)) at 2.
      apply map_ext_in. intros [k v] Hin. apply filter_In in Hin.
      destruct Hin as [Hin _]. unfold P, pruned_corpus in Hin.
      apply in_map_iff in Hin. destruct Hin as [[k0 v0] [E _]].
      simpl in E. inversion E; subst. simpl. rewrite prune_idempotent.
      reflexivity. }
    rewrite E, filter_twice. apply filter_ext. intros x. apply andb_diag.
  - rewrite map_map. apply map_ext. intros r. apply prune_idempotent.
Qed.

(** When a record that is left without an identifier is not filed under
    its id (under a lower-case key, for one), [filter_related_cpes] ends
    with [KeyError]. *)
Theorem pruning_misfiled_record_raises
    (self : CVEDataset) (S : list obj) (r : CVE) :
  In r (iter self) ->
  vulnerable_cpes (prune S r) = [] ->
  ~ In (cve_id r) (dict_keys (cves self)) ->
  snd (filter_related_cpes self S) = Some KeyError.
Proof.
  intros Hr He Hk. unfold filter_related_cpes.
  fold (pruned_corpus S (cves self)).
  destruct (delete_all _ _) as [rem e] eqn:E. simpl.
  change e with (snd (rem, e)). rewrite <- E.
  apply delete_all_missing with (id := cve_id r).
  - change (cve_id r) with (cve_id (prune S r)). apply in_map.
    apply filter_In. split; [|rewrite He; reflexivity].
    unfold iter, dict_values, pruned_corpus in *. rewrite map_map. simpl.
    apply in_map_iff in Hr. destruct Hr as [kv [<- Hkv]].
    apply in_map_iff. exists kv. tauto.
  - unfold pruned_corpus, dict_keys in *. rewrite map_map. simpl. exact Hk.
Qed.

(** [pruning_leaves_records_with_identifiers] at the example corpus, as
    loaded, and the set holding [cpe_z]. *)
Lemma pruning_leaves_records_with_identifiers_witness :
  snd (filter_related_cpes corpus_12 [OCpe cpe_z]) = None /\
  iter (fst (filter_related_cpes corpus_12 [OCpe cpe_z])) =
  filter (fun r => negb (is_nil (vulnerable_cpes r)))
         (map (prune [OCpe cpe_z]) (iter corpus_12)).
Proof.
  apply pruning_leaves_records_with_identifiers.
  split; [vm_compute; repeat constructor; simpl; intuition discriminate|].
  intros k v H. vm_compute in H.
  repeat (destruct H as [H | H]; [inversion H; reflexivity|]). destruct H.
Defined.

(** [pruning_keeps_records_filed] at the example corpus. *)
Lemma pruning_keeps_records_filed_witness :
  keys_are_ids (cves (fst (filter_related_cpes corpus_12 [OCpe cpe_z]))).
Proof.
  apply pruning_keeps_records_filed.
  split; [vm_compute; repeat constructor; simpl; intuition discriminate|].
  intros k v H. vm_compute in H.
  repeat (destruct H as [H | H]; [inversion H; reflexivity|]). destruct H.
Defined.

(** [pruning_idempotent] at the example corpus. *)
Lemma pruning_idempotent_witness :
  filter_related_cpes (fst (filter_related_cpes corpus_12 [OCpe cpe_z]))
                      [OCpe cpe_z] =
  (fst (filter_related_cpes corpus_12 [OCpe cpe_z]), None).
Proof.
  apply pruning_idempotent.
  split; [vm_compute; repeat constructor; simpl; intuition discriminate|].
  intros k v H. vm_compute in H.
  repeat (destruct H as [H | H]; [inversion H; reflexivity|]). destruct H.
Defined.

(** [pruning_misfiled_record_raises] at a dataset that received [cve_1]
    through [__setitem__], which files it under the lower-case key. *)
Lemma pruning_misfiled_record_raises_witness :
  snd (filter_related_cpes
         (__setitem__ basic_db (new_dataset []) (cve_id cve_1) cve_1) []) =
  Some KeyError.
Proof.
  apply pruning_misfiled_record_raises with (r := cve_1).
  - vm_compute. left. reflexivity.
  - reflexivity.
  - vm_compute. intros [H | []]. discriminate H.
Defined.

End CorpusProofs.

(* ================================================================== *)
(** ** The shape of sanitized strings                                  *)
(* ================================================================== *)

Module SanitizedShapeProofs.
Import Py CPEMatching PyFacts Instances SanitizeProofs ResolverProofs.

Lemma lstrip_fixed s :
  match s with [] => True | c :: _ => is_space c = false end -> lstrip s = s.
Proof. destruct s as [|c r]; simpl; [reflexivity|]. intros ->. reflexivity. Qed.

Lemma lstrip_idempotent s : lstrip (lstrip s) = lstrip s.
Proof. apply lstrip_fixed, lstrip_head. Qed.

Lemma lstrip_snoc a c :
  is_space c = false -> lstrip (a ++ [c]) = lstrip a ++ [c].
Proof.
  intros Hc. induction a as [|x a IH]; simpl; [rewrite Hc; reflexivity|].
  destruct (is_space x); [exact IH | reflexivity].
Qed.

Lemma rstrip_idempotent s : rstrip (rstrip s) = rstrip s.
Proof. unfold rstrip. rewrite rev_involutive, lstrip_idempotent. reflexivity. Qed.

Lemma rstrip_cons c r :
  is_space c = false -> rstrip (c :: r) = c :: rstrip r.
Proof.
  intros Hc. unfold rstrip. simpl. rewrite (@lstrip_snoc (rev r) c Hc), rev_app_distr.
  reflexivity.
Qed.

(** [strip] leaves a string that [strip] does not change. *)
Lemma strip_idempotent s : strip (strip s) = strip s.
Proof.
  unfold strip at 2 3. pose proof (lstrip_head s) as H.
  destruct (lstrip s) as [|c r]; [reflexivity|].
  rewrite (@rstrip_cons c r H). unfold strip. simpl lstrip. rewrite H.
  rewrite <- (@rstrip_cons c r H). apply rstrip_idempotent.
Qed.

Section Shape.
Variable U : UnicodeDB.

(** A fully sanitized string consists of spaces and of word characters
    other than the two trademark signs. *)
Theorem sanitized_characters (s : str) (c : char) :
  In c (_fully_sanitize_string U s) ->
  c = space \/
  (is_word U c = true /\ c <> registered_sign /\ c <> trade_mark_sign).
Proof.
  unfold _fully_sanitize_string, _replace_special_chars_with_space.
  intros H. apply in_map_iff in H. destruct H as [x [E Hx]].
  destruct (is_word U x) eqn:W; [|left; symmetry; exact E].
  subst c. right. split; [exact W|].
  pose proof (discard_removes (lower U s)) as Hd.
  rewrite Forall_forall in Hd. exact (Hd x Hx).
Qed.

(** When a vendor or a version is given, the product name comes back
    from [_strip_manufacturer_and_version] without leading or trailing
    whitespace. *)
Theorem stripped_name_has_no_outer_whitespace
    (s : str) (manufacturers versions : list str) :
  manufacturers ++ versions <> [] ->
  strip (_strip_manufacturer_and_version U s manufacturers versions) =
  _strip_manufacturer_and_version U s manufacturers versions.
Proof.
  intros H. unfold _strip_manufacturer_and_version.
  destruct (exists_last H) as [l [x E]]. rewrite E, fold_left_app. simpl.
  apply strip_idempotent.
Qed.

End Shape.

(** [sanitized_characters] at the string ["X(R)"], written with the
    registered sign, and its first sanitized character ["x"]. *)
Lemma sanitized_characters_witness :
  120%N = space \/
  (is_word basic_db 120%N = true /\
   120%N <> registered_sign /\ 120%N <> trade_mark_sign).
Proof.
  apply (@sanitized_characters basic_db [88%N; registered_sign] 120%N).
  vm_compute. left. reflexivity.
Defined.

(** [stripped_name_has_no_outer_whitespace] at the product name
    ["acme router 2.0"], the vendor ["acme"] and the version ["2.0"]. *)
Lemma stripped_name_has_no_outer_whitespace_witness :
  strip (_strip_manufacturer_and_version basic_db (lit "acme router 2.0")
           [lit "acme"] [lit "2.0"]) =
  _strip_manufacturer_and_version basic_db (lit "acme router 2.0")
    [lit "acme"] [lit "2.0"].
Proof.
  apply stripped_name_has_no_outer_whitespace. discriminate.
Defined.

End SanitizedShapeProofs.
